(** * Verification of the analysis driver of golang-tools

    The development embeds, function by function, the parts of the
    repository that its specification talks about:

    - [objectpath]: the object-path encoder [Of]/[pathOf] and the decoder
      [FindObject]/[parse] (package objectpath);
    - [checker]: the action graph builder [mkAction], the executor
      [execOnce], fact inheritance [inheritLemmas]/[exportedFrom] and the
      fact setters [setObjLemma]/[setPkgLemma] (package checker);
    - [doctor]: the fact store [lemmaSet] and the fact file reader and
      writer [readLemmas]/[writeLemmas] of the compile-protocol driver.

    Go pointers are modelled by addresses (natural numbers): two objects are
    the same Go object exactly when their addresses agree.  Go strings are
    modelled by Rocq strings, one character per rune (U+0000 to U+00FF).
    Go maps are finite maps ([gmap]); when the order in which a [range]
    statement visits a map matters, that order is an explicit argument. *)

From Stdlib Require Import ZArith Ascii String DecimalString DecimalZ.
From stdpp Require Import base tactics option list sorting gmap strings.

Local Open Scope string_scope.
Local Open Scope list_scope.
Local Open Scope Z_scope.

(** ** Outcomes of Go functions

    A Go function of result type [(T, error)] either returns a value,
    returns an error, or panics. *)

Inductive outcome (E A : Type) : Type :=
  | Ok (a : A)
  | Err (e : E)
  | Panic (msg : string).
Arguments Ok {E A} a.
Arguments Err {E A} e.
Arguments Panic {E A} msg.

#[global] Instance outcome_bind {E} : MBind (outcome E) := λ A B k m,
  match m with
  | Ok a => k a
  | Err e => Err e
  | Panic msg => Panic msg
  end.
#[global] Instance outcome_ret {E} : MRet (outcome E) := λ A a, Ok a.
#[global] Instance outcome_fmap {E} : FMap (outcome E) := λ A B f m,
  match m with
  | Ok a => Ok (f a)
  | Err e => Err e
  | Panic msg => Panic msg
  end.

(** [for _, x := range l { ... }] over code that may fail: the loop stops
    at the first error or panic. *)
Fixpoint foldM {E A B} (f : B → A → outcome E B) (b : B) (l : list A)
  : outcome E B :=
  match l with
  | [] => Ok b
  | x :: l' => b' ← f b x; foldM f b' l'
  end.

Definition is_Ok {E A} (m : outcome E A) : Prop := ∃ a, m = Ok a.
Definition is_Err {E A} (m : outcome E A) : Prop := ∃ e, m = Err e.
Definition is_Panic {E A} (m : outcome E A) : Prop := ∃ msg, m = Panic msg.

(** ** Strings, runes and the standard library functions used *)

Module gostrings.

Definition rune (c : ascii) : N := N_of_ascii c.

Definition between (lo hi n : N) : bool := ((lo <=? n) && (n <=? hi))%N.

(** [unicode.IsLetter], [unicode.IsDigit] and [unicode.IsUpper] on the
    Latin-1 range, after the property table of package unicode. *)
Definition IsLetter (c : ascii) : bool :=
  let n := rune c in
  between 65 90 n || between 97 122 n || (n =? 170)%N || (n =? 181)%N
  || (n =? 186)%N || between 192 214 n || between 216 246 n
  || between 248 255 n.

Definition IsDigit (c : ascii) : bool := between 48 57 (rune c).

Definition IsUpper (c : ascii) : bool :=
  let n := rune c in
  between 65 90 n || between 192 214 n || between 216 222 n.

(** [token.IsExported]: the first rune is an upper-case letter. *)
Definition IsExported (name : string) : bool :=
  match name with
  | EmptyString => false
  | String c _ => IsUpper c
  end.

(** [strings.Split(s, ".")]: the text before the first dot and the
    pieces after it; the result is never empty. *)
Fixpoint split_go (s : string) : string * list string :=
  match s with
  | EmptyString => ("", [])
  | String c s' =>
      let '(word, words) := split_go s' in
      if Ascii.eqb c "."%char then ("", word :: words)
      else (String c word, words)
  end.
Definition Split_dot (s : string) : list string :=
  let '(word, words) := split_go s in word :: words.

(** [strings.Join(l, sep)]. *)
Fixpoint Join (l : list string) (sep : string) : string :=
  match l with
  | [] => ""
  | [x] => x
  | x :: l' => x +:+ sep +:+ Join l' sep
  end.

(** [strconv.Itoa], the decimal numeral that [fmt.Fprint] prints for an
    [int]. *)
Definition Itoa (n : Z) : string := NilZero.string_of_int (Z.to_int n).

Definition in_int_range (n : Z) : bool :=
  (- 2 ^ 63 <=? n) && (n <? 2 ^ 63).

(** [strconv.Atoi] for a 64-bit [int]: an optional sign followed by one
    or more decimal digits, in range. *)
Definition Atoi (s : string) : option Z :=
  let r :=
    match s with
    | String "+" s' => Z.of_uint <$> NilZero.uint_of_string s'
    | _ => Z.of_int <$> NilZero.int_of_string s
    end in
  n ← r; if in_int_range n then Some n else None.

(** [strings.IndexByte(s, b) >= 0]. *)
Fixpoint ContainsByte (s : string) (b : ascii) : bool :=
  match s with
  | EmptyString => false
  | String c s' => Ascii.eqb c b || ContainsByte s' b
  end.

(** [sort.Strings]: the ascending arrangement of the slice. *)
Definition sort_Strings (l : list string) : list string :=
  merge_sort String.le l.

End gostrings.

(** ** The part of go/types the driver relies on *)

Module types.

(** The dynamic type of a [types.Object]. *)
Inductive Kind :=
  | PkgName | Const | TypeName | Var | Func | Label | Builtin | Nil.

#[global] Instance Kind_eq_dec : EqDecision Kind.
Proof. solve_decision. Defined.

(** Types and objects.  A named type is a reference into the table of
    named types of the [World]; a signature records whether it has a
    receiver and its parameter and result tuples. *)
Inductive Type_ :=
  | Basic (name : string)
  | Named (ref : nat)
  | Pointer (elem : Type_)
  | Slice (elem : Type_)
  | Array (len : Z) (elem : Type_)
  | Chan (elem : Type_)
  | Map (key elem : Type_)
  | Signature (recv : bool) (params results : Type_)
  | Struct (fields : list Object)
  | Tuple (vars : list Object)
  | Interface (methods : list Object)
with Object :=
  | mkObject (addr : nat) (kind : Kind) (pkg : option nat) (name : string)
             (isField : bool) (typ : Type_).

Definition obj_addr (o : Object) : nat := let 'mkObject a _ _ _ _ _ := o in a.
Definition obj_kind (o : Object) : Kind := let 'mkObject _ k _ _ _ _ := o in k.
(** [obj.Pkg()]: the address of the owning package, [None] for nil. *)
Definition Pkg (o : Object) : option nat := let 'mkObject _ _ p _ _ _ := o in p.
Definition Name (o : Object) : string := let 'mkObject _ _ _ n _ _ := o in n.
Definition IsField (o : Object) : bool := let 'mkObject _ _ _ _ f _ := o in f.
Definition TypeOf (o : Object) : Type_ := let 'mkObject _ _ _ _ _ t := o in t.

Definition Exported (o : Object) : bool := gostrings.IsExported (Name o).

(** Whether the signature of the function [obj] has a receiver: the Go
    expression asserts that [obj.Type()] is a signature and compares its
    [Recv()] with nil.  The type of a function object is always a
    signature, so the assertion cannot fail; at the other types, which no
    function has, the answer is [false]. *)
Definition has_Recv (obj : Object) : bool :=
  match TypeOf obj with
  | Signature recv _ _ => recv
  | _ => false
  end.

(** Pointer comparison of two objects. *)
Definition same (o1 o2 : Object) : bool := Nat.eqb (obj_addr o1) (obj_addr o2).

(** A [*types.Package]: its path and its scope.  [Imports] lists the
    addresses of the directly imported packages. *)
Record Package := {
  Path : string;
  Scope : gmap string Object;
  Imports : list nat;
}.

Record NamedInfo := {
  Methods : list Object;     (* declared methods, in order *)
  Underlying : Type_;
}.

(** The heap of one type-checking session. *)
Record World := {
  package : nat → Package;
  named : nat → NamedInfo;
}.

(** [scope.Lookup(name)]. *)
Definition Lookup (s : gmap string Object) (name : string) : option Object :=
  s !! name.

(** [scope.Names()]: the names of the scope, sorted. *)
Definition Names (s : gmap string Object) : list string :=
  gostrings.sort_Strings ((map_to_list s).*1).

(** [types.Id(pkg, name)] and [obj.Id()]. *)
Definition Id_of (W : World) (pkg : option nat) (name : string) : string :=
  if gostrings.IsExported name then name
  else
    let path :=
      match pkg with
      | Some p => if decide (Path (package W p) = "") then "_"
                  else Path (package W p)
      | None => "_"
      end in
    path +:+ "." +:+ name.

Definition Id (W : World) (o : Object) : string := Id_of W (Pkg o) (Name o).

End types.

(** ** Package objectpath *)

Module objectpath.
Import types.

(** An element of a path: an identifier or operator (a Go [string]) or a
    tuple index (a Go [int]). *)
Inductive elem :=
  | EStr (s : string)
  | EInt (n : Z).

#[global] Instance elem_eq_dec : EqDecision elem.
Proof. solve_decision. Defined.

Definition opKey : string := "!key".
Definition opValue : string := "!value".
Definition opParams : string := "!params".
Definition opResults : string := "!results".
Definition opUnderlying : string := "!underlying".

(** The errors of the package, one constructor per [fmt.Errorf] site. *)
Inductive error :=
  | ErrUniversal                      (* universal objects have no path *)
  | ErrNotField                       (* var is not a field *)
  | ErrNotMethod                      (* func is not a method *)
  | ErrNotPackageLevel                (* not a package-level object, ... *)
  | ErrCantFind                       (* can't find path for ... *)
  | ErrEmptyPath                      (* empty path *)
  | ErrNotDefined (name : string)     (* pkg.name not defined *)
  | ErrBasic                          (* unexpected basic type *)
  | ErrBadPath (where_ : string)      (* in ...: bad/empty path *)
  | ErrUnexpected (where_ : string) (e : elem)
                                      (* unexpected path element / got %T *)
  | ErrNoMethod (name : string)       (* named type has no method *)
  | ErrNoField (id : string)          (* in struct: no field *)
  | ErrNoIfaceMethod (id : string)    (* in interface: no method *)
  | ErrIndexRange                     (* in tuple: index out of range *)
  | ErrInvalidIdent (word : string).  (* invalid path: not an identifier *)

Abbreviation res := (outcome error).

Section encoder.
Context (W : World) (obj : Object).

Section loops.
(** The recursive calls of the loops below go to the closure [find]. *)
Context (find : list elem → Type_ → option (list elem)).

(** The loop over the fields of a struct, over the methods of an
    interface and over the declared methods of a named type: the three
    loops have the same body. *)
Fixpoint members_loop (path : list elem) (ms : list Object)
  : option (list elem) :=
  match ms with
  | [] => None
  | m :: ms' =>
      let path2 := path ++ [EStr (Id W m)] in
      if same m obj then Some path2
      else match find path2 (TypeOf m) with
           | Some r => Some r
           | None => members_loop path ms'
           end
  end.

(** The loop over the variables of a tuple, from index [i] on. *)
Fixpoint vars_loop (path : list elem) (i : nat) (vs : list Object)
  : option (list elem) :=
  match vs with
  | [] => None
  | v :: vs' =>
      match find (path ++ [EInt (Z.of_nat i)]) (TypeOf v) with
      | Some r => Some r
      | None => vars_loop path (S i) vs'
      end
  end.
End loops.

(** The closure [find] of [pathOf]: the path to [obj] within [T], or
    [None] (a nil slice) if [obj] does not occur in [T]. *)
Fixpoint find (path : list elem) (T : Type_) {struct T}
  : option (list elem) :=
  match T with
  | Basic _ | Named _ => None
  | Pointer e => find path e
  | Slice e => find path e
  | Array _ e => find path e
  | Chan e => find path e
  | Map k e =>
      match find (path ++ [EStr opKey]) k with
      | Some r => Some r
      | None => find (path ++ [EStr opValue]) e
      end
  | Signature _ ps rs =>
      match find (path ++ [EStr opParams]) ps with
      | Some r => Some r
      | None => find (path ++ [EStr opResults]) rs
      end
  | Struct fields => members_loop (λ path2 T', find path2 T') path fields
  | Tuple vars => vars_loop (λ path2 T', find path2 T') path 0 vars
  | Interface methods => members_loop (λ path2 T', find path2 T') path methods
  end.

(** The loop over the declared methods of a package-level named type. *)
Definition declared_methods (path : list elem) (ms : list Object)
  : option (list elem) :=
  members_loop find path ms.

(** First pass: the package-level named types, in the order of
    [scope.Names()]; everything else is saved in [nontypes]. *)
Fixpoint named_pass (scope : gmap string Object) (names : list string)
    (nontypes : list Object) : res (list elem + list Object) :=
  match names with
  | [] => Ok (inr nontypes)
  | name :: names' =>
      match Lookup scope name with
      | None => Panic "nil pointer dereference"
      | Some o =>
          match TypeOf o with
          | Named ref =>
              let path := [EStr name] in
              match declared_methods path (Methods (named W ref)) with
              | Some r => Ok (inl r)
              | None =>
                  match find (path ++ [EStr opUnderlying])
                             (Underlying (named W ref)) with
                  | Some r => Ok (inl r)
                  | None => named_pass scope names' nontypes
                  end
              end
          | _ => named_pass scope names' (nontypes ++ [o])
          end
      end
  end.

(** Second pass: everything else. *)
Fixpoint nontypes_pass (nontypes : list Object) : res (list elem) :=
  match nontypes with
  | [] => Err ErrCantFind
  | o :: os =>
      match find [EStr (Name o)] (TypeOf o) with
      | Some r => Ok r
      | None => nontypes_pass os
      end
  end.

Definition search (scope : gmap string Object) : res (list elem) :=
  r ← named_pass scope (Names scope) [];
  match r with
  | inl path => Ok path
  | inr nontypes => nontypes_pass nontypes
  end.

Definition pathOf : res (list elem) :=
  match Pkg obj with
  | None => Err ErrUniversal
  | Some p =>
      let scope := Scope (package W p) in
      if match Lookup scope (Name obj) with
         | Some o => same o obj
         | None => false
         end
      then Ok [EStr (Name obj)]
      else
        match obj_kind obj with
        | Var =>
            if negb (IsField obj) then Err ErrNotField else search scope
        | Func =>
            if negb (has_Recv obj) then Err ErrNotMethod else search scope
        | _ => Err ErrNotPackageLevel
        end
  end.
End encoder.

(** [fmt.Fprint] of a path element. *)
Definition print_elem (x : elem) : string :=
  match x with
  | EStr s => s
  | EInt n => gostrings.Itoa n
  end.

Definition Of (W : World) (obj : Object) : res string :=
  path ← pathOf W obj;
  Ok (gostrings.Join (print_elem <$> path) ".").

(** The loop of [validIdent] over the runes of the name; [first] tells
    whether the rune is the first one ([i == 0]). *)
Fixpoint validRunes (first : bool) (s : string) : bool :=
  match s with
  | EmptyString => true
  | String r s' =>
      if negb (Ascii.eqb r "_"%char || gostrings.IsLetter r
               || negb first && gostrings.IsDigit r)
      then false else validRunes false s'
  end.

Definition validIdent (name : string) : bool :=
  validRunes true name && negb (String.eqb name "").

Definition is_op (word : string) : bool :=
  bool_decide (word ∈ [opKey; opValue; opParams; opResults; opUnderlying]).

Fixpoint parse_words (words : list string) : res (list elem) :=
  match words with
  | [] => Ok []
  | word :: words' =>
      match gostrings.Atoi word with
      | Some n => path ← parse_words words'; Ok (EInt n :: path)
      | None =>
          if is_op word then path ← parse_words words'; Ok (EStr word :: path)
          else if negb (validIdent word) then Err (ErrInvalidIdent word)
          else path ← parse_words words'; Ok (EStr word :: path)
      end
  end.

Definition parse (s : string) : res (list elem) :=
  parse_words (gostrings.Split_dot s).

(** The first method (or field) of [l] selected by [sel]. *)
Fixpoint first_with (sel : Object → bool) (l : list Object) : option Object :=
  match l with
  | [] => None
  | m :: l' => if sel m then Some m else first_with sel l'
  end.

(** The closure [find] of [FindObject]. *)
Fixpoint findObject (W : World) (path : list elem) : Type_ → res Object :=
  fix walk (T : Type_) : res Object :=
    match T with
    | Pointer e => walk e
    | Slice e => walk e
    | Array _ e => walk e
    | Chan e => walk e
    | Basic _ => Err ErrBasic
    | Map k e =>
        match path with
        | [] => Err (ErrBadPath "map")
        | x :: rest =>
            if decide (x = EStr opKey) then findObject W rest k
            else if decide (x = EStr opValue) then findObject W rest e
            else Err (ErrUnexpected "map" x)
        end
    | Named ref =>
        match path with
        | [] => Err (ErrBadPath "named")
        | EInt n :: _ => Err (ErrUnexpected "named" (EInt n))
        | EStr name :: rest =>
            if String.eqb name opUnderlying
            then findObject W rest (Underlying (named W ref))
            else
              match first_with (λ m, String.eqb (Name m) name)
                               (Methods (named W ref)) with
              | Some m =>
                  match rest with
                  | [] => Ok m
                  | _ => findObject W rest (TypeOf m)
                  end
              | None => Err (ErrNoMethod name)
              end
        end
    | Struct fields =>
        match path with
        | [] => Err (ErrBadPath "struct")
        | EInt n :: _ => Err (ErrUnexpected "struct" (EInt n))
        | EStr id :: rest =>
            match first_with (λ fld, String.eqb (Id W fld) id) fields with
            | Some fld =>
                match rest with
                | [] => Ok fld
                | _ => findObject W rest (TypeOf fld)
                end
            | None => Err (ErrNoField id)
            end
        end
    | Tuple vars =>
        match path with
        | [] => Err (ErrBadPath "tuple")
        | EStr s :: _ => Err (ErrUnexpected "tuple" (EStr s))
        | EInt index :: rest =>
            if index >=? Z.of_nat (length vars) then Err ErrIndexRange
            else if index <? 0 then Panic "index out of range"
            else
              match vars !! Z.to_nat index with
              | Some v => findObject W rest (TypeOf v)
              | None => Panic "index out of range"
              end
        end
    | Interface methods =>
        match path with
        | [] => Err (ErrBadPath "interface")
        | EInt n :: _ => Err (ErrUnexpected "interface" (EInt n))
        | EStr id :: rest =>
            match first_with (λ m, String.eqb (Id W m) id) methods with
            | Some m =>
                match rest with
                | [] => Ok m
                | _ => findObject W rest (TypeOf m)
                end
            | None => Err (ErrNoIfaceMethod id)
            end
        end
    | Signature _ ps rs =>
        match path with
        | [] => Err (ErrBadPath "func")
        | EInt n :: _ => Err (ErrUnexpected "func" (EInt n))
        | EStr name :: rest =>
            if String.eqb name opParams then findObject W rest ps
            else if String.eqb name opResults then findObject W rest rs
            else Err (ErrUnexpected "signature" (EStr name))
        end
    end.

Definition FindObject (W : World) (pkg : nat) (p : string) : res Object :=
  path ← parse p;
  match path with
  | [] => Err ErrEmptyPath
  | EInt _ :: _ => Panic "interface conversion: interface {} is int, not string"
  | EStr name :: rest =>
      match Lookup (Scope (package W pkg)) name with
      | None => Err (ErrNotDefined name)
      | Some obj =>
          match rest with
          | [] => Ok obj
          | _ => findObject W rest (TypeOf obj)
          end
      end
  end.

End objectpath.

(** ** Package analysis: the declarations the drivers use *)

Module analysis.

(** A [reflect.Type]: its identity and what [String()] prints. *)
Record rtype := { rt_id : nat; rt_String : string }.

#[global] Instance rtype_eq_dec : EqDecision rtype.
Proof. solve_decision. Defined.
#[global] Instance rtype_countable : Countable rtype.
Proof.
  apply (inj_countable' (λ t, (rt_id t, rt_String t))
                        (λ p, {| rt_id := p.1; rt_String := p.2 |})).
  by intros [].
Defined.

(** A fact value: a pointer to a value of a declared fact type.
    [lemma_type] is [reflect.TypeOf] of it. *)
Record Lemma := { lemma_type : rtype; lemma_value : string }.

#[global] Instance Lemma_eq_dec : EqDecision Lemma.
Proof. solve_decision. Defined.

(** An artifact ([unit.Output]). *)
Record Value := { value_type : rtype; value_data : string }.

Record Finding := { Pos : nat; Category : string; Message : string }.

(** What an analysis does with the fact setters of its unit. *)
Inductive call :=
  | SetObjectLemma (obj : types.Object) (lemma : Lemma)
  | SetPackageLemma (lemma : Lemma).

(** What [Run] can read from its unit: the package, the outputs of the
    required analyses (keyed by analysis) and the inherited facts. *)
Record UnitView := {
  view_Pkg : nat;
  view_Inputs : gmap nat (option Value);
  view_objLemmas : list (gmap nat (types.Object * Lemma));
  view_pkgLemmas : list (gmap nat Lemma);
}.

(** What one invocation of [Run] does: the setter calls it makes, in
    order, the findings it reports, the output it stores and the error
    it returns. *)
Record RunResult := {
  run_calls : list call;
  run_Findings : list Finding;
  run_Output : option Value;
  run_err : option string;
}.

(** Modelled from the spec: the declaration of the analysis descriptor
    (type [analysis.Analysis]), which is not among the sources: a unique
    name, the declared artifact type, the ordered list of predecessor
    analyses, the declared fact types, the run-despite-errors flag and
    the run callback.  [addr] is the address of the descriptor. *)
#[warnings="-register-all"]
Inductive Analysis :=
  | mkAnalysis (addr : nat) (Name : string) (Requires : list Analysis)
               (LemmaTypes : list rtype) (OutputType : option rtype)
               (RunDespiteErrors : bool) (Run : UnitView → RunResult).

Definition addr (a : Analysis) := let 'mkAnalysis x _ _ _ _ _ _ := a in x.
Definition Name (a : Analysis) := let 'mkAnalysis _ x _ _ _ _ _ := a in x.
Definition Requires (a : Analysis) := let 'mkAnalysis _ _ x _ _ _ _ := a in x.
Definition LemmaTypes (a : Analysis) := let 'mkAnalysis _ _ _ x _ _ _ := a in x.
Definition OutputType (a : Analysis) := let 'mkAnalysis _ _ _ _ x _ _ := a in x.
Definition RunDespiteErrors (a : Analysis) := let 'mkAnalysis _ _ _ _ _ x _ := a in x.
Definition Run (a : Analysis) := let 'mkAnalysis _ _ _ _ _ _ x := a in x.

(** [a.String()]. *)
Definition String_ (a : Analysis) : string := Name a.

(** Modelled from the spec: the declaration of the unit handed to [Run]
    (type [analysis.Unit]), which is not among the sources.  The two
    setter fields hold a function or nil; [true] stands for non-nil. *)
Record Unit := {
  unit_Analysis : Analysis;
  unit_Pkg : nat;
  unit_Inputs : gmap nat (option Value);
  unit_Output : option Value;
  unit_Findings : list Finding;
  unit_SetObjectLemma : bool;
  unit_SetPackageLemma : bool;
}.

(** [reflect.ValueOf(ptr).Elem().Set(reflect.ValueOf(v).Elem())]: the
    fact [v] is copied to [*ptr], which holds it afterwards; [Set]
    panics unless the two values have the same type. *)
Definition set_ptr (ptr v : Lemma) : outcome string Lemma :=
  if decide (lemma_type v = lemma_type ptr) then Ok v
  else Panic "reflect.Set: value is not assignable".

(** The number of nodes of the tree of an analysis and the analyses it
    requires. *)
Fixpoint size (a : Analysis) : nat :=
  S (sum_list ((λ req, size req) <$> Requires a)).

End analysis.

(** ** Package packages: the loader's package handle *)

Module packages.

(** A [*packages.Package]: [Types] is the address of its
    [*types.Package], [Imports] maps import paths to packages. *)
#[warnings="-register-all"]
Inductive Package :=
  | mkPackage (addr : nat) (ID : string) (Types : nat)
              (Imports : gmap string Package) (IllTyped : bool).

Definition addr (p : Package) := let 'mkPackage x _ _ _ _ := p in x.
Definition ID (p : Package) := let 'mkPackage _ x _ _ _ := p in x.
Definition Types (p : Package) := let 'mkPackage _ _ x _ _ := p in x.
Definition Imports (p : Package) := let 'mkPackage _ _ _ x _ := p in x.
Definition IllTyped (p : Package) := let 'mkPackage _ _ _ _ x := p in x.

(** [p.String()]. *)
Definition String_ (p : Package) : string := ID p.

End packages.

(** ** Package checker *)

Module checker.
Import types.
Import analysis (rtype, Lemma, Value, Analysis, Unit, lemma_type).

(** One unit of analysis work.  The action graph is a DAG of shared
    nodes; it is modelled by its unfolding, every node carrying its
    dependencies.  [act_once] is the state of [sync.Once]; [act_runs]
    is a ghost counter of the invocations of [Run] on this node. *)
#[warnings="-register-all"]
Inductive action := Action {
  act_once : bool;
  act_a : Analysis;
  act_pkg : packages.Package;
  act_unit : option Unit;
  act_isroot : bool;
  act_deps : list action;
  act_objLemmas : list (gmap nat (Object * Lemma));
  act_pkgLemmas : list (gmap nat Lemma);
  act_inputs : gmap nat (option Value);
  act_err : option string;
  act_runs : nat;
}.

Definition with_once (act : action) (b : bool) : action :=
  let 'Action _ a p u r d ol pl i e n := act in Action b a p u r d ol pl i e n.
Definition with_unit (act : action) (u : option Unit) : action :=
  let 'Action o a p _ r d ol pl i e n := act in Action o a p u r d ol pl i e n.
Definition with_deps (act : action) (d : list action) : action :=
  let 'Action o a p u r _ ol pl i e n := act in Action o a p u r d ol pl i e n.
Definition with_objLemmas (act : action) ol : action :=
  let 'Action o a p u r d _ pl i e n := act in Action o a p u r d ol pl i e n.
Definition with_pkgLemmas (act : action) pl : action :=
  let 'Action o a p u r d ol _ i e n := act in Action o a p u r d ol pl i e n.
Definition with_inputs (act : action) i : action :=
  let 'Action o a p u r d ol pl _ e n := act in Action o a p u r d ol pl i e n.
Definition with_err (act : action) (e : option string) : action :=
  let 'Action o a p u r d ol pl i _ n := act in Action o a p u r d ol pl i e n.
Definition with_runs (act : action) (n : nat) : action :=
  let 'Action o a p u r d ol pl i e _ := act in Action o a p u r d ol pl i e n.

(** [act.String()]. *)
Definition String_ (act : action) : string :=
  analysis.String_ (act_a act) +:+ "@" +:+ packages.String_ (act_pkg act).

(** *** The action graph *)

(** [mkAction] of [analyze].  The table [actions] memoizes the nodes by
    (analysis, package), so that the graph shares them; in the unfolding
    the node of an import is the value [mkAction a imp], found under its
    import path as [pkg.Imports[path]] is. *)
Fixpoint mkAction (a : Analysis) : packages.Package → action :=
  fix mkAction_pkg (pkg : packages.Package) : action :=
    let deps_req := (λ req, mkAction req pkg) <$> analysis.Requires a in
    let deps_imp :=
      if bool_decide (0 < length (analysis.LemmaTypes a))%nat then
        let paths :=
          gostrings.sort_Strings ((map_to_list (packages.Imports pkg)).*1) in
        let node := mkAction_pkg <$> packages.Imports pkg in
        omap (λ path, node !! path) paths
      else [] in
    {| act_once := false; act_a := a; act_pkg := pkg; act_unit := None;
       act_isroot := false; act_deps := deps_req ++ deps_imp;
       act_objLemmas := []; act_pkgLemmas := []; act_inputs := ∅;
       act_err := None; act_runs := 0%nat |}.

(** *** Facts *)

Definition exportedFrom (obj : Object) (pkg : nat) : bool :=
  match obj_kind obj with
  | Func => Exported obj && bool_decide (Pkg obj = Some pkg) || has_Recv obj
  | Var => Exported obj && bool_decide (Pkg obj = Some pkg) || IsField obj
  | TypeName | Const => true
  | _ => false
  end.

Definition lemmaIndex (a : Analysis) (lemma : Lemma) : outcome string nat :=
  match list_find (λ lt, lt = lemma_type lemma) (analysis.LemmaTypes a) with
  | Some (i, _) => Ok i
  | None => Panic "internal error: type is not a Lemma type of analysis"
  end.

(** [s[i]] on a slice. *)
Definition index {A} (s : list A) (i : nat) : outcome string A :=
  match s !! i with
  | Some x => Ok x
  | None => Panic "index out of range"
  end.

(** Code that reads and writes the fields of an action and may panic;
    a panic leaves the action as it was when the panic was raised. *)
Definition M (A : Type) : Type := action → outcome string A * action.

#[global] Instance M_ret : MRet M := λ A a act, (Ok a, act).
#[global] Instance M_bind : MBind M := λ A B k m act,
  match m act with
  | (Ok a, act') => k a act'
  | (Err e, act') => (Err e, act')
  | (Panic msg, act') => (Panic msg, act')
  end.
Definition get : M action := λ act, (Ok act, act).
Definition put (act : action) : M () := λ _, (Ok (), act).
Definition lift {A} (r : outcome string A) : M A := λ act, (r, act).
Definition Panicf {A} (msg : string) : M A := lift (Panic msg).
Definition when (b : bool) (m : M ()) : M () := if b then m else mret ().

(** [act.unit], dereferenced. *)
Definition the_unit : M Unit :=
  act ← get;
  match act_unit act with
  | Some u => mret u
  | None => Panicf "nil pointer dereference"
  end.

Definition setObjLemma (obj : Object) (lemma : Lemma) : M () :=
  u ← the_unit;
  when (negb (analysis.unit_SetObjectLemma u))
       (Panicf "Unit.SetObjectLemma called after Run");;
  act ← get;
  when (negb (bool_decide (Pkg obj = Some (packages.Types (act_pkg act)))))
       (Panicf "internal error: can't set lemmas on objects belonging another package");;
  i ← lift (lemmaIndex (act_a act) lemma);
  m ← lift (index (act_objLemmas act) i);
  act ← get;
  put (with_objLemmas act
         (<[i := <[obj_addr obj := (obj, lemma)]> m]> (act_objLemmas act))).

Definition setPkgLemma (lemma : Lemma) : M () :=
  u ← the_unit;
  when (negb (analysis.unit_SetPackageLemma u))
       (Panicf "Unit.SetPackageLemma called after Run");;
  act ← get;
  i ← lift (lemmaIndex (act_a act) lemma);
  m ← lift (index (act_pkgLemmas act) i);
  u ← the_unit;
  act ← get;
  put (with_pkgLemmas act
         (<[i := <[analysis.unit_Pkg u := lemma]> m]> (act_pkgLemmas act))).

(** A call of [unit.SetObjectLemma] or [unit.SetPackageLemma], which
    [execOnce] has bound to the two methods above. *)
Definition call_setter (c : analysis.call) : M () :=
  match c with
  | analysis.SetObjectLemma obj lemma => setObjLemma obj lemma
  | analysis.SetPackageLemma lemma => setPkgLemma lemma
  end.

(** The setter calls of one run, in order. *)
Fixpoint run_calls (calls : list analysis.call) : M () :=
  match calls with
  | [] => mret ()
  | c :: calls' => call_setter c;; run_calls calls'
  end.

(** *** Reading facts *)

(** [act.objLemma(obj, ptr)]: [Some] of what [*ptr] holds afterwards
    when the method returns [true], [None] when it returns [false].
    The object is [None] for a nil interface. *)
Definition objLemma (act : action) (obj : option Object) (ptr : Lemma)
  : outcome string (option Lemma) :=
  match obj with
  | None => Panic "nil object"
  | Some obj =>
      i ← lemmaIndex (act_a act) ptr;
      m ← index (act_objLemmas act) i;
      match m !! obj_addr obj with
      | Some (_, v) => Some <$> analysis.set_ptr ptr v
      | None => Ok None
      end
  end.

(** [act.pkgLemma(pkg, ptr)], likewise. *)
Definition pkgLemma (act : action) (pkg : option nat) (ptr : Lemma)
  : outcome string (option Lemma) :=
  match pkg with
  | None => Panic "nil package"
  | Some pkg =>
      i ← lemmaIndex (act_a act) ptr;
      m ← index (act_pkgLemmas act) i;
      match m !! pkg with
      | Some v => Some <$> analysis.set_ptr ptr v
      | None => Ok None
      end
  end.

Section executor.
(** The flag variable [Debug], and what encoding a fact with gob and
    decoding it again gives ([None]: an error). *)
Context (Debug : string) (gob : Lemma → option Lemma).

Definition dbg (b : ascii) : bool := gostrings.ContainsByte Debug b.

Definition codeLemma (lemma : Lemma) : outcome string Lemma :=
  match gob lemma with
  | Some new => Ok new
  | None => Err "gob"
  end.

(** The optional round trip of [inheritLemmas]. *)
Definition serialized (lemma : Lemma) : outcome string Lemma :=
  if dbg "s" then
    match codeLemma lemma with
    | Ok new => Ok new
    | _ => Panic "internal error: encoding of lemma failed"
    end
  else Ok lemma.

(** The body of the loop over [dep.objLemmas[i]]. *)
Definition inherit_obj (dep : action) (i : nat) (act : action)
    (entry : nat * (Object * Lemma)) : outcome string action :=
  let '(_, (obj, lemma)) := entry in
  if negb (exportedFrom obj (packages.Types (act_pkg dep))) then Ok act
  else
    lemma ← serialized lemma;
    m ← index (act_objLemmas act) i;
    Ok (with_objLemmas act
          (<[i := <[obj_addr obj := (obj, lemma)]> m]> (act_objLemmas act))).

(** The body of the loop over [dep.pkgLemmas[i]]. *)
Definition inherit_pkg (i : nat) (act : action) (entry : nat * Lemma)
  : outcome string action :=
  let '(pkg, lemma) := entry in
  lemma ← serialized lemma;
  m ← index (act_pkgLemmas act) i;
  Ok (with_pkgLemmas act (<[i := <[pkg := lemma]> m]> (act_pkgLemmas act))).

Definition inherit_index (dep : action) (act : action) (i : nat)
  : outcome string action :=
  objs ← index (act_objLemmas dep) i;
  act ← foldM (inherit_obj dep i) act (map_to_list objs);
  pkgs ← index (act_pkgLemmas dep) i;
  foldM (inherit_pkg i) act (map_to_list pkgs).

(** [inheritLemmas(act, dep)].  The maps are visited in the order of
    [map_to_list]; the entries have distinct keys, so the facts stored
    do not depend on that order. *)
Definition inheritLemmas (act dep : action) : outcome string action :=
  foldM (inherit_index dep) act
        (seq 0 (length (analysis.LemmaTypes (act_a dep)))).

(** The names of the failed dependencies, in the order of [act.deps]. *)
Definition failed_deps (deps : list action) : list string :=
  omap (λ dep, match act_err dep with
               | Some _ => Some (String_ dep)
               | None => None
               end) deps.

(** The loop of [execOnce] that plumbs outputs and facts of the
    dependencies into the action. *)
Definition plumb (st : gmap nat (option Value) * action) (dep : action)
  : outcome string (gmap nat (option Value) * action) :=
  let '(inputs, act) := st in
  if bool_decide (packages.addr (act_pkg dep) = packages.addr (act_pkg act))
  then
    match act_unit dep with
    | Some u =>
        Ok (<[analysis.addr (act_a dep) := analysis.unit_Output u]> inputs,
            act)
    | None => Panic "nil pointer dereference"
    end
  else if bool_decide (analysis.addr (act_a dep) = analysis.addr (act_a act))
  then act' ← inheritLemmas act dep; Ok (inputs, act')
  else Ok (inputs, act).

(** [reflect.TypeOf(unit.Output)]. *)
Definition output_type (v : option Value) : option rtype :=
  analysis.value_type <$> v.

(** [unit.Analysis.Run(unit)] and the check of its output. *)
Definition run_analysis (inputs : gmap nat (option Value)) (u : Unit)
    (act : action) : outcome string (option string * Unit * action) :=
  let view := {| analysis.view_Pkg := analysis.unit_Pkg u;
                 analysis.view_Inputs := inputs;
                 analysis.view_objLemmas := act_objLemmas act;
                 analysis.view_pkgLemmas := act_pkgLemmas act |} in
  let r := analysis.Run (act_a act) view in
  let act := with_runs act (S (act_runs act)) in
  match run_calls (analysis.run_calls r) act with
  | (Ok _, act) =>
      let u := {| analysis.unit_Analysis := analysis.unit_Analysis u;
                  analysis.unit_Pkg := analysis.unit_Pkg u;
                  analysis.unit_Inputs := analysis.unit_Inputs u;
                  analysis.unit_Output := analysis.run_Output r;
                  analysis.unit_Findings := analysis.run_Findings r;
                  analysis.unit_SetObjectLemma := analysis.unit_SetObjectLemma u;
                  analysis.unit_SetPackageLemma := analysis.unit_SetPackageLemma u |} in
      let err :=
        match analysis.run_err r with
        | Some e => Some e
        | None =>
            if bool_decide (output_type (analysis.run_Output r)
                            = analysis.OutputType (act_a act))
            then None
            else Some "internal error: analysis produced Output of undeclared type"
        end in
      Ok (err, u, with_unit act (Some u))
  | (Err e, _) => Err e
  | (Panic msg, _) => Panic msg
  end.

(** [execOnce], from the point where [execAll(act.deps)] has returned. *)
Definition execOnce_after_deps (act : action) : outcome string action :=
  let failed := failed_deps (act_deps act) in
  if bool_decide (failed ≠ []) then
    Ok (with_err act
          (Some ("failed prerequisites: "
                 +:+ gostrings.Join (gostrings.sort_Strings failed) ", ")))
  else
    let n := length (analysis.LemmaTypes (act_a act)) in
    let act := with_pkgLemmas (with_objLemmas act (replicate n ∅))
                              (replicate n ∅) in
    '(inputs, act) ← foldM plumb (∅, act) (act_deps act);
    let u := {| analysis.unit_Analysis := act_a act;
                analysis.unit_Pkg := packages.Types (act_pkg act);
                analysis.unit_Inputs := inputs;
                analysis.unit_Output := None;
                analysis.unit_Findings := [];
                analysis.unit_SetObjectLemma := true;
                analysis.unit_SetPackageLemma := true |} in
    let act := with_unit act (Some u) in
    '(err, u, act) ←
      (if packages.IllTyped (act_pkg act)
          && negb (analysis.RunDespiteErrors (act_a act))
       then Ok (Some "analysis skipped due to errors in package", u, act)
       else run_analysis inputs u act);
    let act := with_err act err in
    let u := {| analysis.unit_Analysis := analysis.unit_Analysis u;
                analysis.unit_Pkg := analysis.unit_Pkg u;
                analysis.unit_Inputs := analysis.unit_Inputs u;
                analysis.unit_Output := analysis.unit_Output u;
                analysis.unit_Findings := analysis.unit_Findings u;
                analysis.unit_SetObjectLemma := false;
                analysis.unit_SetPackageLemma := false |} in
    Ok (with_unit act (Some u)).

(** [act.exec()]: [sync.Once] runs [execOnce] the first time only.
    [execOnce] first executes the dependencies ([execAll], here one
    after the other as with the debug flag [p]). *)
Fixpoint exec (act : action) : outcome string action :=
  if act_once act then Ok act
  else
    deps ← (fix execAll_deps (l : list action) : outcome string (list action) :=
              match l with
              | [] => Ok []
              | d :: l' => d' ← exec d; l'' ← execAll_deps l'; Ok (d' :: l'')
              end) (act_deps act);
    execOnce_after_deps (with_deps (with_once act true) deps).

Fixpoint execAll (actions : list action) : outcome string (list action) :=
  match actions with
  | [] => Ok []
  | d :: l' => d' ← exec d; l'' ← execAll l'; Ok (d' :: l'')
  end.

Definition execOnce (act : action) : outcome string action :=
  deps ← execAll (act_deps act);
  execOnce_after_deps (with_deps act deps).

End executor.

(** *** Whether facts are needed *)

(** The loop of [needLemmas] over the queue [q], with the set [seen] of
    the analyses (their addresses) met so far.  The loop runs once per
    element taken from the queue; [fuel] bounds the number of runs, and
    [None] says that the bound was reached. *)
Fixpoint needLemmas_loop (fuel : nat) (seen : gset nat) (q : list Analysis)
  : option bool :=
  match q with
  | [] => Some false
  | a :: q =>
      match fuel with
      | O => None
      | S fuel =>
          if bool_decide (analysis.addr a ∈ seen)
          then needLemmas_loop fuel seen q
          else if bool_decide (0 < length (analysis.LemmaTypes a))%nat
               then Some true
               else needLemmas_loop fuel ({[analysis.addr a]} ∪ seen)
                                    (q ++ analysis.Requires a)
      end
  end.

(** [needLemmas(analyses)].  Every run of the loop takes one node of the
    trees in the queue away, so the number of their nodes bounds the
    number of runs. *)
Definition needLemmas (analyses : list Analysis) : option bool :=
  needLemmas_loop (sum_list (analysis.size <$> analyses)) ∅ analyses.

End checker.

(** ** Package sort *)

Module gosort.

Section insertion.
Context {A : Type} (less : A → A → bool).

(** One pass of the inner loop of [insertionSort]: [x] moves towards
    the front while it is less than its left neighbour.  [before] is
    the sorted prefix, nearest neighbour first. *)
Fixpoint sift (x : A) (before : list A) : list A :=
  match before with
  | [] => [x]
  | y :: before' =>
      if less x y then y :: sift x before' else x :: y :: before'
  end.

(** [sort.Slice(data, less)], by the insertion sort that package sort
    runs on short slices.  The sort is not stable in general; nothing
    below relies on more than that it arranges the elements of [data]
    so that no element is less than an earlier one. *)
Definition Slice (data : list A) : list A :=
  reverse (foldl (λ before x, sift x before) [] data).
End insertion.

End gosort.

(** ** The compile-protocol driver (command doctor) *)

Module doctor.
Import types.
Import analysis (rtype, Lemma, Analysis, lemma_type).

(** The Gob declaration of a serialized fact. *)
Record gobLemma := {
  Object : string;       (* path of object (object facts only) *)
  PkgPath : string;      (* path of package (package facts only) *)
  Lemma_ : Lemma;        (* type and value of the fact *)
}.

#[global] Instance gobLemma_eq_dec : EqDecision gobLemma.
Proof. solve_decision. Defined.

Record lemmaKey := {
  obj : option types.Object;   (* object facts only *)
  pkgpath : string;            (* package facts only *)
  t : rtype;
}.

(** Two keys are the same map key when they hold the same object
    pointer, the same package path and the same type. *)
Definition key_id (k : lemmaKey) : option nat * string * rtype :=
  (obj_addr <$> obj k, pkgpath k, t k).

Record lemmaSet := {
  pkg : nat;
  m : gmap (option nat * string * rtype) (lemmaKey * Lemma);
}.

(** [ls.m[key] = lemma]. *)
Definition store (ls : lemmaSet) (key : lemmaKey) (lemma : Lemma) : lemmaSet :=
  {| pkg := pkg ls; m := <[key_id key := (key, lemma)]> (m ls) |}.

Definition setObj (ls : lemmaSet) (o : types.Object) (lemma : Lemma)
  : outcome string lemmaSet :=
  if negb (bool_decide (Pkg o = Some (pkg ls)))
  then Panic "can't set lemma on object belonging another package"
  else Ok (store ls {| obj := Some o; pkgpath := ""; t := lemma_type lemma |}
                 lemma).

Definition setPkg (W : World) (ls : lemmaSet) (lemma : Lemma) : lemmaSet :=
  store ls {| obj := None; pkgpath := Path (package W (pkg ls));
              t := lemma_type lemma |} lemma.

Definition checkLemma (a : Analysis) (lemma : Lemma) : outcome string () :=
  if bool_decide (lemma_type lemma ∈ analysis.LemmaTypes a) then Ok ()
  else Panic "internal error: type is not a Lemma type of analysis".

(** [unit.SetObjectLemma] and [unit.SetPackageLemma] as [main] wires
    them for analysis [a]. *)
Definition unit_set (W : World) (a : Analysis) (c : analysis.call)
    (ls : lemmaSet) : outcome string lemmaSet :=
  match c with
  | analysis.SetObjectLemma o lemma =>
      checkLemma a lemma;; setObj ls o lemma
  | analysis.SetPackageLemma lemma =>
      checkLemma a lemma;; Ok (setPkg W ls lemma)
  end.

(** [ls.getObj(obj, ptr)]: [Some] of what [*ptr] holds afterwards when
    the method returns [true], [None] when it returns [false].  The
    object is [None] for a nil interface. *)
Definition getObj (ls : lemmaSet) (o : option types.Object) (ptr : Lemma)
  : outcome string (option Lemma) :=
  match o with
  | None => Panic "nil object"
  | Some o =>
      let key := {| obj := Some o; pkgpath := ""; t := lemma_type ptr |} in
      match m ls !! key_id key with
      | Some (_, v) => Some <$> analysis.set_ptr ptr v
      | None => Ok None
      end
  end.

(** [ls.getPkg(pkg, ptr)], likewise; the key holds the path of the
    package. *)
Definition getPkg (W : World) (ls : lemmaSet) (p : option nat) (ptr : Lemma)
  : outcome string (option Lemma) :=
  match p with
  | None => Panic "nil package"
  | Some p =>
      let key := {| obj := None; pkgpath := Path (package W p);
                    t := lemma_type ptr |} in
      match m ls !! key_id key with
      | Some (_, v) => Some <$> analysis.set_ptr ptr v
      | None => Ok None
      end
  end.

Section files.
(** The type-checked program, [ioutil.ReadFile] ([None]: an error) and
    the gob decoder of fact files ([None]: an error). *)
Context (W : World).
Context (ReadFile : string → option string).
Context (gob_decode : string → option (list gobLemma)).

(** The body of the loop over the records of one fact file. *)
Definition read_record (imp : nat)
    (m : gmap (option nat * string * rtype) (lemmaKey * Lemma))
    (l : gobLemma)
  : outcome string (gmap (option nat * string * rtype) (lemmaKey * Lemma)) :=
  let ty := lemma_type (Lemma_ l) in
  if negb (String.eqb (PkgPath l) "") then
    let key := {| obj := None; pkgpath := PkgPath l; t := ty |} in
    Ok (<[key_id key := (key, Lemma_ l)]> m)
  else
    match objectpath.FindObject W imp (Object l) with
    | Err _ => Ok m
    | Panic msg => Panic msg
    | Ok o =>
        let key := {| obj := Some o; pkgpath := ""; t := ty |} in
        Ok (<[key_id key := (key, Lemma_ l)]> m)
    end.

(** The body of the loop over the imports.  [log.Fatalf] ends the
    program: it is the error outcome. *)
Definition read_import (inputFiles : gmap string string)
    (m : gmap (option nat * string * rtype) (lemmaKey * Lemma))
    (imp : nat)
  : outcome string (gmap (option nat * string * rtype) (lemmaKey * Lemma)) :=
  match inputFiles !! Path (package W imp) with
  | None => Ok m
  | Some filename =>
      match ReadFile filename with
      | None => Err "reading vetx file"
      | Some data =>
          match gob_decode data with
          | None => Err "decoding vetx file"
          | Some lemmas => foldM (read_record imp) m lemmas
          end
      end
  end.

Definition readLemmas (inputFiles : gmap string string) (pkg_ : nat)
  : outcome string lemmaSet :=
  m ← foldM (read_import inputFiles) ∅ (Imports (package W pkg_));
  Ok {| pkg := pkg_; m := m |}.

(** The body of the loop of [writeLemmas] that gathers the records. *)
Definition gather (gobLemmas : list gobLemma) (entry : lemmaKey * Lemma)
  : outcome string (list gobLemma) :=
  let '(k, lemma) := entry in
  match obj k with
  | Some o =>
      match objectpath.Of W o with
      | Err _ => Ok gobLemmas
      | Panic msg => Panic msg
      | Ok path =>
          Ok (gobLemmas ++ [{| Object := path; PkgPath := ""; Lemma_ := lemma |}])
      end
  | None =>
      Ok (gobLemmas ++ [{| Object := ""; PkgPath := pkgpath k; Lemma_ := lemma |}])
  end.

(** The comparison that [writeLemmas] hands to [sort.Slice]. *)
Definition less (x y : gobLemma) : bool :=
  if negb (String.eqb (Object x) (Object y))
  then String.ltb (Object x) (Object y)
  else
    let tx := lemma_type (Lemma_ x) in
    let ty := lemma_type (Lemma_ y) in
    if negb (bool_decide (tx = ty))
    then String.ltb (analysis.rt_String tx) (analysis.rt_String ty)
    else false.

(** [writeLemmas]: the slice handed to the gob encoder, whose bytes
    are the fact file.  [visit] is the order in which [range] visits
    the entries of [ls.m]. *)
Definition writeLemmas (visit : list (lemmaKey * Lemma))
  : outcome string (list gobLemma) :=
  gobLemmas ← foldM gather [] visit;
  Ok (gosort.Slice less gobLemmas).

(** [visit] is an order in which [range ls.m] may visit the map. *)
Definition visits (ls : lemmaSet) (visit : list (lemmaKey * Lemma)) : Prop :=
  visit ≡ₚ (map_to_list (m ls)).*2.

(** The fact setters called by the analyses of one run of [main], each
    with the analysis that calls it. *)
Definition run_analyses (calls : list (Analysis * analysis.call))
    (ls : lemmaSet) : outcome string lemmaSet :=
  foldM (λ ls c, unit_set W c.1 c.2 ls) ls calls.

(** [main], from [readLemmas] to [writeLemmas]: the facts of the
    imports are read, the analyses run and call the setters [calls],
    and the store is written, visited in some order.  [out] is a
    slice that [main] may hand to the gob encoder. *)
Definition main_writes (inputFiles : gmap string string) (pkg_ : nat)
    (calls : list (Analysis * analysis.call)) (out : list gobLemma)
  : Prop :=
  ∃ lemmas lemmas' visit,
    readLemmas inputFiles pkg_ = Ok lemmas
    ∧ run_analyses calls lemmas = Ok lemmas'
    ∧ visits lemmas' visit
    ∧ writeLemmas visit = Ok out.

End files.

(** The closure [registerLemmas] of [main].  The table [actions] holds,
    by the address of an analysis, the field [usesLemmas] of its entry. *)
Fixpoint registerLemmas (a : Analysis) (actions : gmap nat bool)
  : bool * gmap nat bool :=
  match actions !! analysis.addr a with
  | Some usesLemmas => (usesLemmas, actions)
  | None =>
      let usesLemmas := bool_decide (0 < length (analysis.LemmaTypes a))%nat in
      let st :=
        foldl (λ (st : bool * gmap nat bool) req,
                 let r := registerLemmas req st.2 in
                 (if r.1 then true else st.1, r.2))
              (usesLemmas, actions) (analysis.Requires a) in
      (st.1, <[analysis.addr a := st.1]> st.2)
  end.

(** The loop of [main] that keeps the analyses to run: in [VetxOnly]
    mode only those that use facts. *)
Definition filtered (VetxOnly : bool) (analyses : list Analysis)
  : list Analysis :=
  (foldl (λ (st : list Analysis * gmap nat bool) a,
            let r := registerLemmas a st.2 in
            (if r.1 || negb VetxOnly then st.1 ++ [a] else st.1, r.2))
         ([], ∅) analyses).1.

End doctor.

(** ** Notions used to state the properties *)

Module spec.
Import types objectpath.

(** The test that opens [pathOf]: the package scope holds [obj] itself
    under the name of [obj]. *)
Definition at_package_scope (W : World) (obj : Object) : Prop :=
  ∃ p o, Pkg obj = Some p
         ∧ Lookup (Scope (package W p)) (Name obj) = Some o
         ∧ same o obj = true.

(** The objects that the specification calls not addressable. *)
Inductive not_addressable (W : World) (obj : Object) : Prop :=
  | universe_entity :
      Pkg obj = None → not_addressable W obj
  | package_name :
      obj_kind obj = PkgName → ¬ at_package_scope W obj →
      not_addressable W obj
  | block_scoped :
      obj_kind obj ∈ [Label; Const; TypeName] → ¬ at_package_scope W obj →
      not_addressable W obj
  | local_variable :
      obj_kind obj = Var → IsField obj = false → ¬ at_package_scope W obj →
      not_addressable W obj
  | local_function :
      obj_kind obj = Func → has_Recv obj = false → ¬ at_package_scope W obj →
      not_addressable W obj.

(** The object fact of index [i] stored in [act] for the object at
    address [addr]. *)
Definition obj_fact (act : checker.action) (i addr : nat)
  : option (Object * analysis.Lemma) :=
  checker.act_objLemmas act !! i ≫= λ m, m !! addr.

(** Every object fact of [act] is stored under the address of its
    object, as in a Go map keyed by object pointers. *)
Definition keyed_by_address (act : checker.action) : Prop :=
  Forall (map_Forall (λ addr (f : Object * analysis.Lemma),
                        obj_addr f.1 = addr))
         (checker.act_objLemmas act).

(** The visibility of an object across the boundary of package [pkg],
    in the words of the specification, with the owner made explicit:
    an exported function or variable owned by [pkg]; a method; a field;
    a type name or a named constant. *)
Definition visible_across (o : Object) (pkg : nat) : Prop :=
  (obj_kind o = Func ∧ Exported o = true ∧ Pkg o = Some pkg)
  ∨ (obj_kind o = Var ∧ Exported o = true ∧ Pkg o = Some pkg)
  ∨ (obj_kind o = Func ∧ has_Recv o = true)
  ∨ (obj_kind o = Var ∧ IsField o = true)
  ∨ obj_kind o = TypeName
  ∨ obj_kind o = Const.

(** What the loop body [inherit_obj] for index [i] and the entry
    [(o, lemma)] of the dependency makes of the fact stored for index
    [j] and address [addr]. *)
Definition inherit_upd (Debug : string)
    (gob : analysis.Lemma → option analysis.Lemma)
    (dep : checker.action) (i : nat)
    (e : nat * (Object * analysis.Lemma)) (k : nat * nat)
    (old : option (Object * analysis.Lemma))
  : option (Object * analysis.Lemma) :=
  if checker.exportedFrom e.2.1 (packages.Types (checker.act_pkg dep))
     && bool_decide (k.1 = i) && bool_decide (k.2 = obj_addr e.2.1)
  then match checker.serialized Debug gob e.2.2 with
       | Ok new => Some (e.2.1, new)
       | _ => old
       end
  else old.

(** The record that an entry of the fact store contributes to the fact
    file, in the words of the specification: none when the entry is a
    fact on an object whose path cannot be produced, and otherwise the
    record of its object path, or package path, and its fact. *)
Definition surviving_record (W : World)
    (entry : doctor.lemmaKey * analysis.Lemma) : option doctor.gobLemma :=
  match doctor.obj entry.1 with
  | Some o =>
      match Of W o with
      | Ok path => Some {| doctor.Object := path; doctor.PkgPath := "";
                           doctor.Lemma_ := entry.2 |}
      | _ => None
      end
  | None => Some {| doctor.Object := ""; doctor.PkgPath := doctor.pkgpath entry.1;
                    doctor.Lemma_ := entry.2 |}
  end.

(** The record [l] stands in the fact file of the direct import [imp]
    of package [pkg], as [readLemmas] finds and decodes it. *)
Definition read_from_import (W : World)
    (ReadFile : string → option string)
    (gob_decode : string → option (list doctor.gobLemma))
    (inputFiles : gmap string string) (pkg imp : nat)
    (l : doctor.gobLemma) : Prop :=
  imp ∈ Imports (package W pkg)
  ∧ ∃ filename data lemmas,
      inputFiles !! Path (package W imp) = Some filename
      ∧ ReadFile filename = Some data
      ∧ gob_decode data = Some lemmas
      ∧ l ∈ lemmas.

(** The map key under which [readLemmas] stores the record [l] of the
    fact file of [imp], if the record survives reading: the package
    path, or the address of the object that the path resolves to. *)
Definition record_id (W : World) (imp : nat) (l : doctor.gobLemma)
  : option (option nat * string * analysis.rtype) :=
  let ty := analysis.lemma_type (doctor.Lemma_ l) in
  if negb (String.eqb (doctor.PkgPath l) "") then
    Some (None, doctor.PkgPath l, ty)
  else
    match FindObject W imp (doctor.Object l) with
    | Ok o => Some (Some (obj_addr o), "", ty)
    | _ => None
    end.

(** Every entry of the map stands under the key it carries, and the
    type of the key is the type of the fact. *)
Definition well_keyed
    (m : gmap (option nat * string * analysis.rtype)
              (doctor.lemmaKey * analysis.Lemma)) : Prop :=
  ∀ id k v, m !! id = Some (k, v) →
            doctor.key_id k = id ∧ doctor.t k = analysis.lemma_type v.

(** The path element is an identifier, or an index that is not negative. *)
Definition not_negative (x : elem) : Prop :=
  match x with
  | EStr _ => True
  | EInt n => 0 ≤ n
  end.

(** The order of the fact file in the words of the specification: the
    records ascend by object path and then by fact type name, so that no
    record is less than an earlier one. *)
Definition ascending (out : list doctor.gobLemma) : Prop :=
  StronglySorted (λ x y, doctor.less y x = false) out.

(** Two records tie when the comparison of the writer orders them in
    neither direction. *)
Definition tie (x y : doctor.gobLemma) : Prop :=
  doctor.less x y = false ∧ doctor.less y x = false.

(** A path element that [parse] reads back: an operator or an
    identifier, or an index that an [int] holds. *)
Definition elem_ok (x : elem) : bool :=
  match x with
  | EStr s => is_op s || validIdent s
  | EInt n => (0 <=? n) && (n <? 2 ^ 63)
  end.

(** Among the fields of a struct (the methods of an interface or of a
    named type), those whose [Id()] is an identifier have pairwise
    distinct identifiers. *)
Definition distinct_ids (W : World) (l : list Object) : bool :=
  bool_decide (NoDup (Id W <$> filter (λ f, validIdent (Id W f) = true) l)).

(** The structs and interfaces of a type, as far as the encoder walks it,
    have distinct identifiers. *)
Fixpoint wf_type (W : World) (T : Type_) {struct T} : bool :=
  match T with
  | Basic _ | Named _ => true
  | Pointer e => wf_type W e
  | Slice e => wf_type W e
  | Array _ e => wf_type W e
  | Chan e => wf_type W e
  | Map k e => wf_type W k && wf_type W e
  | Signature _ ps rs => wf_type W ps && wf_type W rs
  | Struct fields =>
      distinct_ids W fields && forallb (λ f, wf_type W (TypeOf f)) fields
  | Tuple vars => forallb (λ v, wf_type W (TypeOf v)) vars
  | Interface methods =>
      distinct_ids W methods && forallb (λ m, wf_type W (TypeOf m)) methods
  end.

Definition wf_named (W : World) (ref : nat) : bool :=
  distinct_ids W (Methods (named W ref))
  && forallb (λ m, wf_type W (TypeOf m)) (Methods (named W ref))
  && wf_type W (Underlying (named W ref)).

Definition wf_object (W : World) (o : Object) : bool :=
  match TypeOf o with
  | Named ref => wf_named W ref
  | T => wf_type W T
  end.

(** The scope of the package holds every object under its name, and the
    types of its objects are well formed. *)
Definition wf_scope (W : World) (pkg : nat) : Prop :=
  map_Forall (λ name o, Name o = name ∧ wf_object W o = true)
             (Scope (package W pkg)).

(** The string holds a dot. *)
Fixpoint has_dot (s : string) : bool :=
  match s with
  | EmptyString => false
  | String c s' => Ascii.eqb c "."%char || has_dot s'
  end.

(** An action as [mkAction] makes it: not executed, without a unit. *)
Definition fresh (act : checker.action) : Prop :=
  checker.act_once act = false ∧ checker.act_unit act = None.

(** The action [act] is what executing a fresh action has left: its
    [Run], if it was invoked, has returned. *)
Definition executed (act : checker.action) : Prop :=
  ∃ Debug gob act0, fresh act0 ∧ checker.exec Debug gob act0 = Ok act.

(** The setter calls that the specification forbids to an action. *)
Inductive contract_violation (act : checker.action) : analysis.call → Prop :=
  | undeclared_object_fact o lemma :
      analysis.lemma_type lemma ∉ analysis.LemmaTypes (checker.act_a act) →
      contract_violation act (analysis.SetObjectLemma o lemma)
  | foreign_object o lemma :
      Pkg o ≠ Some (packages.Types (checker.act_pkg act)) →
      contract_violation act (analysis.SetObjectLemma o lemma)
  | undeclared_package_fact lemma :
      analysis.lemma_type lemma ∉ analysis.LemmaTypes (checker.act_a act) →
      contract_violation act (analysis.SetPackageLemma lemma)
  | after_Run c :
      executed act → contract_violation act c.

(** The objects that the run of [main] on the package [pkg] meets: the
    objects that the object-keyed records of the fact files of the
    direct imports resolve to, and the objects that the analyses set
    facts on. *)
Definition met_object (W : World)
    (ReadFile : string → option string)
    (gob_decode : string → option (list doctor.gobLemma))
    (inputFiles : gmap string string) (pkg : nat)
    (calls : list (analysis.Analysis * analysis.call)) (o : Object) : Prop :=
  (∃ imp l, read_from_import W ReadFile gob_decode inputFiles pkg imp l
            ∧ doctor.PkgPath l = ""
            ∧ FindObject W imp (doctor.Object l) = Ok o)
  ∨ (∃ a lemma, (a, analysis.SetObjectLemma o lemma) ∈ calls).

(** Objects are identified by their addresses, as they are by Go
    pointers: two objects that the run meets at one address are the
    same object. *)
Definition objects_by_address (W : World)
    (ReadFile : string → option string)
    (gob_decode : string → option (list doctor.gobLemma))
    (inputFiles : gmap string string) (pkg : nat)
    (calls : list (analysis.Analysis * analysis.call)) : Prop :=
  ∀ o1 o2,
    met_object W ReadFile gob_decode inputFiles pkg calls o1 →
    met_object W ReadFile gob_decode inputFiles pkg calls o2 →
    obj_addr o1 = obj_addr o2 → o1 = o2.

(** Every object that keys an entry of the map is one that the run
    meets. *)
Definition keys_met (W : World)
    (ReadFile : string → option string)
    (gob_decode : string → option (list doctor.gobLemma))
    (inputFiles : gmap string string) (pkg : nat)
    (calls : list (analysis.Analysis * analysis.call))
    (m : gmap (option nat * string * analysis.rtype)
              (doctor.lemmaKey * analysis.Lemma)) : Prop :=
  ∀ id k v o, m !! id = Some (k, v) → doctor.obj k = Some o →
              met_object W ReadFile gob_decode inputFiles pkg calls o.

(** The decoder, walking the path [rest] from the type [T], arrives at
    the object [obj], if the structs and interfaces of [T] have distinct
    identifiers and the elements of [rest] can be read back. *)
Definition decodes (W : World) (obj : Object) (T : Type_) (rest : list elem)
  : Prop :=
  wf_type W T = true → Forall (λ x, elem_ok x = true) rest →
  ∃ o', findObject W rest T = Ok o' ∧ same o' obj = true.

(** The path [r] that the encoder has found from [path] within [T]
    extends [path] by a path that the decoder walks back. *)
Definition found (W : World) (obj : Object) (T : Type_)
    (path r : list elem) : Prop :=
  ∃ rest, r = path ++ rest ∧ rest ≠ [] ∧ decodes W obj T rest.

(** An index that is negative. *)
Definition negative (x : elem) : Prop :=
  match x with
  | EStr _ => False
  | EInt n => n < 0
  end.

(** The fields of an action other than its two fact maps. *)
Definition frame (act : checker.action) :=
  (checker.act_once act, checker.act_a act, checker.act_pkg act,
   checker.act_unit act, checker.act_isroot act, checker.act_deps act,
   checker.act_inputs act, checker.act_err act, checker.act_runs act).

(** The package fact of index [i] stored in [act] for the package at
    address [pkg]. *)
Definition pkg_fact (act : checker.action) (i pkg : nat)
  : option analysis.Lemma :=
  checker.act_pkgLemmas act !! i ≫= λ m, m !! pkg.

(** What the loop body [inherit_pkg] for index [i] and the entry
    [(pkg, lemma)] of the dependency makes of the fact stored for index
    [j] and package [p]. *)
Definition inherit_pkg_upd (Debug : string)
    (gob : analysis.Lemma → option analysis.Lemma) (i : nat)
    (e : nat * analysis.Lemma) (k : nat * nat)
    (old : option analysis.Lemma) : option analysis.Lemma :=
  if bool_decide (k.1 = i) && bool_decide (k.2 = e.1)
  then match checker.serialized Debug gob e.2 with
       | Ok new => Some new
       | _ => old
       end
  else old.

(** The order of the fact file in the words of the specification: by
    object path, and among records of one object path by the name of
    the fact type. *)
Definition by_object_then_type (x y : doctor.gobLemma) : Prop :=
  String.le (doctor.Object x) (doctor.Object y)
  ∧ (doctor.Object x = doctor.Object y →
     String.le (analysis.rt_String (analysis.lemma_type (doctor.Lemma_ x)))
               (analysis.rt_String (analysis.lemma_type (doctor.Lemma_ y)))).

(** The setter call [c] of analysis [a] keeps to the contract of the
    fact store [ls]: the type of the fact is declared by [a] and, for an
    object fact, the object belongs to the package of the store. *)
Definition allowed (a : analysis.Analysis) (ls : doctor.lemmaSet)
    (c : analysis.call) : Prop :=
  match c with
  | analysis.SetObjectLemma o lemma =>
      analysis.lemma_type lemma ∈ analysis.LemmaTypes a
      ∧ Pkg o = Some (doctor.pkg ls)
  | analysis.SetPackageLemma lemma =>
      analysis.lemma_type lemma ∈ analysis.LemmaTypes a
  end.

(** The analysis declares a fact type, or requires, directly or not, an
    analysis that does. *)
Fixpoint usesLemmas (a : analysis.Analysis) : bool :=
  bool_decide (analysis.LemmaTypes a ≠ [])
  || existsb (λ req, usesLemmas req) (analysis.Requires a).

(** The analysis [a] and the analyses it requires, directly or not. *)
Fixpoint required (a : analysis.Analysis) : list analysis.Analysis :=
  a :: concat ((λ req, required req) <$> analysis.Requires a).

(** Analyses are identified by their addresses: among the analyses
    reached from [analyses], two at one address are the same. *)
Definition by_address (analyses : list analysis.Analysis) : Prop :=
  ∀ a b, a ∈ concat (required <$> analyses) →
         b ∈ concat (required <$> analyses) →
         analysis.addr a = analysis.addr b → a = b.

End spec.

(** ** Concrete programs used below *)

Module examples.
Import types.

Definition int : Type_ := Basic "int".
Definition str : Type_ := Basic "string".

(** The package of the test of objectpath,
<<
    package src
    type I int
    func (I) F() *struct{ X, Y int }
    type Foo interface { Method() (string, func(int) struct{ X int }) }
    var X chan struct{ Z int }
    var Z map[string]struct{ A int }
>>
    extended with [type T struct{ hidden int }] and with a variable [x]
    local to the body of [F].  The package has address 0. *)
Definition F_X := mkObject 10 Var (Some 0%nat) "X" true int.
Definition F_Y := mkObject 11 Var (Some 0%nat) "Y" true int.
Definition F_res := mkObject 12 Var (Some 0%nat) "" false (Pointer (Struct [F_X; F_Y])).
Definition I_F := mkObject 13 Func (Some 0%nat) "F" false
                           (Signature true (Tuple []) (Tuple [F_res])).
Definition I_ := mkObject 14 TypeName (Some 0%nat) "I" false (Named 0).
Definition M_X := mkObject 15 Var (Some 0%nat) "X" true int.
Definition M_res0 := mkObject 16 Var (Some 0%nat) "" false str.
Definition M_par := mkObject 17 Var (Some 0%nat) "" false int.
Definition M_res10 := mkObject 18 Var (Some 0%nat) "" false (Struct [M_X]).
Definition M_res1 := mkObject 19 Var (Some 0%nat) "" false
                              (Signature false (Tuple [M_par]) (Tuple [M_res10])).
Definition Foo_Method := mkObject 20 Func (Some 0%nat) "Method" false
                                  (Signature true (Tuple []) (Tuple [M_res0; M_res1])).
Definition Foo := mkObject 21 TypeName (Some 0%nat) "Foo" false (Named 1).
Definition X_Z := mkObject 22 Var (Some 0%nat) "Z" true int.
Definition X := mkObject 23 Var (Some 0%nat) "X" false (Chan (Struct [X_Z])).
Definition Z_A := mkObject 24 Var (Some 0%nat) "A" true int.
Definition Z := mkObject 25 Var (Some 0%nat) "Z" false (Map str (Struct [Z_A])).
Definition T_hidden := mkObject 26 Var (Some 0%nat) "hidden" true int.
Definition T := mkObject 27 TypeName (Some 0%nat) "T" false (Named 2).
Definition local_x := mkObject 28 Var (Some 0%nat) "x" false int.

Definition src : Package := {|
  Path := "src";
  Scope := list_to_map [("I", I_); ("Foo", Foo); ("X", X); ("Z", Z); ("T", T)];
  Imports := [];
|}.

Definition src_world : World := {|
  package := λ _, src;
  named := λ ref,
    match ref with
    | 0%nat => {| Methods := [I_F]; Underlying := int |}
    | 1%nat => {| Methods := []; Underlying := Interface [Foo_Method] |}
    | _ => {| Methods := []; Underlying := Struct [T_hidden] |}
    end;
|}.

(** Scenario S4 of the specification: analysis [X] requires analysis
    [Y], whose [Run] returns an error in package [P]. *)
Definition quiet : analysis.RunResult := {|
  analysis.run_calls := []; analysis.run_Findings := [];
  analysis.run_Output := None; analysis.run_err := None;
|}.
Definition failing : analysis.RunResult := {|
  analysis.run_calls := []; analysis.run_Findings := [];
  analysis.run_Output := None; analysis.run_err := Some "boom";
|}.
Definition Y := analysis.mkAnalysis 1 "Y" [] [] None false (λ _, failing).
Definition X_after_Y := analysis.mkAnalysis 2 "X" [Y] [] None false (λ _, quiet).
Definition P := packages.mkPackage 1 "P" 0 ∅ false.

(** Encoding a fact with gob and decoding it gives the fact back. *)
Definition gob_id (lemma : analysis.Lemma) : option analysis.Lemma := Some lemma.

Definition X_at_P : checker.action := checker.mkAction X_after_Y P.

(** The dependencies of [X_at_P], executed: [Y] has failed on [P]. *)
Definition X_at_P_deps : list checker.action :=
  Eval vm_compute in
    match checker.execAll "" gob_id (checker.act_deps X_at_P) with
    | Ok deps => deps
    | _ => []
    end.

(** Three packages, [c] importing [b] importing [a], and an analysis
    that declares the fact type [isWrapper] and sets a fact on the type
    [T] and on the function [F] of package [a]. *)
Definition isWrapper : analysis.rtype :=
  {| analysis.rt_id := 1; analysis.rt_String := "*printf.isWrapper" |}.
Definition wrapper : analysis.Lemma :=
  {| analysis.lemma_type := isWrapper; analysis.lemma_value := "" |}.
Definition a_T := mkObject 40 TypeName (Some 1%nat) "T" false (Named 5).
Definition a_F := mkObject 41 Func (Some 1%nat) "F" false
                           (Signature false (Tuple []) (Tuple [])).
Definition facts :=
  analysis.mkAnalysis 4 "facts" [] [isWrapper] None false
    (λ view,
       {| analysis.run_calls :=
            if decide (analysis.view_Pkg view = 1%nat)
            then [analysis.SetObjectLemma a_T wrapper;
                  analysis.SetObjectLemma a_F wrapper]
            else [];
          analysis.run_Findings := []; analysis.run_Output := None;
          analysis.run_err := None |}).
Definition pkg_a := packages.mkPackage 11 "a" 1 ∅ false.
Definition pkg_b := packages.mkPackage 12 "b" 2 {[ "a" := pkg_a ]} false.
Definition pkg_c := packages.mkPackage 13 "c" 3 {[ "b" := pkg_b ]} false.

(** The action of [facts] on [a], executed: [Run] has set the two
    facts and has returned. *)
Definition facts_at_a : checker.action :=
  Eval vm_compute in
    match checker.exec "" gob_id (checker.mkAction facts pkg_a) with
    | Ok act => act
    | _ => checker.mkAction facts pkg_a
    end.

(** The action of [facts] on [b], executed. *)
Definition facts_at_b : checker.action :=
  Eval vm_compute in
    match checker.exec "" gob_id (checker.mkAction facts pkg_b) with
    | Ok act => act
    | _ => checker.mkAction facts pkg_b
    end.

(** The action of [facts] on [c], as [execOnce] has it when it comes to
    inherit the facts of its dependency: the fact maps allocated. *)
Definition facts_at_c : checker.action :=
  checker.with_pkgLemmas
    (checker.with_objLemmas (checker.mkAction facts pkg_c) [∅]) [∅].

(** Package [b] (address 2) imports package [a] (address 1), which
    imports package [z] (address 3):
<<
    package z;  type E interface { Error() string }
    package a;  import "z";  var E error;  func F()
    package b;  import "a";  func G()
>>
    The universe type [error] has the method [Error], which belongs to
    no package. *)
Definition error_Error := mkObject 50 Func None "Error" false
                                   (Signature true (Tuple []) (Tuple [M_res0])).
Definition a_E := mkObject 51 Var (Some 1%nat) "E" false (Named 9).
Definition a_F' := mkObject 52 Func (Some 1%nat) "F" false
                            (Signature false (Tuple []) (Tuple [])).
Definition b_G := mkObject 53 Func (Some 2%nat) "G" false
                           (Signature false (Tuple []) (Tuple [])).
Definition z_E_Error := mkObject 60 Func (Some 3%nat) "Error" false
                                 (Signature true (Tuple []) (Tuple [M_res0])).
Definition z_E := mkObject 61 TypeName (Some 3%nat) "E" false (Named 7).

Definition vetx_world : World := {|
  package := λ p,
    match p with
    | 1%nat => {| Path := "a"; Imports := [3%nat];
                  Scope := list_to_map [("E", a_E); ("F", a_F')] |}
    | 2%nat => {| Path := "b"; Imports := [1%nat];
                  Scope := list_to_map [("G", b_G)] |}
    | _ => {| Path := "z"; Imports := [];
              Scope := list_to_map [("E", z_E)] |}
    end;
  named := λ ref,
    match ref with
    | 7%nat => {| Methods := []; Underlying := Interface [z_E_Error] |}
    | _ => {| Methods := []; Underlying := Interface [error_Error] |}
    end;
|}.

(** An analysis with an object fact and a package fact. *)
Definition pkgfact : analysis.rtype :=
  {| analysis.rt_id := 2; analysis.rt_String := "*pkglemma.note" |}.
Definition note (text : string) : analysis.Lemma :=
  {| analysis.lemma_type := pkgfact; analysis.lemma_value := text |}.
Definition pkglemma :=
  analysis.mkAnalysis 5 "pkglemma" [] [pkgfact; isWrapper] None false (λ _, quiet).

(** The fact files that the driver writes for [z], for [a] and for [b]
    (see [main_writes_vetx] below). *)
Definition z_vetx : list doctor.gobLemma :=
  [ {| doctor.Object := "E.!underlying.Error"; doctor.PkgPath := "";
       doctor.Lemma_ := wrapper |} ].
Definition a_vetx : list doctor.gobLemma :=
  [ {| doctor.Object := ""; doctor.PkgPath := "a"; doctor.Lemma_ := note "a" |};
    {| doctor.Object := "E.!underlying.Error"; doctor.PkgPath := "";
       doctor.Lemma_ := wrapper |};
    {| doctor.Object := "F"; doctor.PkgPath := ""; doctor.Lemma_ := wrapper |} ].

Definition b_vetx : list doctor.gobLemma :=
  [ {| doctor.Object := ""; doctor.PkgPath := "a"; doctor.Lemma_ := note "a" |};
    {| doctor.Object := ""; doctor.PkgPath := "b"; doctor.Lemma_ := note "b" |};
    {| doctor.Object := "F"; doctor.PkgPath := ""; doctor.Lemma_ := wrapper |} ].

Definition ReadFile (filename : string) : option string := Some filename.
Definition gob_decode (data : string) : option (list doctor.gobLemma) :=
  if String.eqb data "z.vetx" then Some z_vetx
  else if String.eqb data "a.vetx" then Some a_vetx
  else None.
Definition vetx_files : gmap string string :=
  {[ "z" := "z.vetx"; "a" := "a.vetx" ]}.

(** The setter calls of the analyses on each of the packages. *)
Definition calls_on_z := [(pkglemma, analysis.SetObjectLemma z_E_Error wrapper)].
Definition calls_on_a := [(pkglemma, analysis.SetObjectLemma a_F' wrapper);
                          (pkglemma, analysis.SetPackageLemma (note "a"))].
Definition calls_on_b := [(pkglemma, analysis.SetPackageLemma (note "b"))].

(** The facts of package [b] after [readLemmas], and when [main] comes
    to write them. *)
Definition b_read : doctor.lemmaSet :=
  Eval vm_compute in
    match doctor.readLemmas vetx_world ReadFile gob_decode vetx_files 2 with
    | Ok ls => ls
    | _ => {| doctor.pkg := 2; doctor.m := ∅ |}
    end.
Definition b_lemmas : doctor.lemmaSet :=
  Eval vm_compute in
    match doctor.run_analyses vetx_world calls_on_b b_read with
    | Ok ls => ls
    | _ => b_read
    end.

Definition key_of_a : doctor.lemmaKey :=
  {| doctor.obj := None; doctor.pkgpath := "a"; doctor.t := pkgfact |}.
Definition key_of_b : doctor.lemmaKey :=
  {| doctor.obj := None; doctor.pkgpath := "b"; doctor.t := pkgfact |}.
Definition key_of_F : doctor.lemmaKey :=
  {| doctor.obj := Some a_F'; doctor.pkgpath := ""; doctor.t := isWrapper |}.
Definition key_of_Error : doctor.lemmaKey :=
  {| doctor.obj := Some error_Error; doctor.pkgpath := "";
     doctor.t := isWrapper |}.

(** Two orders in which [range] may visit [b_lemmas]. *)
Definition visit_ab : list (doctor.lemmaKey * analysis.Lemma) :=
  [(key_of_a, note "a"); (key_of_b, note "b"); (key_of_F, wrapper);
   (key_of_Error, wrapper)].
Definition visit_ba : list (doctor.lemmaKey * analysis.Lemma) :=
  [(key_of_b, note "b"); (key_of_a, note "a"); (key_of_F, wrapper);
   (key_of_Error, wrapper)].

(** The action of [facts] on [a] while [Run] is running: the fact maps
    are allocated and the setters of the unit are enabled. *)
Definition facts_running : checker.action :=
  checker.with_unit
    (checker.with_pkgLemmas
       (checker.with_objLemmas (checker.mkAction facts pkg_a) [∅]) [∅])
    (Some {| analysis.unit_Analysis := facts; analysis.unit_Pkg := 1;
             analysis.unit_Inputs := ∅; analysis.unit_Output := None;
             analysis.unit_Findings := [];
             analysis.unit_SetObjectLemma := true;
             analysis.unit_SetPackageLemma := true |}).

(** The same action once [Run] has set a fact on [F], and once it has
    set a fact on the package. *)
Definition facts_with_F : checker.action :=
  Eval vm_compute in
    (checker.setObjLemma a_F wrapper facts_running).2.
Definition facts_with_pkg : checker.action :=
  Eval vm_compute in
    (checker.setPkgLemma wrapper facts_running).2.

(** A package with type errors, and the action of [Y] on it, fresh and
    executed. *)
Definition broken := packages.mkPackage 14 "broken" 4 ∅ true.
Definition Y_at_broken : checker.action :=
  Eval vm_compute in
    match checker.exec "" gob_id (checker.mkAction Y broken) with
    | Ok act => act
    | _ => checker.mkAction Y broken
    end.

(** An analysis with an output, and an analysis that requires it. *)
Definition table : analysis.rtype :=
  {| analysis.rt_id := 3; analysis.rt_String := "*inspector.Inspector" |}.
Definition produce :=
  analysis.mkAnalysis 6 "inspect" [] [] (Some table) false
    (λ _, {| analysis.run_calls := []; analysis.run_Findings := [];
             analysis.run_Output :=
               Some {| analysis.value_type := table;
                       analysis.value_data := "nodes" |};
             analysis.run_err := None |}).
Definition consume :=
  analysis.mkAnalysis 7 "lostcancel" [produce] [] None false (λ _, quiet).
Definition consume_at_P : checker.action :=
  Eval vm_compute in
    match checker.exec "" gob_id (checker.mkAction consume P) with
    | Ok act => act
    | _ => checker.mkAction consume P
    end.

(** An analysis that sets a package fact, its action on [a], executed,
    and its action on [b] as [execOnce] has it when it comes to inherit
    the facts of the dependency. *)
Definition notes :=
  analysis.mkAnalysis 8 "notes" [] [pkgfact] None false
    (λ _, {| analysis.run_calls := [analysis.SetPackageLemma (note "seen")];
             analysis.run_Findings := []; analysis.run_Output := None;
             analysis.run_err := None |}).
Definition notes_at_a : checker.action :=
  Eval vm_compute in
    match checker.exec "" gob_id (checker.mkAction notes pkg_a) with
    | Ok act => act
    | _ => checker.mkAction notes pkg_a
    end.
Definition notes_at_b : checker.action :=
  checker.with_pkgLemmas
    (checker.with_objLemmas (checker.mkAction notes pkg_b) [∅]) [∅].
Definition notes_at_b_inherited : checker.action :=
  Eval vm_compute in
    match checker.inheritLemmas "" gob_id notes_at_b notes_at_a with
    | Ok act => act
    | _ => notes_at_b
    end.

(** The facts of package [b] once an analysis has set a fact on [G]. *)
Definition b_with_G : doctor.lemmaSet :=
  Eval vm_compute in
    match doctor.setObj b_read b_G wrapper with
    | Ok ls => ls
    | _ => b_read
    end.

(** The facts of package [a] when [main] comes to write them, and two
    orders in which [range] may visit them. *)
Definition a_lemmas : doctor.lemmaSet :=
  Eval vm_compute in
    match doctor.readLemmas vetx_world ReadFile gob_decode vetx_files 1 with
    | Ok ls =>
        match doctor.run_analyses vetx_world calls_on_a ls with
        | Ok ls' => ls'
        | _ => ls
        end
    | _ => {| doctor.pkg := 1; doctor.m := ∅ |}
    end.
Definition key_of_z_Error : doctor.lemmaKey :=
  {| doctor.obj := Some z_E_Error; doctor.pkgpath := "";
     doctor.t := isWrapper |}.
Definition visit_a : list (doctor.lemmaKey * analysis.Lemma) :=
  [(key_of_a, note "a"); (key_of_z_Error, wrapper); (key_of_F, wrapper)].
Definition visit_a' : list (doctor.lemmaKey * analysis.Lemma) :=
  [(key_of_z_Error, wrapper); (key_of_a, note "a"); (key_of_F, wrapper)].

(** A list of fact files that names a file that is no fact file. *)
Definition junk_files : gmap string string := {[ "a" := "junk" ]}.

End examples.

(** * Properties *)

(** ** The object-path encoder and decoder *)

Section objectpath_facts.
Import types objectpath spec.

Lemma pathOf_not_at_scope W obj p :
  Pkg obj = Some p → ¬ at_package_scope W obj →
  pathOf W obj =
    match obj_kind obj with
    | Var => if negb (IsField obj) then Err ErrNotField
             else search W obj (Scope (package W p))
    | Func => if negb (has_Recv obj) then Err ErrNotMethod
              else search W obj (Scope (package W p))
    | _ => Err ErrNotPackageLevel
    end.
Proof.
  intros Hp Hns. unfold pathOf. rewrite Hp.
  destruct (Lookup _ _) as [o|] eqn:Hl; [|done].
  destruct (same o obj) eqn:Hs; [|done].
  destruct Hns. by exists p, o.
Qed.

(** C9.  [Of] returns an error, and so no path, for every object that is
    a universe entity (nil package), a package name, a block-scoped
    label, constant or type, a variable that is neither a field nor at
    package scope (so every local), or a function that is neither a
    method nor at package scope. *)
Theorem Of_fails_on_not_addressable W obj :
  not_addressable W obj → is_Err (Of W obj).
Proof.
  intros H. unfold Of.
  assert (is_Err (pathOf W obj)) as [e ->]; [|by eexists].
  destruct H as [Hu|Hk Hs|Hk Hs|Hk Hf Hs|Hk Hr Hs].
  - unfold pathOf. rewrite Hu. by eexists.
  - destruct (Pkg obj) as [p|] eqn:Hp; [|unfold pathOf; rewrite Hp; by eexists].
    rewrite (pathOf_not_at_scope W obj p) by done. rewrite Hk. by eexists.
  - destruct (Pkg obj) as [p|] eqn:Hp; [|unfold pathOf; rewrite Hp; by eexists].
    rewrite (pathOf_not_at_scope W obj p) by done.
    set_unfold in Hk. destruct Hk as [->|[->|[->|[]]]]; by eexists.
  - destruct (Pkg obj) as [p|] eqn:Hp; [|unfold pathOf; rewrite Hp; by eexists].
    rewrite (pathOf_not_at_scope W obj p) by done.
    rewrite Hk, Hf. by eexists.
  - destruct (Pkg obj) as [p|] eqn:Hp; [|unfold pathOf; rewrite Hp; by eexists].
    rewrite (pathOf_not_at_scope W obj p) by done.
    rewrite Hk, Hr. by eexists.
Qed.

Lemma Of_fails_on_not_addressable_witness :
  is_Err (Of examples.src_world examples.local_x).
Proof.
  apply Of_fails_on_not_addressable.
  apply local_variable; [reflexivity|reflexivity|].
  intros (p & o & Hp & Hl & _). vm_compute in Hl. discriminate.
Defined.

(** The encoder never panics: the names it looks up are those of the
    scope it looks them up in. *)
Lemma named_pass_no_panic W obj scope names nontypes :
  (∀ name, name ∈ names → is_Some (Lookup scope name)) →
  ¬ is_Panic (named_pass W obj scope names nontypes).
Proof.
  revert nontypes. induction names as [|name names IH]; intros nontypes Hin.
  - intros [msg Hmsg]. discriminate.
  - simpl. destruct (Hin name) as [o ->]; [left|].
    assert (∀ nt, ¬ is_Panic (named_pass W obj scope names nt)) as Hrest.
    { intros nt. apply IH. intros n Hn. apply Hin. by right. }
    destruct (TypeOf o); try apply Hrest.
    destruct (declared_methods _ _ _ _); [by intros [? ?]|].
    destruct (find _ _ _ _); [by intros [? ?]|]. apply Hrest.
Qed.

Lemma Names_in_scope (scope : gmap string Object) name :
  name ∈ Names scope → is_Some (Lookup scope name).
Proof.
  unfold Names, gostrings.sort_Strings, Lookup.
  rewrite merge_sort_Permutation. intros Hin.
  apply list_elem_of_fmap in Hin as ([n o] & -> & Hin).
  apply elem_of_map_to_list in Hin. by exists o.
Qed.

Lemma nontypes_pass_no_panic W obj nontypes :
  ¬ is_Panic (nontypes_pass W obj nontypes).
Proof.
  induction nontypes as [|o os IH]; simpl; [by intros [? ?]|].
  destruct (find _ _ _ _); [by intros [? ?]|done].
Qed.

Lemma search_no_panic W obj scope : ¬ is_Panic (search W obj scope).
Proof.
  unfold search.
  pose proof (named_pass_no_panic W obj scope (Names scope) []
                (Names_in_scope scope)) as Hnp.
  destruct (named_pass _ _ _ _ _) as [[path|nontypes]|e|msg]; simpl.
  - by intros [? ?].
  - apply nontypes_pass_no_panic.
  - by intros [? ?].
  - destruct Hnp. by eexists.
Qed.

Lemma Of_no_panic W obj : ¬ is_Panic (Of W obj).
Proof.
  unfold Of.
  assert (¬ is_Panic (pathOf W obj)) as Hp.
  { unfold pathOf. destruct (Pkg obj); [|by intros [? ?]].
    destruct (match Lookup _ _ with Some _ => _ | None => _ end);
      [by intros [? ?]|].
    destruct (obj_kind obj); try (by intros [? ?]).
    - destruct (negb _); [by intros [? ?]|apply search_no_panic].
    - destruct (negb _); [by intros [? ?]|apply search_no_panic]. }
  destruct (pathOf W obj); simpl; [by intros [? ?]|by intros [? ?]|].
  destruct Hp. by eexists.
Qed.

(** C1, on the code: the round trip fails for the unexported field
    [hidden] of [type T struct{ hidden int }] in package src.  [Of]
    succeeds with a path that carries the qualified identifier
    [src.hidden]; [FindObject] splits that identifier at its dot, looks
    for a field called [src] and returns an error. *)
Theorem roundtrip_fails_on_unexported_field :
  Of examples.src_world examples.T_hidden = Ok "T.!underlying.src.hidden"
  ∧ FindObject examples.src_world 0 "T.!underlying.src.hidden"
    = Err (ErrNoField "src").
Proof. split; vm_compute; reflexivity. Qed.

(** The same program, on the objects of the test of the package: there
    the round trip succeeds. *)
Lemma roundtrip_on_exported_objects :
  Forall (λ o, ∃ p, Of examples.src_world o = Ok p
                    ∧ FindObject examples.src_world 0 p = Ok o)
         [examples.F_X; examples.F_Y; examples.I_F; examples.I_;
          examples.M_X; examples.Foo_Method; examples.Foo; examples.X_Z;
          examples.X; examples.Z_A; examples.Z; examples.T].
Proof.
  repeat constructor; eexists; (split; [vm_compute; reflexivity|]);
    vm_compute; reflexivity.
Qed.

Lemma parse_zero : parse "0" = Ok [EInt 0].
Proof. vm_compute. reflexivity. Qed.

(** C8, on the code: [FindObject] panics, in every package, on the path
    ["0"], whose first element is an integer token: the first element is
    converted to a string by an unchecked type assertion.  It also
    panics on a negative tuple index, which passes the range check. *)
Theorem FindObject_panics :
  (∀ W pkg, is_Panic (FindObject W pkg "0"))
  ∧ is_Panic (FindObject examples.src_world 0 "I.F.!results.-1").
Proof.
  split.
  - intros W pkg. unfold FindObject. rewrite parse_zero. by eexists.
  - eexists. vm_compute. reflexivity.
Qed.

(** Apart from these two slips the decoder is total: past the first
    element, a path without negative indices is decoded or refused with
    an error. *)
Lemma findObject_no_panic W path T :
  Forall not_negative path → ¬ is_Panic (findObject W path T).
Proof.
  revert T. induction path as [|x rest IH]; intros T Hpath.
  - induction T; first [exact IHT | simpl; by intros [? ?]].
  - apply Forall_cons in Hpath as [Hx Hrest].
    assert (∀ T', ¬ is_Panic (findObject W rest T')) as Hnext by eauto.
    assert (∀ m : Object,
              ¬ is_Panic (match rest with
                          | [] => Ok m
                          | _ :: _ => findObject W rest (TypeOf m)
                          end)) as Hlast.
    { intros m. destruct rest; [by intros [? ?]|apply Hnext]. }
    induction T; try exact IHT; simpl.
    + by intros [? ?].
    + destruct x as [name|n]; [|by intros [? ?]].
      destruct (String.eqb _ _); [apply Hnext|].
      destruct (first_with _ _); [apply Hlast|by intros [? ?]].
    + repeat case_decide; try apply Hnext. by intros [? ?].
    + destruct x as [name|n]; [|by intros [? ?]].
      repeat (destruct (String.eqb _ _)); try apply Hnext. by intros [? ?].
    + destruct x as [id|n]; [|by intros [? ?]].
      destruct (first_with _ _); [apply Hlast|by intros [? ?]].
    + destruct x as [s|index]; [by intros [? ?]|]. simpl in Hx.
      destruct (index >=? _) eqn:Hge; [by intros [? ?]|].
      destruct (index <? 0) eqn:Hlt; [lia|].
      destruct (lookup_lt_is_Some_2 vars (Z.to_nat index)) as [v ->]; [lia|].
      apply Hnext.
    + destruct x as [id|n]; [|by intros [? ?]].
      destruct (first_with _ _); [apply Hlast|by intros [? ?]].
Qed.

(** The first element of a parsed path is an integer only if its text
    is one. *)
Lemma FindObject_no_panic W pkg p path :
  parse p = Ok path →
  match path with EInt _ :: _ => False | _ => True end →
  Forall not_negative path →
  ¬ is_Panic (FindObject W pkg p).
Proof.
  intros Hparse Hhead Hpath. unfold FindObject. rewrite Hparse. simpl.
  destruct path as [|[name|n] rest]; [by intros [? ?]| |done].
  destruct (Lookup _ _); [|by intros [? ?]].
  apply Forall_cons in Hpath as [_ Hrest].
  destruct rest; [by intros [? ?]|]. by apply findObject_no_panic.
Qed.

(** *** The round trip on paths of identifiers *)

Lemma string_app_cons c (s1 s2 : string) : String c s1 +:+ s2 = String c (s1 +:+ s2).
Proof. reflexivity. Qed.

Lemma string_app_nil_r (s : string) : s +:+ "" = s.
Proof. induction s as [|c s IH]; [done|]. by rewrite string_app_cons, IH. Qed.

Lemma split_go_no_dot word rest :
  has_dot word = false →
  gostrings.split_go (word +:+ rest)
  = ((word +:+ (gostrings.split_go rest).1), (gostrings.split_go rest).2).
Proof.
  induction word as [|c word IH]; simpl; intros Hdot.
  - change ("" +:+ rest) with rest.
    change ("" +:+ (gostrings.split_go rest).1)
      with (gostrings.split_go rest).1.
    by destruct (gostrings.split_go rest).
  - apply orb_false_iff in Hdot as [Hc Hword].
    rewrite !string_app_cons. simpl. rewrite IH by done. by rewrite Hc.
Qed.

Lemma split_go_word word :
  has_dot word = false → gostrings.split_go word = (word, []).
Proof.
  intros Hdot. rewrite <-(string_app_nil_r word) at 1.
  rewrite split_go_no_dot by done. simpl. by rewrite string_app_nil_r.
Qed.

(** Splitting at the dots undoes joining with dots. *)
Lemma Split_dot_Join words :
  words ≠ [] → Forall (λ w, has_dot w = false) words →
  gostrings.Split_dot (gostrings.Join words ".") = words.
Proof.
  induction words as [|w words IH]; [done|]. intros _ Hdots.
  apply Forall_cons in Hdots as [Hw Hdots].
  destruct words as [|w' words].
  - simpl. unfold gostrings.Split_dot. by rewrite split_go_word.
  - change (gostrings.Join (w :: w' :: words) ".")
      with (w +:+ "." +:+ gostrings.Join (w' :: words) ".").
    unfold gostrings.Split_dot. rewrite split_go_no_dot by done.
    change ("." +:+ gostrings.Join (w' :: words) ".")
      with (String "." (gostrings.Join (w' :: words) ".")).
    specialize (IH ltac:(done) Hdots). unfold gostrings.Split_dot in IH.
    simpl. destruct (gostrings.split_go _) as [word ws]. simpl.
    by rewrite string_app_nil_r, IH.
Qed.

Lemma validRunes_no_dot first s :
  validRunes first s = true → has_dot s = false.
Proof.
  revert first. induction s as [|c s IH]; intros first; simpl; [done|].
  destruct (Ascii.eqb_spec c ".") as [->|Hc]; simpl.
  - by destruct first.
  - destruct (negb _); [done|]. apply IH.
Qed.

Lemma validIdent_no_dot s : validIdent s = true → has_dot s = false.
Proof.
  unfold validIdent. intros [Hr _]%andb_true_iff.
  by eapply validRunes_no_dot.
Qed.

Lemma is_op_cases s :
  is_op s = true →
  s = opKey ∨ s = opValue ∨ s = opParams ∨ s = opResults ∨ s = opUnderlying.
Proof.
  unfold is_op. rewrite bool_decide_eq_true. set_unfold. tauto.
Qed.

Lemma is_op_no_dot s : is_op s = true → has_dot s = false.
Proof. intros [->|[->|[->|[->| ->]]]]%is_op_cases; reflexivity. Qed.

Lemma uint_of_string_no_dot s d :
  NilEmpty.uint_of_string s = Some d → has_dot s = false.
Proof.
  revert d. induction s as [|c s IH]; intros d; simpl; [done|].
  destruct (NilEmpty.uint_of_string s) as [d'|] eqn:Hs; [|done].
  intros Hc. rewrite (IH d') by done.
  apply uint_of_char_spec in Hc.
  destruct Hc as [[-> _]|[[-> _]|[[-> _]|[[-> _]|[[-> _]|[[-> _]|[[-> _]
                 |[[-> _]|[[-> _]|[-> _]]]]]]]]]]; reflexivity.
Qed.

Lemma int_of_Itoa n :
  NilZero.int_of_string (gostrings.Itoa n) = Some (Z.to_int n).
Proof.
  unfold gostrings.Itoa. apply NilZero.isi.
  - destruct n as [|p|p]; simpl; try done.
    intros [= Hp]. by apply DecimalPos.Unsigned.to_uint_nonnil in Hp.
  - destruct n as [|p|p]; simpl; try done.
    intros [= Hp]. by apply DecimalPos.Unsigned.to_uint_nonnil in Hp.
Qed.

Lemma NilZero_uint_no_dot s d :
  NilZero.uint_of_string s = Some d → has_dot s = false.
Proof.
  destruct s; [done|]. apply uint_of_string_no_dot.
Qed.

Lemma Itoa_no_dot n : 0 ≤ n → has_dot (gostrings.Itoa n) = false.
Proof.
  intros Hn. destruct n as [|p|p]; [done| |lia].
  unfold gostrings.Itoa. simpl.
  apply (NilZero_uint_no_dot _ (Pos.to_uint p)). apply NilZero.usu.
  apply DecimalPos.Unsigned.to_uint_nonnil.
Qed.

(** [Atoi] reads back what [Itoa] prints. *)
Lemma Atoi_Itoa n : gostrings.in_int_range n = true →
  gostrings.Atoi (gostrings.Itoa n) = Some n.
Proof.
  intros Hrange. unfold gostrings.Atoi.
  pose proof (int_of_Itoa n) as Hint.
  destruct (gostrings.Itoa n) as [|c s] eqn:Hs; [done|].
  assert (Z.of_int <$> NilZero.int_of_string (String c s) = Some n) as Hn.
  { rewrite Hint. simpl. by rewrite DecimalZ.of_to. }
  destruct (Ascii.eqb_spec c "+") as [->|Hc].
  - simpl in Hint. destruct (NilEmpty.uint_of_string s); done.
  - assert ((match String c s with
             | String "+" s' => Z.of_uint <$> NilZero.uint_of_string s'
             | _ => Z.of_int <$> NilZero.int_of_string (String c s)
             end) = Some n) as ->.
    { rewrite <-Hn.
      destruct c as [[] [] [] [] [] [] [] []]; try reflexivity. done. }
    simpl. by rewrite Hrange.
Qed.

(** No identifier and no operator is a numeral. *)
Lemma Atoi_word s :
  is_op s = true ∨ validIdent s = true → gostrings.Atoi s = None.
Proof.
  intros Hs.
  assert (∃ c s', s = String c s'
                  ∧ (c = "!"%char
                     ∨ Ascii.eqb c "_" || gostrings.IsLetter c = true))
    as (c & s' & -> & Hc).
  { destruct Hs as [Hop|Hid].
    - apply is_op_cases in Hop as [->|[->|[->|[->| ->]]]];
        eexists _, _; (split; [reflexivity|by left]).
    - unfold validIdent in Hid. apply andb_true_iff in Hid as [Hr Hne].
      destruct s as [|c s']; [done|]. exists c, s'. split; [done|right].
      simpl in Hr.
      destruct (Ascii.eqb c "_" || gostrings.IsLetter c); [done|].
      simpl in Hr. done. }
  unfold gostrings.Atoi.
  assert (NilZero.int_of_string (String c s') = None) as Hnone.
  { unfold NilZero.int_of_string, NilZero.uint_of_string. simpl.
    destruct (NilEmpty.uint_of_string s');
      destruct Hc as [->|Hc]; try done;
      destruct c as [[] [] [] [] [] [] [] []]; done. }
  rewrite Hnone.
  destruct Hc as [->|Hc]; [done|].
  destruct c as [[] [] [] [] [] [] [] []]; done.
Qed.

Lemma elem_ok_no_dot x : elem_ok x = true → has_dot (print_elem x) = false.
Proof.
  destruct x as [s|n]; simpl.
  - intros [Hop|Hid]%orb_true_iff;
      [by apply is_op_no_dot|by apply validIdent_no_dot].
  - intros [Hn _]%andb_true_iff. apply Itoa_no_dot. lia.
Qed.

Lemma parse_words_cons word words :
  parse_words (word :: words)
  = match gostrings.Atoi word with
    | Some n => path ← parse_words words; Ok (EInt n :: path)
    | None =>
        if is_op word then path ← parse_words words; Ok (EStr word :: path)
        else if negb (validIdent word) then Err (ErrInvalidIdent word)
        else path ← parse_words words; Ok (EStr word :: path)
    end.
Proof. reflexivity. Qed.

Lemma parse_words_print path :
  Forall (λ x, elem_ok x = true) path →
  parse_words (print_elem <$> path) = Ok path.
Proof.
  induction 1 as [|x path Hx _ IH]; [done|].
  rewrite fmap_cons, parse_words_cons, IH.
  destruct x as [s|n]; unfold print_elem, elem_ok in *.
  - rewrite Atoi_word by (by apply orb_true_iff).
    destruct (is_op s) eqn:Hop; [done|]. simpl in Hx. by rewrite Hx.
  - rewrite Atoi_Itoa; [done|].
    apply andb_true_iff in Hx as [Hlo Hhi]. unfold gostrings.in_int_range.
    apply andb_true_iff. split; [lia|done].
Qed.

(** X2.  [parse] reads back what [Of] prints: for a path that is not
    empty and whose elements are operators, identifiers or indices that
    an [int] holds and that are not negative, parsing the elements
    printed with dots between them gives the path back. *)
Lemma parse_print path :
  path ≠ [] → Forall (λ x, elem_ok x = true) path →
  parse (gostrings.Join (print_elem <$> path) ".") = Ok path.
Proof.
  intros Hne Hok. unfold parse. rewrite Split_dot_Join.
  - by apply parse_words_print.
  - by destruct path.
  - apply Forall_fmap. eapply Forall_impl; [done|]. apply elem_ok_no_dot.
Qed.

(** Induction on a type and on the types of the objects it holds. *)
Lemma Type_nested_ind (P : Type_ → Prop) :
  (∀ name, P (Basic name)) →
  (∀ ref, P (Named ref)) →
  (∀ e, P e → P (Pointer e)) →
  (∀ e, P e → P (Slice e)) →
  (∀ len e, P e → P (Array len e)) →
  (∀ e, P e → P (Chan e)) →
  (∀ k e, P k → P e → P (Map k e)) →
  (∀ recv ps rs, P ps → P rs → P (Signature recv ps rs)) →
  (∀ fields, Forall (λ f, P (TypeOf f)) fields → P (Struct fields)) →
  (∀ vars, Forall (λ v, P (TypeOf v)) vars → P (Tuple vars)) →
  (∀ methods, Forall (λ m, P (TypeOf m)) methods → P (Interface methods)) →
  ∀ T, P T.
Proof.
  intros HBasic HNamed HPointer HSlice HArray HChan HMap HSig HStruct HTuple
         HIface.
  refine (fix IH (T : Type_) : P T :=
            let all :=
              fix all (l : list Object) : Forall (λ o, P (TypeOf o)) l :=
                match l with
                | [] => ListDef.Forall_nil _
                | o :: l' =>
                    ListDef.Forall_cons _ _ _
                      (match o return P (TypeOf o) with
                       | mkObject _ _ _ _ _ T' => IH T'
                       end)
                      (all l')
                end in
            match T with
            | Basic name => HBasic name
            | Named ref => HNamed ref
            | Pointer e => HPointer e (IH e)
            | Slice e => HSlice e (IH e)
            | Array len e => HArray len e (IH e)
            | Chan e => HChan e (IH e)
            | Map k e => HMap k e (IH k) (IH e)
            | Signature recv ps rs => HSig recv ps rs (IH ps) (IH rs)
            | Struct fields => HStruct fields (all fields)
            | Tuple vars => HTuple vars (all vars)
            | Interface methods => HIface methods (all methods)
            end).
Qed.

End objectpath_facts.

(** ** The action graph *)

Section graph_facts.
Import checker.

Lemma mkAction_unfold a pkg :
  mkAction a pkg =
    {| act_once := false; act_a := a; act_pkg := pkg; act_unit := None;
       act_isroot := false;
       act_deps :=
         ((λ req, mkAction req pkg) <$> analysis.Requires a)
         ++ (if bool_decide (0 < length (analysis.LemmaTypes a))%nat then
               omap (λ path, (mkAction a <$> packages.Imports pkg) !! path)
                    (gostrings.sort_Strings
                       ((map_to_list (packages.Imports pkg)).*1))
             else []);
       act_objLemmas := []; act_pkgLemmas := []; act_inputs := ∅;
       act_err := None; act_runs := 0%nat |}.
Proof. destruct a, pkg; reflexivity. Qed.

Lemma sort_Strings_Permutation l : gostrings.sort_Strings l ≡ₚ l.
Proof. apply merge_sort_Permutation. Qed.

Lemma sort_Strings_Sorted l : Sorted String.le (gostrings.sort_Strings l).
Proof. apply (Sorted_merge_sort String.le). Qed.

(** C5.  The dependencies of the node [(a, pkg)] are the nodes
    [(req, pkg)] of the required analyses followed by the vertical
    dependencies.  There are vertical dependencies if and only if [a]
    declares a fact type; then there is exactly one, the node
    [(a, imp)], for every direct import [imp] of [pkg], and they come in
    ascending order of import path. *)
Theorem mkAction_vertical_edges a pkg :
  ∃ vertical,
    act_deps (mkAction a pkg)
    = ((λ req, mkAction req pkg) <$> analysis.Requires a) ++ vertical
    ∧ (analysis.LemmaTypes a = [] → vertical = [])
    ∧ (analysis.LemmaTypes a ≠ [] →
       ∃ paths,
         paths ≡ₚ (map_to_list (packages.Imports pkg)).*1
         ∧ NoDup paths
         ∧ Sorted String.le paths
         ∧ Forall2 (λ path dep,
                      ∃ imp, packages.Imports pkg !! path = Some imp
                             ∧ dep = mkAction a imp)
                   paths vertical).
Proof.
  rewrite mkAction_unfold. simpl. eexists. split; [reflexivity|]. split.
  - intros ->. reflexivity.
  - intros Hne.
    rewrite bool_decide_eq_true_2
      by (destruct (analysis.LemmaTypes a); [done|simpl; lia]).
    set (paths := gostrings.sort_Strings _).
    assert (paths ≡ₚ (map_to_list (packages.Imports pkg)).*1) as Hperm
      by apply sort_Strings_Permutation.
    exists paths. split; [done|]. split.
    { rewrite Hperm. apply NoDup_fst_map_to_list. }
    split; [apply sort_Strings_Sorted|].
    assert (Forall (λ path, is_Some (packages.Imports pkg !! path)) paths)
      as Hall.
    { apply Forall_forall. intros path Hin. rewrite Hperm in Hin.
      apply list_elem_of_fmap in Hin as ([n imp] & -> & Hin).
      apply elem_of_map_to_list in Hin. by exists imp. }
    clearbody paths. clear Hperm.
    induction Hall as [|path paths [imp Himp] _ IH]; simpl; [constructor|].
    rewrite lookup_fmap, Himp. simpl. constructor; [|done].
    by exists imp.
Qed.

End graph_facts.

(** ** The executor *)

Section executor_facts.
Import checker.
Context (Debug : string) (gob : analysis.Lemma → option analysis.Lemma).

Lemma exec_unfold act :
  exec Debug gob act =
    if act_once act then Ok act
    else deps ← execAll Debug gob (act_deps act);
         execOnce_after_deps Debug gob (with_deps (with_once act true) deps).
Proof. destruct act; reflexivity. Qed.

Lemma failed_deps_filter deps :
  failed_deps deps = String_ <$> filter (λ dep, act_err dep ≠ None) deps.
Proof.
  induction deps as [|dep deps IH]; [done|].
  simpl. rewrite filter_cons. destruct (act_err dep) eqn:He.
  - rewrite decide_True by done. simpl. by rewrite IH.
  - rewrite decide_False by (by intros []). done.
Qed.

Lemma failed_deps_nonempty deps :
  Exists (λ dep, act_err dep ≠ None) deps → failed_deps deps ≠ [].
Proof.
  induction 1 as [dep deps Hd|dep deps _ IH]; simpl.
  - destruct (act_err dep); done.
  - destruct (act_err dep); done.
Qed.

(** C2.  When, after all the dependencies of an action have been
    executed, one of them has an error, executing the action does not
    invoke [Run] (the count of its invocations is unchanged and no unit
    is built) and sets the error of the action to
    ["failed prerequisites: "] followed by the names of exactly the
    failed dependencies, in ascending order, separated by [", "]. *)
Theorem failed_prerequisites act deps :
  act_once act = false →
  execAll Debug gob (act_deps act) = Ok deps →
  Exists (λ dep, act_err dep ≠ None) deps →
  ∃ act' names,
    exec Debug gob act = Ok act'
    ∧ act_runs act' = act_runs act
    ∧ act_unit act' = act_unit act
    ∧ names ≡ₚ String_ <$> filter (λ dep, act_err dep ≠ None) deps
    ∧ Sorted String.le names
    ∧ act_err act'
      = Some ("failed prerequisites: " +:+ gostrings.Join names ", ").
Proof.
  intros Honce Hdeps Hfailed.
  rewrite exec_unfold, Honce, Hdeps. simpl.
  unfold execOnce_after_deps.
  assert (act_deps (with_deps (with_once act true) deps) = deps) as ->
    by (by destruct act).
  rewrite bool_decide_eq_true_2 by by apply failed_deps_nonempty.
  eexists _, (gostrings.sort_Strings (failed_deps deps)).
  split; [reflexivity|].
  split; [by destruct act|]. split; [by destruct act|].
  split; [rewrite <-failed_deps_filter; apply sort_Strings_Permutation|].
  split; [apply sort_Strings_Sorted|]. by destruct act.
Qed.

End executor_facts.

Lemma failed_prerequisites_witness :
  ∃ act' names,
    checker.exec "" examples.gob_id examples.X_at_P = Ok act'
    ∧ checker.act_runs act' = checker.act_runs examples.X_at_P
    ∧ checker.act_unit act' = checker.act_unit examples.X_at_P
    ∧ names ≡ₚ checker.String_
               <$> filter (λ dep, checker.act_err dep ≠ None)
                          examples.X_at_P_deps
    ∧ Sorted String.le names
    ∧ checker.act_err act'
      = Some ("failed prerequisites: " +:+ gostrings.Join names ", ").
Proof.
  apply (failed_prerequisites "" examples.gob_id
           examples.X_at_P examples.X_at_P_deps).
  - reflexivity.
  - vm_compute. reflexivity.
  - apply Exists_cons_hd. discriminate.
Defined.

(** Scenario S4: the error reads [failed prerequisites: Y@P]. *)
Lemma scenario_S4 :
  checker.act_err <$> checker.exec "" examples.gob_id examples.X_at_P
  = Ok (Some "failed prerequisites: Y@P").
Proof. vm_compute. reflexivity. Qed.

(** ** The fact setters of an action *)

Section setter_facts.
Import types checker spec.

Lemma lemmaIndex_undeclared a lemma :
  analysis.lemma_type lemma ∉ analysis.LemmaTypes a →
  is_Panic (lemmaIndex a lemma).
Proof.
  intros Hnot. unfold lemmaIndex.
  destruct (list_find _ _) as [[i lt]|] eqn:Hfind; [|by eexists].
  apply list_find_Some in Hfind as (Hi & -> & _).
  destruct Hnot. by eapply list_elem_of_lookup_2.
Qed.

(** What [execOnce] leaves of the unit: none was built, or its setters
    are nil. *)
Lemma executed_setters_nil act u :
  executed act → act_unit act = Some u →
  analysis.unit_SetObjectLemma u = false
  ∧ analysis.unit_SetPackageLemma u = false.
Proof.
  intros (Debug & gob & act0 & [Honce Hunit] & Hexec).
  rewrite exec_unfold, Honce in Hexec.
  destruct (execAll Debug gob (act_deps act0)) as [deps| |]; [|done..].
  simpl in Hexec. unfold execOnce_after_deps in Hexec.
  case_bool_decide.
  - injection Hexec as <-. destruct act0; simpl in *. congruence.
  - destruct (foldM _ _ _) as [[inputs act1]| |]; [|done..].
    simpl in Hexec.
    match type of Hexec with
    | mbind _ ?m = _ => destruct m as [[[err u1] act2]| |]; [|done..]
    end.
    simpl in Hexec. injection Hexec as <-.
    destruct act2; simpl. by intros [= <-].
Qed.

(** C4.  A setter call that the contract forbids (a fact of a type the
    analysis has not declared, an object fact on an object of another
    package, or any call once the action has been executed) panics and
    leaves the action, and so its fact maps, as it was. *)
Theorem setters_enforce_contract act c :
  contract_violation act c →
  ∃ msg, call_setter c act = (Panic msg, act).
Proof.
  intros Hv.
  assert (∀ o lemma,
            (∀ u, act_unit act = Some u →
                  analysis.unit_SetObjectLemma u = true →
                  Pkg o = Some (packages.Types (act_pkg act)) →
                  is_Panic (lemmaIndex (act_a act) lemma)) →
            ∃ msg, setObjLemma o lemma act = (Panic msg, act)) as Hobj.
  { intros o lemma Hrest.
    unfold setObjLemma, the_unit, get, put, lift, when, Panicf.
    unfold mbind, M_bind, mret, M_ret. simpl.
    destruct (act_unit act) as [u|] eqn:Hu; simpl; [|by eexists].
    destruct (analysis.unit_SetObjectLemma u) eqn:Hset; simpl;
      [|by eexists].
    case_bool_decide as Hpkg; simpl; [|by eexists].
    destruct (Hrest u) as [msg ->]; try done. by eexists. }
  assert (∀ lemma,
            (∀ u, act_unit act = Some u →
                  analysis.unit_SetPackageLemma u = true →
                  is_Panic (lemmaIndex (act_a act) lemma)) →
            ∃ msg, setPkgLemma lemma act = (Panic msg, act)) as Hpkg.
  { intros lemma Hrest.
    unfold setPkgLemma, the_unit, get, put, lift, when, Panicf.
    unfold mbind, M_bind, mret, M_ret. simpl.
    destruct (act_unit act) as [u|] eqn:Hu; simpl; [|by eexists].
    destruct (analysis.unit_SetPackageLemma u) eqn:Hset; simpl;
      [|by eexists].
    destruct (Hrest u) as [msg ->]; try done. by eexists. }
  destruct Hv as [o lemma Hty|o lemma Hforeign|lemma Hty|c Hexec]; simpl.
  - apply Hobj. intros. by apply lemmaIndex_undeclared.
  - apply Hobj. intros. done.
  - apply Hpkg. intros. by apply lemmaIndex_undeclared.
  - destruct c as [o lemma|lemma]; simpl.
    + apply Hobj. intros u Hu Hset _.
      destruct (executed_setters_nil act u) as [Hnil _]; congruence.
    + apply Hpkg. intros u Hu Hset.
      destruct (executed_setters_nil act u) as [_ Hnil]; congruence.
Qed.

(** A call that keeps to the contract stores the fact. *)
Lemma setObjLemma_stores act u o lemma i m :
  act_unit act = Some u → analysis.unit_SetObjectLemma u = true →
  Pkg o = Some (packages.Types (act_pkg act)) →
  lemmaIndex (act_a act) lemma = Ok i →
  act_objLemmas act !! i = Some m →
  ∃ act', setObjLemma o lemma act = (Ok (), act')
          ∧ obj_fact act' i (obj_addr o) = Some (o, lemma).
Proof.
  intros Hu Hset Hpkg Hi Hm.
  unfold setObjLemma, the_unit, get, put, lift, when, Panicf, index.
  unfold mbind, M_bind, mret, M_ret. simpl.
  rewrite Hu. simpl. rewrite Hset. simpl.
  rewrite bool_decide_eq_true_2 by done. simpl.
  rewrite Hi, Hm. eexists. split; [reflexivity|].
  unfold obj_fact.
  assert (act_objLemmas (with_objLemmas act
            (<[i := <[obj_addr o := (o, lemma)]> m]> (act_objLemmas act)))
          = <[i := <[obj_addr o := (o, lemma)]> m]> (act_objLemmas act)) as ->
    by (by destruct act).
  rewrite list_lookup_insert_eq by (by eapply lookup_lt_Some). simpl.
  apply lookup_insert_eq.
Qed.

End setter_facts.

Lemma setters_enforce_contract_witness :
  ∃ msg,
    checker.call_setter (analysis.SetObjectLemma examples.a_T examples.wrapper)
                        examples.facts_at_a
    = (Panic msg, examples.facts_at_a).
Proof.
  apply setters_enforce_contract. apply spec.after_Run.
  exists "", examples.gob_id, (checker.mkAction examples.facts examples.pkg_a).
  split; [split; reflexivity|]. vm_compute. reflexivity.
Defined.

(** ** Inheritance of facts *)

Section foldM_facts.
Context {E A B K V : Type}.
Context (f : B → A → outcome E B) (look : B → K → V) (upd : A → K → V → V).

(** If every step changes what is observed by [upd], the loop changes
    it by the steps one after the other. *)
Lemma foldM_observe :
  (∀ b x b', f b x = Ok b' → ∀ k, look b' k = upd x k (look b k)) →
  ∀ l b b', foldM f b l = Ok b' →
            ∀ k, look b' k = foldl (λ v x, upd x k v) (look b k) l.
Proof.
  intros Hstep l. induction l as [|x l IH]; intros b b' Hfold k; simpl in *.
  - by injection Hfold as ->.
  - destruct (f b x) as [b1| |] eqn:Hf; [|done..]. simpl in Hfold.
    rewrite (IH _ _ Hfold). by rewrite (Hstep _ _ _ Hf).
Qed.

(** A property that every step preserves is preserved by the loop. *)
Lemma foldM_preserves (P : B → Prop) :
  (∀ b x b', f b x = Ok b' → P b → P b') →
  ∀ l b b', foldM f b l = Ok b' → P b → P b'.
Proof.
  intros Hstep l. induction l as [|x l IH]; intros b b' Hfold Hb; simpl in *.
  - by injection Hfold as <-.
  - destruct (f b x) as [b1| |] eqn:Hf; [|done..]. simpl in Hfold. eauto.
Qed.
End foldM_facts.

Section inherit_facts.
Import types checker spec.
Context (Debug : string) (gob : analysis.Lemma → option analysis.Lemma).

Lemma exportedFrom_visible o pkg :
  exportedFrom o pkg = true ↔ visible_across o pkg.
Proof.
  unfold exportedFrom, visible_across.
  destruct (obj_kind o) eqn:Hk;
    rewrite ?orb_true_iff, ?andb_true_iff, ?bool_decide_eq_true;
    intuition congruence.
Qed.

(** An object of another package is visible exactly when it is a method,
    a field, a type name or a constant. *)
Lemma exportedFrom_foreign o pkg :
  Pkg o ≠ Some pkg →
  exportedFrom o pkg = true ↔
    (obj_kind o = Func ∧ has_Recv o = true)
    ∨ (obj_kind o = Var ∧ IsField o = true)
    ∨ obj_kind o = TypeName ∨ obj_kind o = Const.
Proof.
  intros Hforeign. rewrite exportedFrom_visible. unfold visible_across.
  intuition congruence.
Qed.

Lemma obj_fact_insert act i m addr v j addr' :
  act_objLemmas act !! i = Some m →
  obj_fact (with_objLemmas act (<[i := <[addr := v]> m]> (act_objLemmas act)))
           j addr'
  = if bool_decide (j = i) && bool_decide (addr' = addr)
    then Some v else obj_fact act j addr'.
Proof.
  intros Hi. unfold obj_fact.
  assert (act_objLemmas (with_objLemmas act
            (<[i := <[addr := v]> m]> (act_objLemmas act)))
          = <[i := <[addr := v]> m]> (act_objLemmas act)) as ->
    by (by destruct act).
  destruct (decide (j = i)) as [->|Hji].
  - rewrite bool_decide_eq_true_2 by done.
    rewrite list_lookup_insert_eq by (by eapply lookup_lt_Some). simpl.
    destruct (decide (addr' = addr)) as [->|Hne].
    + rewrite bool_decide_eq_true_2 by done. apply lookup_insert_eq.
    + rewrite bool_decide_eq_false_2 by done. simpl.
      rewrite lookup_insert_ne by done. by rewrite Hi.
  - rewrite bool_decide_eq_false_2 by done. simpl.
    by rewrite list_lookup_insert_ne.
Qed.

Lemma inherit_obj_step dep i act e act' :
  inherit_obj Debug gob dep i act e = Ok act' →
  ∀ k, obj_fact act' k.1 k.2
       = inherit_upd Debug gob dep i e k (obj_fact act k.1 k.2).
Proof.
  destruct e as [a [o lemma]]. unfold inherit_obj, inherit_upd. simpl.
  intros Hstep [j addr]. simpl.
  destruct (exportedFrom o _); simpl in *; [|by injection Hstep as <-].
  destruct (serialized Debug gob lemma) as [new| |]; [|done..].
  simpl in Hstep. unfold index in Hstep.
  destruct (act_objLemmas act !! i) as [m|] eqn:Hi; [|done].
  simpl in Hstep. injection Hstep as <-.
  by rewrite (obj_fact_insert _ _ _ _ _ _ _ Hi).
Qed.

Lemma inherit_obj_exported dep i act a o lemma act' :
  inherit_obj Debug gob dep i act (a, (o, lemma)) = Ok act' →
  exportedFrom o (packages.Types (act_pkg dep)) = true →
  is_Ok (serialized Debug gob lemma).
Proof.
  unfold inherit_obj. intros Hstep Hexp. rewrite Hexp in Hstep.
  simpl in Hstep.
  destruct (serialized Debug gob lemma); [by eexists|done..].
Qed.

Lemma inherit_pkg_step i act e act' :
  inherit_pkg Debug gob i act e = Ok act' →
  act_objLemmas act' = act_objLemmas act.
Proof.
  destruct e as [p lemma]. unfold inherit_pkg. intros Hstep.
  destruct (serialized Debug gob lemma); [|done..]. simpl in Hstep.
  destruct (index _ _); [|done..]. simpl in Hstep.
  injection Hstep as <-. by destruct act.
Qed.

(** Every step of a loop that ends normally has ended normally. *)
Lemma foldM_steps {E A B} (f : B → A → outcome E B) l b b' x :
  foldM f b l = Ok b' → x ∈ l → ∃ b0 b1, f b0 x = Ok b1.
Proof.
  revert b. induction l as [|y l IH]; intros b Hfold Hin; [by inv Hin|].
  simpl in Hfold. destruct (f b y) as [b1| |] eqn:Hf; [|done..].
  simpl in Hfold. inv Hin; eauto.
Qed.

(** The loop over the entries of one map of the dependency. *)
Lemma inherit_entries dep i (es : list (nat * (Object * analysis.Lemma)))
    addr old :
  NoDup es.*1 →
  Forall (λ e, obj_addr e.2.1 = e.1) es →
  foldl (λ v e, inherit_upd Debug gob dep i e (i, addr) v) old es
  = match list_to_map (M := gmap nat _) es !! addr with
    | Some f => inherit_upd Debug gob dep i (addr, f) (i, addr) old
    | None => old
    end.
Proof.
  revert old. induction es as [|[a f] es IH]; intros old Hnd Hkey; [done|].
  apply NoDup_cons in Hnd as [Hnotin Hnd].
  apply Forall_cons in Hkey as [Ha Hkey]. simpl in *.
  rewrite IH by done. destruct (decide (addr = a)) as [->|Hne].
  - rewrite lookup_insert_eq.
    rewrite (not_elem_of_list_to_map_1 _ a) by done. done.
  - rewrite lookup_insert_ne by done.
    assert (inherit_upd Debug gob dep i (a, f) (i, addr) old = old) as ->;
      [|done].
    unfold inherit_upd. simpl. rewrite Ha.
    rewrite (bool_decide_eq_false_2 (addr = a)) by done.
    by rewrite andb_false_r.
Qed.

Lemma inherit_other_index dep i (es : list (nat * (Object * analysis.Lemma)))
    j addr old :
  j ≠ i →
  foldl (λ v e, inherit_upd Debug gob dep i e (j, addr) v) old es = old.
Proof.
  intros Hne. induction es as [|e es IH]; [done|]. simpl.
  assert (inherit_upd Debug gob dep i e (j, addr) old = old) as ->; [|done].
  unfold inherit_upd. simpl. rewrite (bool_decide_eq_false_2 (j = i)) by done.
  by rewrite andb_false_r.
Qed.

Lemma keyed_by_address_lookup dep i m :
  keyed_by_address dep → act_objLemmas dep !! i = Some m →
  Forall (λ e : nat * (Object * analysis.Lemma), obj_addr e.2.1 = e.1)
         (map_to_list m).
Proof.
  intros Hkey Hi. eapply Forall_lookup_1 in Hkey; [|done].
  apply Forall_forall. intros [a f] Hin.
  apply elem_of_map_to_list in Hin. by apply (Hkey a f).
Qed.

(** What [inheritLemmas] makes of one index. *)
Lemma inherit_index_step dep act i act' :
  keyed_by_address dep →
  inherit_index Debug gob dep act i = Ok act' →
  ∃ m, act_objLemmas dep !! i = Some m
       ∧ (∀ a o lemma, m !! a = Some (o, lemma) →
            exportedFrom o (packages.Types (act_pkg dep)) = true →
            is_Ok (serialized Debug gob lemma))
       ∧ ∀ j addr,
           obj_fact act' j addr
           = if bool_decide (j = i) then
               match m !! addr with
               | Some f => inherit_upd Debug gob dep i (addr, f) (i, addr)
                                       (obj_fact act j addr)
               | None => obj_fact act j addr
               end
             else obj_fact act j addr.
Proof.
  intros Hkey. unfold inherit_index, index.
  destruct (act_objLemmas dep !! i) as [m|] eqn:Hm; [|done]. simpl.
  destruct (foldM (inherit_obj Debug gob dep i) act (map_to_list m))
    as [act1| |] eqn:Hobjs; [|done..]. simpl.
  destruct (act_pkgLemmas dep !! i) as [pm|]; [|done]. simpl.
  intros Hpkgs. exists m. split; [done|]. split.
  { intros a o lemma Hin Hexp.
    apply elem_of_map_to_list in Hin.
    destruct (foldM_steps _ _ _ _ _ Hobjs Hin) as (b0 & b1 & Hstep).
    by eapply inherit_obj_exported. }
  intros j addr.
  assert (obj_fact act' j addr = obj_fact act1 j addr) as ->.
  { assert (act_objLemmas act' = act_objLemmas act1) as Hsame.
    { apply (foldM_preserves (inherit_pkg Debug gob i)
               (λ b, act_objLemmas b = act_objLemmas act1))
        with (l := map_to_list pm) (b := act1); [|done..].
      intros b x b' Hstep <-. by eapply inherit_pkg_step. }
    unfold obj_fact. by rewrite Hsame. }
  pose proof (foldM_observe (inherit_obj Debug gob dep i)
                (λ b k, obj_fact b k.1 k.2) (inherit_upd Debug gob dep i)
                (inherit_obj_step dep i) _ _ _ Hobjs (j, addr)) as Hobs.
  simpl in Hobs. rewrite Hobs.
  case_bool_decide as Hj.
  - subst j. rewrite inherit_entries.
    + by rewrite list_to_map_to_list.
    + apply NoDup_fst_map_to_list.
    + by eapply keyed_by_address_lookup.
  - by apply inherit_other_index.
Qed.

(** The loop of [inheritLemmas] over the indices. *)
Lemma inherit_indices dep l act act' :
  keyed_by_address dep → NoDup l →
  foldM (inherit_index Debug gob dep) act l = Ok act' →
  ∀ i addr,
    (i ∈ l →
     ∃ m, act_objLemmas dep !! i = Some m
          ∧ (∀ a o lemma, m !! a = Some (o, lemma) →
               exportedFrom o (packages.Types (act_pkg dep)) = true →
               is_Ok (serialized Debug gob lemma))
          ∧ obj_fact act' i addr
            = match m !! addr with
              | Some f => inherit_upd Debug gob dep i (addr, f) (i, addr)
                                      (obj_fact act i addr)
              | None => obj_fact act i addr
              end)
    ∧ (i ∉ l → obj_fact act' i addr = obj_fact act i addr).
Proof.
  intros Hkey. revert act.
  induction l as [|i0 l IH]; intros act Hnd Hfold i addr; simpl in Hfold.
  - injection Hfold as <-. split; [by intros ?%elem_of_nil|done].
  - destruct (inherit_index Debug gob dep act i0) as [act1| |] eqn:Hstep;
      [|done..]. simpl in Hfold.
    apply NoDup_cons in Hnd as [Hnotin Hnd].
    destruct (inherit_index_step dep act i0 act1 Hkey Hstep)
      as (m0 & Hm0 & Hok0 & Hlook).
    destruct (IH act1 Hnd Hfold i addr) as [IHin IHout].
    split.
    + intros [->|Hin]%elem_of_cons.
      * exists m0. split; [done|]. split; [done|].
        rewrite IHout by done. rewrite Hlook.
        by rewrite bool_decide_eq_true_2.
      * destruct (IHin Hin) as (m & Hm & Hok & Hres).
        exists m. split; [done|]. split; [done|].
        rewrite Hres, Hlook.
        rewrite bool_decide_eq_false_2; [done|]. by intros ->.
    + intros Hout. apply not_elem_of_cons in Hout as [Hne Hout].
      rewrite IHout by done. rewrite Hlook.
      by rewrite bool_decide_eq_false_2.
Qed.

(** C3, as the code has it.  [exportedFrom] holds exactly for the
    visible objects: the exported functions and variables owned by the
    producing package, and the methods, fields, type names and constants
    of any package.  When an action inherits the object facts of a
    dependency, the fact of an object is copied if and only if
    [exportedFrom] holds for the object and the package of the
    dependency; so the facts on functions and variables of other
    packages stay behind, and those on methods, fields, type names and
    constants of other packages are propagated. *)
Theorem inheritLemmas_copies_visible act dep act' :
  keyed_by_address dep →
  inheritLemmas Debug gob act dep = Ok act' →
  (∀ o pkg, exportedFrom o pkg = true ↔ visible_across o pkg)
  ∧ ∀ i addr,
      (i < length (analysis.LemmaTypes (act_a dep)))%nat →
      match obj_fact dep i addr with
      | Some (o, lemma) =>
          if exportedFrom o (packages.Types (act_pkg dep))
          then ∃ new, serialized Debug gob lemma = Ok new
                      ∧ obj_fact act' i addr = Some (o, new)
          else obj_fact act' i addr = obj_fact act i addr
      | None => obj_fact act' i addr = obj_fact act i addr
      end.
Proof.
  intros Hkey Hinh. split; [apply exportedFrom_visible|].
  intros i addr Hi. unfold inheritLemmas in Hinh.
  destruct (inherit_indices dep _ act act' Hkey (NoDup_seq _ _) Hinh i addr)
    as [Hin _].
  destruct Hin as (m & Hm & Hok & Hres).
  { apply elem_of_seq. lia. }
  unfold obj_fact at 1. rewrite Hm. simpl.
  destruct (m !! addr) as [[o lemma]|] eqn:Hf; [|done].
  rewrite Hres. unfold inherit_upd. simpl.
  pose proof (keyed_by_address_lookup dep i m Hkey Hm) as Hk.
  rewrite Forall_forall in Hk.
  assert (obj_addr o = addr) as Haddr.
  { apply (Hk (addr, (o, lemma))). by apply elem_of_map_to_list. }
  destruct (exportedFrom o _) eqn:Hexp; [|done].
  destruct (Hok addr o lemma Hf Hexp) as [new Hnew].
  exists new. split; [done|].
  rewrite !bool_decide_eq_true_2 by done. simpl. by rewrite Hnew.
Qed.

End inherit_facts.

Lemma inheritLemmas_copies_visible_witness :
  ∃ act',
    checker.inheritLemmas "" examples.gob_id
      examples.facts_at_c examples.facts_at_b = Ok act'
    ∧ spec.obj_fact act' 0 40 = Some (examples.a_T, examples.wrapper)
    ∧ spec.obj_fact act' 0 41 = None.
Proof.
  eexists. split; [vm_compute; reflexivity|].
  assert (spec.keyed_by_address examples.facts_at_b) as Hkey.
  { repeat constructor. apply map_Forall_to_list. vm_compute.
    repeat constructor. }
  match goal with
  | |- spec.obj_fact ?act' _ _ = _ ∧ _ =>
      assert (checker.inheritLemmas "" examples.gob_id
                examples.facts_at_c examples.facts_at_b = Ok act') as Hinh
        by (vm_compute; reflexivity);
      destruct (inheritLemmas_copies_visible "" examples.gob_id
                  _ _ _ Hkey Hinh) as [_ Hcopy]
  end.
  split.
  - destruct (Hcopy 0%nat 40%nat) as (new & Hnew & ->); [simpl; lia|].
    by injection Hnew as <-.
  - by rewrite (Hcopy 0%nat 41%nat) by (simpl; lia).
Defined.

(** The last part of C3 as stated fails: the fact on the type [T] of
    package [a], which the action on [b] has inherited, is propagated from
    the action on [b] to the action on [c], although [T] belongs to a
    package that [b] imports. *)
Lemma imported_object_fact_propagates :
  types.Pkg examples.a_T
  ≠ Some (packages.Types (checker.act_pkg examples.facts_at_b))
  ∧ spec.obj_fact examples.facts_at_b 0 40
    = Some (examples.a_T, examples.wrapper)
  ∧ ∃ act',
      checker.inheritLemmas "" examples.gob_id
        examples.facts_at_c examples.facts_at_b = Ok act'
      ∧ spec.obj_fact act' 0 40 = Some (examples.a_T, examples.wrapper).
Proof.
  split; [by vm_compute|]. split; [by vm_compute|].
  eexists. split; vm_compute; reflexivity.
Qed.

(** ** The fact file writer *)

Section sort_facts.
Context {A : Type} (less : A → A → bool).

Lemma sift_Permutation x before : gosort.sift less x before ≡ₚ x :: before.
Proof.
  induction before as [|y before IH]; simpl; [done|].
  destruct (less x y); [|done]. rewrite IH. apply perm_swap.
Qed.

Lemma Slice_Permutation data : gosort.Slice less data ≡ₚ data.
Proof.
  unfold gosort.Slice. rewrite reverse_Permutation.
  assert (∀ before, foldl (λ before x, gosort.sift less x before) before data
                    ≡ₚ before ++ data) as Hfold; [|apply (Hfold [])].
  induction data as [|x data IH]; intros before; simpl.
  - by rewrite app_nil_r.
  - rewrite IH, sift_Permutation. simpl. apply Permutation_middle.
Qed.
End sort_facts.

Section insertion_sort_facts.
Context {A : Type} (less : A → A → bool).
Context (less_asym : ∀ x y, less x y = true → less y x = false).
Context (less_negtrans :
           ∀ x y z, less x y = false → less y z = false → less x z = false).

Lemma sift_sorted x before :
  StronglySorted (λ a b, less a b = false) before →
  StronglySorted (λ a b, less a b = false) (gosort.sift less x before).
Proof.
  induction before as [|y before IH]; simpl; intros Hsorted.
  - repeat constructor.
  - apply StronglySorted_inv in Hsorted as [Hbefore Hy].
    destruct (less x y) eqn:Hxy.
    + constructor; [by apply IH|].
      rewrite sift_Permutation. constructor; [by apply less_asym|done].
    + constructor; [by constructor|]. constructor; [done|].
      eapply Forall_impl; [exact Hy|]. intros z Hyz. by eapply less_negtrans.
Qed.

(** [sort.Slice] leaves no element less than an earlier one. *)
Lemma Slice_sorted data :
  StronglySorted (λ a b, less b a = false) (gosort.Slice less data).
Proof.
  unfold gosort.Slice.
  assert (∀ before,
            StronglySorted (λ a b, less a b = false) before →
            StronglySorted (λ a b, less a b = false)
              (foldl (λ before x, gosort.sift less x before) before data))
    as Hfold.
  { induction data as [|x data IH]; intros before Hb; simpl; [done|].
    apply IH. by apply sift_sorted. }
  specialize (Hfold [] (SSorted_nil _)).
  revert Hfold. generalize (foldl (λ before x, gosort.sift less x before) [] data).
  intros l Hl. induction Hl as [|a l Hl IH Ha]; [constructor|].
  rewrite reverse_cons. apply StronglySorted_app_2; [|done|repeat constructor].
  intros x1 x2 Hx1 ->%list_elem_of_singleton.
  rewrite elem_of_reverse in Hx1. by eapply Forall_forall in Ha.
Qed.
End insertion_sort_facts.

Section less_facts.
Import doctor spec.

Lemma ltb_leb (s1 s2 : string) : String.ltb s1 s2 = negb (String.leb s2 s1).
Proof.
  unfold String.ltb, String.leb. rewrite (String.compare_antisym s2 s1).
  by destruct (String.compare s1 s2).
Qed.

Lemma ltb_false (s1 s2 : string) : String.ltb s1 s2 = false ↔ String.le s2 s1.
Proof.
  rewrite ltb_leb. unfold String.le.
  destruct (String.leb s2 s1); simpl; split; done.
Qed.

(** The comparison of [writeLemmas] orders the records by the pair of
    their object path and the name of their fact type. *)
Lemma less_false x y :
  less x y = false ↔
    String.le (Object y) (Object x)
    ∧ (Object x = Object y →
       String.le (analysis.rt_String (analysis.lemma_type (Lemma_ y)))
                 (analysis.rt_String (analysis.lemma_type (Lemma_ x)))).
Proof.
  unfold less. destruct (String.eqb_spec (Object x) (Object y)) as [Heq|Hne];
    simpl.
  - rewrite Heq. case_bool_decide as Hty; simpl.
    + rewrite Hty. split; [|done]. intros _. split; [done|]. by intros _.
    + rewrite ltb_false. split.
      * intros Hle. split; [done|]. by intros _.
      * intros [_ Hle]. by apply Hle.
  - rewrite ltb_false. split.
    + intros Hle. split; [done|]. by intros Heq.
    + by intros [Hle _].
Qed.

Lemma ltb_asym (s1 s2 : string) :
  String.ltb s1 s2 = true → String.ltb s2 s1 = false.
Proof.
  rewrite !ltb_leb. intros Hlt%negb_true_iff.
  destruct (String.leb_total s1 s2) as [->| Hle]; [done|congruence].
Qed.

Lemma less_asym x y : less x y = true → less y x = false.
Proof.
  unfold less. rewrite (String.eqb_sym (Object y) (Object x)).
  destruct (String.eqb (Object x) (Object y)); simpl; [|apply ltb_asym].
  repeat case_bool_decide; simpl; try done; try congruence. apply ltb_asym.
Qed.

Lemma less_negtrans x y z :
  less x y = false → less y z = false → less x z = false.
Proof.
  rewrite !less_false. intros [Hyx Hsyx] [Hzy Hszy]. split; [by etrans|].
  intros Hxz. rewrite Hxz in Hyx.
  assert (Object y = Object z) as Hyz by (by apply (anti_symm String.le)).
  etrans; [by apply Hszy|]. apply Hsyx. by rewrite Hxz.
Qed.

End less_facts.

Section writer_facts.
Import types objectpath doctor spec.
Context (W : World).

Lemma gather_fold visit gobLemmas :
  foldM (gather W) gobLemmas visit
  = Ok (gobLemmas ++ omap (surviving_record W) visit).
Proof.
  revert gobLemmas.
  induction visit as [|[k lemma] visit IH]; intros gobLemmas; simpl.
  - by rewrite app_nil_r.
  - unfold surviving_record at 1. simpl. destruct (obj k) as [o|]; simpl.
    + pose proof (Of_no_panic W o) as Hnp.
      destruct (Of W o) as [path|e|msg]; simpl.
      * by rewrite IH, <-app_assoc.
      * apply IH.
      * destruct Hnp. by eexists.
    + by rewrite IH, <-app_assoc.
Qed.

Lemma writeLemmas_Permutation visit :
  ∃ out, writeLemmas W visit = Ok out
         ∧ out ≡ₚ omap (surviving_record W) visit.
Proof.
  unfold writeLemmas. rewrite gather_fold. simpl. eexists.
  split; [reflexivity|]. apply Slice_Permutation.
Qed.

(** C7.  Whatever the order in which the fact store is visited, the
    writer ends normally and the records it writes are, up to their
    order, one for every package fact and one for every object fact
    whose object [Of] can encode; an object fact whose object [Of]
    cannot encode contributes no record and causes no error. *)
Theorem writeLemmas_skips_unencodable visit :
  ∃ out,
    writeLemmas W visit = Ok out
    ∧ out ≡ₚ omap (surviving_record W) visit
    ∧ (∀ k lemma o,
         obj k = Some o → is_Err (Of W o) →
         surviving_record W (k, lemma) = None)
    ∧ (∀ k lemma o path,
         obj k = Some o → Of W o = Ok path →
         surviving_record W (k, lemma)
         = Some {| Object := path; PkgPath := ""; Lemma_ := lemma |}).
Proof.
  destruct (writeLemmas_Permutation visit) as (out & Hout & Hperm).
  exists out. split; [done|]. split; [done|]. split.
  - intros k lemma o Ho [e He]. unfold surviving_record. simpl.
    by rewrite Ho, He.
  - intros k lemma o path Ho Hpath. unfold surviving_record. simpl.
    by rewrite Ho, Hpath.
Qed.

(** The records of the fact file ascend by object path and fact type
    name. *)
Lemma writeLemmas_ascending visit out :
  writeLemmas W visit = Ok out → ascending out.
Proof.
  unfold writeLemmas. rewrite gather_fold. simpl. intros [= <-].
  apply Slice_sorted; [apply less_asym|apply less_negtrans].
Qed.

(** X20.  The fact file is deterministic when the comparison tells the
    records apart: if no two different records that the store gives
    tie under the comparison of [writeLemmas], two runs that visit the
    store in different orders write the same records in the same
    order. *)
Lemma writeLemmas_deterministic_without_ties ls visit visit' :
  visits ls visit → visits ls visit' →
  (∀ x y, x ∈ omap (surviving_record W) visit →
          y ∈ omap (surviving_record W) visit → tie x y → x = y) →
  writeLemmas W visit = writeLemmas W visit'.
Proof.
  intros Hv Hv' Hties.
  destruct (writeLemmas_Permutation visit) as (out & Hout & Hperm).
  destruct (writeLemmas_Permutation visit') as (out' & Hout' & Hperm').
  rewrite Hout, Hout'. f_equal.
  assert (omap (surviving_record W) visit'
          ≡ₚ omap (surviving_record W) visit) as Hsame.
  { apply omap_Permutation. by rewrite Hv, Hv'. }
  apply (StronglySorted_unique_strong (λ x y, less y x = false)).
  - intros x y Hx Hy Hyx Hxy. apply Hties.
    + by rewrite <-Hperm.
    + by rewrite <-Hsame, <-Hperm'.
    + by split.
  - by eapply writeLemmas_ascending.
  - by eapply writeLemmas_ascending.
  - by rewrite Hperm, Hperm', Hsame.
Qed.

End writer_facts.

(** C6, on the code: the fact store of package [b] holds a package fact of
    the same type for [a] and for [b].  The comparison of [writeLemmas]
    leaves the two records unordered, so the fact file lists them in the
    order in which the map happened to be visited: two runs on the same
    store write different files. *)
Theorem writeLemmas_depends_on_visit_order :
  doctor.visits examples.b_lemmas examples.visit_ab
  ∧ doctor.visits examples.b_lemmas examples.visit_ba
  ∧ doctor.writeLemmas examples.vetx_world examples.visit_ab
    ≠ doctor.writeLemmas examples.vetx_world examples.visit_ba.
Proof.
  split; [|split].
  - unfold doctor.visits. vm_compute. reflexivity.
  - unfold doctor.visits. vm_compute. apply perm_swap.
  - vm_compute. discriminate.
Qed.

(** ** The fact file reader and the accumulation of facts *)

Section foldM_elem.
Context {E A B : Type} (f : B → A → outcome E B) (P : B → Prop).

(** What one step establishes and every step preserves holds after the
    loop. *)
Lemma foldM_establishes x l b b' :
  x ∈ l →
  (∀ b0 b1, f b0 x = Ok b1 → P b1) →
  (∀ b0 y b1, f b0 y = Ok b1 → P b0 → P b1) →
  foldM f b l = Ok b' → P b'.
Proof.
  intros Hin Hx Hpres. revert b.
  induction l as [|y l IH]; intros b Hfold; [by inv Hin|].
  simpl in Hfold. destruct (f b y) as [b1| |] eqn:Hf; [|done..].
  simpl in Hfold. inv Hin.
  - eapply (foldM_preserves f P); eauto.
  - eauto.
Qed.
End foldM_elem.

Section foldM_member.
Context {E A B : Type} (f : B → A → outcome E B) (P : B → Prop).

(** A property that the steps on the elements of the list preserve is
    preserved by the loop. *)
Lemma foldM_preserves_elem l :
  (∀ b x b', x ∈ l → f b x = Ok b' → P b → P b') →
  ∀ b b', foldM f b l = Ok b' → P b → P b'.
Proof.
  induction l as [|x l IH]; intros Hstep b b' Hfold Hb; simpl in *.
  - by injection Hfold as <-.
  - destruct (f b x) as [b1| |] eqn:Hf; [|done..]. simpl in Hfold.
    apply (IH (λ b0 y b2 Hy, Hstep b0 y b2 (list_elem_of_further _ _ _ Hy))
              b1 b' Hfold).
    by apply (Hstep b x b1 (list_elem_of_here _ _)).
Qed.
End foldM_member.

Section reader_objects.
Import types objectpath doctor spec.
Context (W : World).
Context (ReadFile : string → option string).
Context (gob_decode : string → option (list gobLemma)).
Context (inputFiles : gmap string string) (pkg_ : nat).
Context (calls : list (analysis.Analysis * analysis.call)).

Lemma keys_met_insert m key lemma :
  keys_met W ReadFile gob_decode inputFiles pkg_ calls m →
  (∀ o, obj key = Some o →
        met_object W ReadFile gob_decode inputFiles pkg_ calls o) →
  keys_met W ReadFile gob_decode inputFiles pkg_ calls
           (<[key_id key := (key, lemma)]> m).
Proof.
  intros Hm Hkey id k v o. rewrite lookup_insert.
  case_decide as Hid; [|apply Hm]. intros [= <- <-]. apply Hkey.
Qed.

Lemma read_record_met imp m l m' :
  read_from_import W ReadFile gob_decode inputFiles pkg_ imp l →
  read_record W imp m l = Ok m' →
  keys_met W ReadFile gob_decode inputFiles pkg_ calls m →
  keys_met W ReadFile gob_decode inputFiles pkg_ calls m'.
Proof.
  intros Hl. unfold read_record.
  destruct (String.eqb_spec (PkgPath l) "") as [Hpkg|Hpkg]; simpl.
  - destruct (FindObject W imp (Object l)) as [o|e|msg] eqn:Ho; [| |done].
    + intros [= <-] Hm. apply keys_met_insert; [done|].
      intros o' [= <-]. left. by exists imp, l.
    + by intros [= <-].
  - intros [= <-] Hm. by apply keys_met_insert.
Qed.

Lemma read_import_met m imp m' :
  imp ∈ Imports (package W pkg_) →
  read_import W ReadFile gob_decode inputFiles m imp = Ok m' →
  keys_met W ReadFile gob_decode inputFiles pkg_ calls m →
  keys_met W ReadFile gob_decode inputFiles pkg_ calls m'.
Proof.
  intros Himp. unfold read_import.
  destruct (inputFiles !! _) as [filename|] eqn:Hfile; [|by intros [= <-]].
  destruct (ReadFile filename) as [data|] eqn:Hread; [|done].
  destruct (gob_decode data) as [lemmas|] eqn:Hdec; [|done].
  apply foldM_preserves_elem. intros b l b' Hl.
  apply read_record_met. split; [done|]. by exists filename, data, lemmas.
Qed.

Lemma readLemmas_met ls :
  readLemmas W ReadFile gob_decode inputFiles pkg_ = Ok ls →
  keys_met W ReadFile gob_decode inputFiles pkg_ calls (m ls).
Proof.
  unfold readLemmas.
  destruct (foldM _ _ _) as [m0| |] eqn:Hfold; [|done..].
  intros [= <-]. simpl.
  eapply (foldM_preserves_elem _ _ _ _ _ _ Hfold).
  Unshelve.
  - intros ? ? ? ?. by rewrite lookup_empty.
  - intros b imp b' Himp. by apply read_import_met.
Qed.

Lemma unit_set_met a c ls ls' :
  (a, c) ∈ calls →
  unit_set W a c ls = Ok ls' →
  keys_met W ReadFile gob_decode inputFiles pkg_ calls (m ls) →
  keys_met W ReadFile gob_decode inputFiles pkg_ calls (m ls').
Proof.
  intros Hc. unfold unit_set. destruct c as [o lemma|lemma];
    destruct (checkLemma a lemma); simpl; try done.
  - unfold setObj. destruct (negb _); [done|]. intros [= <-] Hm. simpl.
    apply keys_met_insert; [done|]. intros o' [= <-]. right.
    by exists a, lemma.
  - intros [= <-] Hm. simpl. by apply keys_met_insert.
Qed.

End reader_objects.

Section reader_facts.
Import types objectpath doctor spec.
Context (W : World).
Context (ReadFile : string → option string).
Context (gob_decode : string → option (list gobLemma)).

Lemma well_keyed_insert m key lemma :
  well_keyed m → t key = analysis.lemma_type lemma →
  well_keyed (<[key_id key := (key, lemma)]> m).
Proof.
  intros Hwk Ht id k v. rewrite lookup_insert.
  case_decide as Hid; [|apply Hwk]. by intros [= <- <-].
Qed.

Lemma insert_keeps {V} (m : gmap (option nat * string * analysis.rtype) V)
    id id' v :
  is_Some (m !! id) → is_Some (<[id' := v]> m !! id).
Proof.
  intros Hm. rewrite lookup_insert. by case_decide.
Qed.

(** Reading a record keeps the map well keyed and forgets no key. *)
Lemma read_record_keeps imp m l m' :
  read_record W imp m l = Ok m' →
  (well_keyed m → well_keyed m')
  ∧ ∀ id, is_Some (m !! id) → is_Some (m' !! id).
Proof.
  unfold read_record. destruct (negb _).
  - intros [= <-]. split; [intros; by apply well_keyed_insert|].
    intros; by apply insert_keeps.
  - destruct (FindObject W imp (Object l)) as [o|e|msg]; [| |done].
    + intros [= <-]. split; [intros; by apply well_keyed_insert|].
      intros; by apply insert_keeps.
    + by intros [= <-].
Qed.

(** Reading a record stores it under its key. *)
Lemma read_record_stores imp m l m' id :
  read_record W imp m l = Ok m' → record_id W imp l = Some id →
  is_Some (m' !! id).
Proof.
  unfold read_record, record_id. destruct (negb _).
  - intros [= <-] [= <-]. simpl. rewrite lookup_insert_eq. by eexists.
  - destruct (FindObject W imp (Object l)) as [o|e|msg]; [|done..].
    intros [= <-] [= <-]. simpl. rewrite lookup_insert_eq. by eexists.
Qed.

Lemma read_import_keeps inputFiles m imp m' :
  read_import W ReadFile gob_decode inputFiles m imp = Ok m' →
  (well_keyed m → well_keyed m')
  ∧ ∀ id, is_Some (m !! id) → is_Some (m' !! id).
Proof.
  unfold read_import.
  destruct (inputFiles !! _) as [filename|]; [|by intros [= <-]].
  destruct (ReadFile filename) as [data|]; [|done].
  destruct (gob_decode data) as [lemmas|]; [|done].
  intros Hfold. split.
  - apply (foldM_preserves (read_record W imp) well_keyed) with (l := lemmas);
      [|done]. intros b x b' Hstep. by apply (read_record_keeps imp b x b').
  - intros id.
    apply (foldM_preserves (read_record W imp) (λ b, is_Some (b !! id)))
      with (l := lemmas); [|done].
    intros b x b' Hstep. by apply (read_record_keeps imp b x b').
Qed.

(** After [readLemmas], every record of the fact file of a direct import
    that survives reading has an entry under its key. *)
Lemma readLemmas_stores inputFiles pkg_ ls imp l id :
  readLemmas W ReadFile gob_decode inputFiles pkg_ = Ok ls →
  read_from_import W ReadFile gob_decode inputFiles pkg_ imp l →
  record_id W imp l = Some id →
  well_keyed (m ls) ∧ is_Some (m ls !! id).
Proof.
  unfold readLemmas.
  destruct (foldM _ _ _) as [m0| |] eqn:Hfold; [|done..].
  intros [= <-] (Himp & filename & data & lemmas & Hfile & Hread & Hdec & Hl)
         Hid. simpl. split.
  - apply (foldM_preserves (read_import W ReadFile gob_decode inputFiles)
             well_keyed) with (l := Imports (package W pkg_)) (b := ∅);
      [|done|].
    + intros b x b' Hstep. by apply (read_import_keeps inputFiles b x b').
    + intros ? ? ?. by rewrite lookup_empty.
  - apply (foldM_establishes (read_import W ReadFile gob_decode inputFiles)
             (λ b, is_Some (b !! id)) imp (Imports (package W pkg_)) ∅);
      [done| |  |done].
    + intros b0 b1. unfold read_import. rewrite Hfile, Hread, Hdec.
      apply (foldM_establishes (read_record W imp)
               (λ b, is_Some (b !! id)) l lemmas); [done|..].
      * intros b2 b3 Hstep. by eapply read_record_stores.
      * intros b2 y b3 Hstep. by apply (read_record_keeps imp b2 y b3).
    + intros b0 y b1 Hstep.
      by apply (read_import_keeps inputFiles b0 y b1).
Qed.

(** The fact setters keep the store well keyed and forget no key. *)
Lemma unit_set_keeps a c ls ls' :
  unit_set W a c ls = Ok ls' →
  (well_keyed (m ls) → well_keyed (m ls'))
  ∧ ∀ id, is_Some (m ls !! id) → is_Some (m ls' !! id).
Proof.
  unfold unit_set. destruct c as [o lemma|lemma];
    destruct (checkLemma a lemma); simpl; try done.
  - unfold setObj. destruct (negb _); [done|]. intros [= <-]. simpl.
    split; [intros; by apply well_keyed_insert|].
    intros; by apply insert_keeps.
  - intros [= <-]. simpl.
    split; [intros; by apply well_keyed_insert|].
    intros; by apply insert_keeps.
Qed.

Lemma run_analyses_keeps calls ls ls' :
  run_analyses W calls ls = Ok ls' →
  (well_keyed (m ls) → well_keyed (m ls'))
  ∧ ∀ id, is_Some (m ls !! id) → is_Some (m ls' !! id).
Proof.
  unfold run_analyses. intros Hfold. split.
  - apply (foldM_preserves (λ ls c, unit_set W c.1 c.2 ls)
             (λ ls, well_keyed (m ls))) with (l := calls); [|done].
    intros b x b' Hstep. by apply (unit_set_keeps x.1 x.2 b b').
  - intros id.
    apply (foldM_preserves (λ ls c, unit_set W c.1 c.2 ls)
             (λ ls, is_Some (m ls !! id))) with (l := calls); [|done].
    intros b x b' Hstep. by apply (unit_set_keeps x.1 x.2 b b').
Qed.

(** An entry of the store that has a record has it in the fact file. *)
Lemma written ls visit out id k v r :
  visits ls visit → writeLemmas W visit = Ok out →
  m ls !! id = Some (k, v) → surviving_record W (k, v) = Some r →
  r ∈ out.
Proof.
  intros Hvisit Hwrite Hentry Hrec.
  destruct (writeLemmas_Permutation W visit) as (out' & Hout & Hperm).
  rewrite Hwrite in Hout. injection Hout as <-. rewrite Hperm.
  apply list_elem_of_omap. exists (k, v). split; [|done].
  rewrite Hvisit. apply list_elem_of_fmap. exists (id, (k, v)).
  split; [done|]. by apply elem_of_map_to_list.
Qed.

Lemma run_analyses_met inputFiles pkg_ calls ls ls' :
  run_analyses W calls ls = Ok ls' →
  keys_met W ReadFile gob_decode inputFiles pkg_ calls (m ls) →
  keys_met W ReadFile gob_decode inputFiles pkg_ calls (m ls').
Proof.
  unfold run_analyses.
  apply (foldM_preserves_elem (λ ls c, unit_set W c.1 c.2 ls)
           (λ ls, keys_met W ReadFile gob_decode inputFiles pkg_ calls (m ls))).
  intros b [a c] b' Hin. by apply unit_set_met.
Qed.


End reader_facts.

(** The three packages of [examples.vetx_world], analysed one after the
    other: the driver writes [z_vetx] for [z], then [a_vetx] for [a], then
    [b_vetx] for [b]. *)
Lemma main_writes_vetx :
  doctor.main_writes examples.vetx_world examples.ReadFile examples.gob_decode
    examples.vetx_files 3 examples.calls_on_z examples.z_vetx
  ∧ doctor.main_writes examples.vetx_world examples.ReadFile
      examples.gob_decode examples.vetx_files 1 examples.calls_on_a
      examples.a_vetx
  ∧ doctor.main_writes examples.vetx_world examples.ReadFile
      examples.gob_decode examples.vetx_files 2 examples.calls_on_b
      examples.b_vetx.
Proof.
  split; [|split]; unfold doctor.main_writes; eexists _, _, _;
    (split; [vm_compute; reflexivity|]);
    (split; [vm_compute; reflexivity|]);
    (split; [unfold doctor.visits; reflexivity|]);
    vm_compute; reflexivity.
Qed.

Lemma read_from_a (l : doctor.gobLemma) :
  l ∈ examples.a_vetx →
  spec.read_from_import examples.vetx_world examples.ReadFile
    examples.gob_decode examples.vetx_files 2 1 l.
Proof.
  intros Hl. split; [vm_compute; left|].
  exists "a.vetx", "a.vetx", examples.a_vetx. by repeat split.
Qed.

Lemma met_by_b o :
  spec.met_object examples.vetx_world examples.ReadFile
    examples.gob_decode examples.vetx_files 2 examples.calls_on_b o →
  o = examples.error_Error ∨ o = examples.a_F'.
Proof.
  intros [(imp & l & [Himp (filename & data & lemmas & Hfile & Hread & Hdec
                            & Hl)] & Hpkg & Ho)
         |(a & lemma & Hin)].
  - apply list_elem_of_singleton in Himp as ->.
    vm_compute in Hfile. injection Hfile as <-.
    injection Hread as <-.
    change (examples.gob_decode "a.vetx") with (Some examples.a_vetx) in Hdec.
    injection Hdec as <-. unfold examples.a_vetx in Hl.
    rewrite !elem_of_cons, elem_of_nil in Hl.
    destruct Hl as [->|[->|[->|[]]]].
    + done.
    + left. vm_compute in Ho. injection Ho as <-. reflexivity.
    + right. vm_compute in Ho. injection Ho as <-. reflexivity.
  - unfold examples.calls_on_b in Hin.
    apply list_elem_of_singleton in Hin. done.
Qed.

Lemma objects_by_address_b :
  spec.objects_by_address examples.vetx_world examples.ReadFile
    examples.gob_decode examples.vetx_files 2 examples.calls_on_b.
Proof.
  intros o1 o2 [->| ->]%met_by_b [->| ->]%met_by_b; done.
Qed.



(** ** The round trip of object paths *)

Section roundtrip_facts.
Import types objectpath spec.
Context (W : World) (obj : Object).

Lemma members_loop_Some f path ms r :
  members_loop W obj f path ms = Some r →
  ∃ m, m ∈ ms
       ∧ ((same m obj = true ∧ r = path ++ [EStr (Id W m)])
          ∨ f (path ++ [EStr (Id W m)]) (TypeOf m) = Some r).
Proof.
  induction ms as [|m ms IH]; simpl; [done|].
  destruct (same m obj) eqn:Hsame.
  - intros [= <-]. exists m. split; [apply list_elem_of_here|]. by left.
  - destruct (f _ _) as [r'|] eqn:Hf.
    + intros [= <-]. exists m. split; [apply list_elem_of_here|]. by right.
    + intros (m' & Hin & H)%IH. exists m'.
      split; [by apply list_elem_of_further|done].
Qed.

Lemma vars_loop_Some f path i vs r :
  vars_loop f path i vs = Some r →
  ∃ j v, vs !! j = Some v
         ∧ f (path ++ [EInt (Z.of_nat (i + j))]) (TypeOf v) = Some r.
Proof.
  revert i. induction vs as [|v vs IH]; intros i; simpl; [done|].
  destruct (f _ _) as [r'|] eqn:Hf.
  - intros [= <-]. exists 0%nat, v. by rewrite Nat.add_0_r.
  - intros (j & v' & Hj & H)%IH. exists (S j), v'. split; [done|].
    by replace (i + S j)%nat with (S i + j)%nat by lia.
Qed.

Lemma has_dot_app s1 s2 : has_dot (s1 +:+ s2) = has_dot s1 || has_dot s2.
Proof.
  induction s1 as [|c s1 IH]; [done|].
  rewrite string_app_cons. simpl. by rewrite IH, orb_assoc.
Qed.

Lemma Id_valid_exported o :
  validIdent (Id W o) = true → gostrings.IsExported (Name o) = true.
Proof.
  unfold Id, Id_of. destruct (gostrings.IsExported (Name o)); [done|].
  intros Hv%validIdent_no_dot. rewrite !has_dot_app in Hv.
  by rewrite orb_true_r in Hv.
Qed.

Lemma Id_exported o :
  gostrings.IsExported (Name o) = true → Id W o = Name o.
Proof. unfold Id, Id_of. by intros ->. Qed.

Lemma Id_valid o : validIdent (Id W o) = true → Id W o = Name o.
Proof. intros Hv. by apply Id_exported, Id_valid_exported. Qed.

Lemma Id_not_op o : is_op (Id W o) = false.
Proof.
  destruct (is_op (Id W o)) eqn:Hop; [|done].
  pose proof (is_op_no_dot _ Hop) as Hdot.
  unfold Id, Id_of in *. destruct (gostrings.IsExported (Name o)) eqn:Hexp.
  - apply is_op_cases in Hop.
    by destruct Hop as [H|[H|[H|[H|H]]]]; rewrite H in Hexp.
  - rewrite !has_dot_app in Hdot. by rewrite orb_true_r in Hdot.
Qed.

Lemma elem_ok_Id o : elem_ok (EStr (Id W o)) = true → validIdent (Id W o) = true.
Proof. simpl. by rewrite Id_not_op. Qed.

Lemma distinct_ids_cons x l :
  distinct_ids W (x :: l) = true →
  distinct_ids W l = true
  ∧ (validIdent (Id W x) = true →
     ∀ m, m ∈ l → Id W m = Id W x → False).
Proof.
  unfold distinct_ids. rewrite !bool_decide_eq_true, filter_cons.
  destruct (decide (validIdent (Id W x) = true)) as [Hx|Hx].
  - rewrite fmap_cons, NoDup_cons. intros [Hnotin Hnd]. split; [done|].
    intros _ m Hin Heq. destruct Hnotin. rewrite <-Heq.
    apply list_elem_of_fmap. exists m. split; [done|].
    apply list_elem_of_filter. split; [congruence|done].
  - intros Hnd. split; [done|]. done.
Qed.

Lemma first_with_Id l m :
  distinct_ids W l = true → m ∈ l → validIdent (Id W m) = true →
  first_with (λ f, String.eqb (Id W f) (Id W m)) l = Some m.
Proof.
  intros Hd Hin Hv. induction l as [|x l IH]; [by inv Hin|].
  apply distinct_ids_cons in Hd as [Hd Hx]. simpl.
  destruct (String.eqb_spec (Id W x) (Id W m)) as [Heq|Hne].
  - apply elem_of_cons in Hin as [->|Hin]; [done|].
    destruct (Hx ltac:(congruence) m); done.
  - apply elem_of_cons in Hin as [->|Hin]; [done|]. by apply IH.
Qed.

Lemma first_with_Name l m :
  distinct_ids W l = true → m ∈ l → validIdent (Id W m) = true →
  first_with (λ f, String.eqb (Name f) (Id W m)) l = Some m.
Proof.
  intros Hd Hin Hv. induction l as [|x l IH]; [by inv Hin|].
  apply distinct_ids_cons in Hd as [Hd Hx]. simpl.
  destruct (String.eqb_spec (Name x) (Id W m)) as [Heq|Hne].
  - apply elem_of_cons in Hin as [->|Hin]; [done|].
    assert (Id W x = Id W m) as Hid.
    { rewrite (Id_exported x); [done|].
      rewrite Heq, (Id_valid m Hv). by apply Id_valid_exported. }
    destruct (Hx ltac:(congruence) m); done.
  - apply elem_of_cons in Hin as [->|Hin];
      [by rewrite (Id_valid _ Hv) in Hne|]. by apply IH.
Qed.

Lemma findObject_Pointer path e :
  findObject W path (Pointer e) = findObject W path e.
Proof. by destruct path. Qed.
Lemma findObject_Slice path e :
  findObject W path (Slice e) = findObject W path e.
Proof. by destruct path. Qed.
Lemma findObject_Array path n e :
  findObject W path (Array n e) = findObject W path e.
Proof. by destruct path. Qed.
Lemma findObject_Chan path e :
  findObject W path (Chan e) = findObject W path e.
Proof. by destruct path. Qed.

Lemma findObject_Map_key rest k e :
  findObject W (EStr opKey :: rest) (Map k e) = findObject W rest k.
Proof. reflexivity. Qed.
Lemma findObject_Map_value rest k e :
  findObject W (EStr opValue :: rest) (Map k e) = findObject W rest e.
Proof. reflexivity. Qed.
Lemma findObject_params rest recv ps rs :
  findObject W (EStr opParams :: rest) (Signature recv ps rs)
  = findObject W rest ps.
Proof. reflexivity. Qed.
Lemma findObject_results rest recv ps rs :
  findObject W (EStr opResults :: rest) (Signature recv ps rs)
  = findObject W rest rs.
Proof. reflexivity. Qed.
Lemma findObject_Struct id rest fields :
  findObject W (EStr id :: rest) (Struct fields)
  = match first_with (λ fld, String.eqb (Id W fld) id) fields with
    | Some fld =>
        match rest with [] => Ok fld | _ => findObject W rest (TypeOf fld) end
    | None => Err (ErrNoField id)
    end.
Proof. reflexivity. Qed.
Lemma findObject_Interface id rest methods :
  findObject W (EStr id :: rest) (Interface methods)
  = match first_with (λ m, String.eqb (Id W m) id) methods with
    | Some m =>
        match rest with [] => Ok m | _ => findObject W rest (TypeOf m) end
    | None => Err (ErrNoIfaceMethod id)
    end.
Proof. reflexivity. Qed.
Lemma findObject_Tuple (j : nat) v rest vars :
  vars !! j = Some v →
  findObject W (EInt (Z.of_nat j) :: rest) (Tuple vars)
  = findObject W rest (TypeOf v).
Proof.
  intros Hj. pose proof (lookup_lt_Some _ _ _ Hj) as Hlt.
  change (findObject W (EInt (Z.of_nat j) :: rest) (Tuple vars))
    with (if Z.of_nat j >=? Z.of_nat (length vars) then Err ErrIndexRange
          else if Z.of_nat j <? 0 then Panic "index out of range"
          else match vars !! Z.to_nat (Z.of_nat j) with
               | Some v => findObject W rest (TypeOf v)
               | None => Panic "index out of range"
               end).
  destruct (Z.geb_spec (Z.of_nat j) (Z.of_nat (length vars))); [lia|].
  destruct (Z.ltb_spec (Z.of_nat j) 0); [lia|].
  by rewrite Nat2Z.id, Hj.
Qed.
Lemma findObject_Named_underlying rest ref :
  findObject W (EStr opUnderlying :: rest) (Named ref)
  = findObject W rest (Underlying (named W ref)).
Proof. reflexivity. Qed.
Lemma findObject_Named_method name rest ref :
  String.eqb name opUnderlying = false →
  findObject W (EStr name :: rest) (Named ref)
  = match first_with (λ m, String.eqb (Name m) name)
                     (Methods (named W ref)) with
    | Some m =>
        match rest with [] => Ok m | _ => findObject W rest (TypeOf m) end
    | None => Err (ErrNoMethod name)
    end.
Proof.
  intros Hne.
  change (findObject W (EStr name :: rest) (Named ref))
    with (if String.eqb name opUnderlying
          then findObject W rest (Underlying (named W ref))
          else match first_with (λ m, String.eqb (Name m) name)
                                (Methods (named W ref)) with
               | Some m =>
                   match rest with
                   | [] => Ok m
                   | _ => findObject W rest (TypeOf m)
                   end
               | None => Err (ErrNoMethod name)
               end).
  by rewrite Hne.
Qed.

(** What the encoder has found among the members of a struct, of an
    interface or of a named type. *)
Lemma members_found path ms r :
  Forall (λ m, ∀ path r, find W obj path (TypeOf m) = Some r →
                         found W obj (TypeOf m) path r) ms →
  members_loop W obj (find W obj) path ms = Some r →
  ∃ m rest, m ∈ ms ∧ r = path ++ EStr (Id W m) :: rest
            ∧ ((rest = [] ∧ same m obj = true)
               ∨ (rest ≠ [] ∧ decodes W obj (TypeOf m) rest)).
Proof.
  intros IH (m & Hin & Hm)%members_loop_Some.
  destruct Hm as [[Hsame ->]|Hfind].
  - exists m, []. split; [done|]. split; [done|]. by left.
  - rewrite Forall_forall in IH.
    destruct (IH m Hin _ _ Hfind) as (rest & -> & Hne & Hdec).
    exists m, rest. split; [done|]. split; [by rewrite <-app_assoc|].
    by right.
Qed.

Lemma wf_members (ms : list Object) m :
  forallb (λ f, wf_type W (TypeOf f)) ms = true → m ∈ ms →
  wf_type W (TypeOf m) = true.
Proof.
  rewrite forallb_forall. intros Hall Hin. apply Hall.
  by apply list_elem_of_In.
Qed.

(** The path that [find] returns extends the path it was given, and the
    decoder walks the extension back to the object. *)
Lemma find_found T :
  ∀ path r, find W obj path T = Some r → found W obj T path r.
Proof.
  induction T as [name|ref|e IH|e IH|len e IH|e IH|k e IHk IHe
                 |recv ps rs IHps IHrs|fields IH|vars IH|methods IH]
    using Type_nested_ind; intros path r; simpl.
  - done.
  - done.
  - intros (rest & -> & Hne & Hdec)%IH. exists rest.
    split; [done|]. split; [done|]. intros Hwf Hok.
    rewrite findObject_Pointer. by apply Hdec.
  - intros (rest & -> & Hne & Hdec)%IH. exists rest.
    split; [done|]. split; [done|]. intros Hwf Hok.
    rewrite findObject_Slice. by apply Hdec.
  - intros (rest & -> & Hne & Hdec)%IH. exists rest.
    split; [done|]. split; [done|]. intros Hwf Hok.
    rewrite findObject_Array. by apply Hdec.
  - intros (rest & -> & Hne & Hdec)%IH. exists rest.
    split; [done|]. split; [done|]. intros Hwf Hok.
    rewrite findObject_Chan. by apply Hdec.
  - destruct (find W obj (path ++ [EStr opKey]) k) as [r'|] eqn:Hk.
    + intros [= <-]. apply IHk in Hk as (rest & -> & Hne & Hdec).
      exists (EStr opKey :: rest). split; [by rewrite <-app_assoc|].
      split; [done|]. intros Hwf Hok. simpl in Hwf.
      apply andb_true_iff in Hwf as [Hwf _].
      apply Forall_cons in Hok as [_ Hok].
      rewrite findObject_Map_key. by apply Hdec.
    + intros (rest & -> & Hne & Hdec)%IHe.
      exists (EStr opValue :: rest). split; [by rewrite <-app_assoc|].
      split; [done|]. intros Hwf Hok. simpl in Hwf.
      apply andb_true_iff in Hwf as [_ Hwf].
      apply Forall_cons in Hok as [_ Hok].
      rewrite findObject_Map_value. by apply Hdec.
  - destruct (find W obj (path ++ [EStr opParams]) ps) as [r'|] eqn:Hps.
    + intros [= <-]. apply IHps in Hps as (rest & -> & Hne & Hdec).
      exists (EStr opParams :: rest). split; [by rewrite <-app_assoc|].
      split; [done|]. intros Hwf Hok. simpl in Hwf.
      apply andb_true_iff in Hwf as [Hwf _].
      apply Forall_cons in Hok as [_ Hok].
      rewrite findObject_params. by apply Hdec.
    + intros (rest & -> & Hne & Hdec)%IHrs.
      exists (EStr opResults :: rest). split; [by rewrite <-app_assoc|].
      split; [done|]. intros Hwf Hok. simpl in Hwf.
      apply andb_true_iff in Hwf as [_ Hwf].
      apply Forall_cons in Hok as [_ Hok].
      rewrite findObject_results. by apply Hdec.
  - intros (m & rest & Hin & -> & Hrest)%(members_found _ _ _ IH).
    exists (EStr (Id W m) :: rest). split; [done|]. split; [done|].
    intros Hwf Hok. simpl in Hwf. apply andb_true_iff in Hwf as [Hd Hwf].
    apply Forall_cons in Hok as [Hid Hok]. apply elem_ok_Id in Hid.
    rewrite findObject_Struct, (first_with_Id _ _ Hd Hin Hid).
    destruct Hrest as [[-> Hsame]|[Hne Hdec]]; [by exists m|].
    destruct rest; [done|]. apply Hdec; [|done]. by eapply wf_members.
  - intros (j & v & Hj & Hfind)%vars_loop_Some.
    rewrite Forall_forall in IH.
    destruct (IH v (list_elem_of_lookup_2 _ _ _ Hj) _ _ Hfind)
      as (rest & -> & Hne & Hdec).
    exists (EInt (Z.of_nat j) :: rest). split; [by rewrite <-app_assoc|].
    split; [done|]. intros Hwf Hok. simpl in Hwf.
    apply Forall_cons in Hok as [_ Hok].
    rewrite (findObject_Tuple _ _ _ _ Hj). apply Hdec; [|done].
    eapply wf_members; [done|]. by eapply list_elem_of_lookup_2.
  - intros (m & rest & Hin & -> & Hrest)%(members_found _ _ _ IH).
    exists (EStr (Id W m) :: rest). split; [done|]. split; [done|].
    intros Hwf Hok. simpl in Hwf. apply andb_true_iff in Hwf as [Hd Hwf].
    apply Forall_cons in Hok as [Hid Hok]. apply elem_ok_Id in Hid.
    rewrite findObject_Interface, (first_with_Id _ _ Hd Hin Hid).
    destruct Hrest as [[-> Hsame]|[Hne Hdec]]; [by exists m|].
    destruct rest; [done|]. apply Hdec; [|done]. by eapply wf_members.
Qed.

End roundtrip_facts.

Section roundtrip_top.
Import types objectpath spec.
Context (W : World) (obj : Object).

Lemma named_pass_inl scope names nontypes r :
  named_pass W obj scope names nontypes = Ok (inl r) →
  ∃ name o ref,
    name ∈ names ∧ Lookup scope name = Some o ∧ TypeOf o = Named ref
    ∧ (declared_methods W obj [EStr name] (Methods (named W ref)) = Some r
       ∨ find W obj ([EStr name] ++ [EStr opUnderlying])
                    (Underlying (named W ref)) = Some r).
Proof.
  revert nontypes. induction names as [|name names IH]; intros nontypes;
    simpl; [done|].
  destruct (Lookup scope name) as [o|] eqn:Hlook; [|done].
  assert (∀ nts, named_pass W obj scope names nts = Ok (inl r) →
                 ∃ name0 o0 ref,
                   name0 ∈ name :: names ∧ Lookup scope name0 = Some o0
                   ∧ TypeOf o0 = Named ref
                   ∧ (declared_methods W obj [EStr name0]
                        (Methods (named W ref)) = Some r
                      ∨ find W obj ([EStr name0] ++ [EStr opUnderlying])
                                   (Underlying (named W ref)) = Some r))
    as Hnext.
  { intros nts (name0 & o0 & ref & Hin & H)%IH.
    exists name0, o0, ref. split; [by apply list_elem_of_further|done]. }
  destruct (TypeOf o) as [| ref | | | | | | | | |] eqn:HT; try apply Hnext.
  destruct (declared_methods _ _ _ _) as [r'|] eqn:Hms.
  { intros [= <-]. exists name, o, ref.
    split; [apply list_elem_of_here|]. split; [done|]. split; [done|].
    by left. }
  destruct (find _ _ _ _) as [r'|] eqn:Hu; [|apply Hnext].
  intros [= <-]. exists name, o, ref.
  split; [apply list_elem_of_here|]. split; [done|]. split; [done|].
  by right.
Qed.

Lemma named_pass_inr scope names nontypes nts :
  named_pass W obj scope names nontypes = Ok (inr nts) →
  ∀ o, o ∈ nts →
       o ∈ nontypes
       ∨ ∃ name, Lookup scope name = Some o ∧ ∀ ref, TypeOf o ≠ Named ref.
Proof.
  revert nontypes. induction names as [|name names IH]; intros nontypes;
    simpl.
  { intros [= <-] o Hin. by left. }
  destruct (Lookup scope name) as [o0|] eqn:Hlook; [|done].
  assert (named_pass W obj scope names (nontypes ++ [o0]) = Ok (inr nts) →
          (∀ ref, TypeOf o0 ≠ Named ref) →
          ∀ o, o ∈ nts →
               o ∈ nontypes
               ∨ ∃ name, Lookup scope name = Some o
                         ∧ ∀ ref, TypeOf o ≠ Named ref) as Hother.
  { intros Hpass HT o Hin.
    destruct (IH _ Hpass o Hin) as [[Hold| ->%list_elem_of_singleton]
                                      %elem_of_app|Hnew];
      [by left| |by right].
    right. by exists name. }
  destruct (TypeOf o0) as [| ref | | | | | | | | |] eqn:HT;
    try (intros Hpass; by apply Hother).
  destruct (declared_methods _ _ _ _); [done|].
  destruct (find _ _ _ _); [done|]. apply IH.
Qed.

Lemma nontypes_pass_Ok nts r :
  nontypes_pass W obj nts = Ok r →
  ∃ o, o ∈ nts ∧ find W obj [EStr (Name o)] (TypeOf o) = Some r.
Proof.
  induction nts as [|o nts IH]; simpl; [done|].
  destruct (find _ _ _ _) as [r'|] eqn:Hfind.
  - intros [= <-]. exists o. split; [apply list_elem_of_here|done].
  - intros (o' & Hin & H)%IH. exists o'.
    split; [by apply list_elem_of_further|done].
Qed.

Lemma eqb_not_op s : is_op s = false → String.eqb s opUnderlying = false.
Proof.
  intros Hop. destruct (String.eqb_spec s opUnderlying) as [->|]; done.
Qed.

(** The path that the search of [pathOf] returns starts with the name
    of a package-level object and goes on with a path that the decoder
    walks back from the type of that object. *)
Lemma search_decodes scope r :
  map_Forall (λ name o, Name o = name ∧ wf_object W o = true) scope →
  search W obj scope = Ok r →
  ∃ name o rest,
    r = EStr name :: rest ∧ rest ≠ [] ∧ Lookup scope name = Some o
    ∧ (Forall (λ x, elem_ok x = true) rest →
       ∃ o', findObject W rest (TypeOf o) = Ok o' ∧ same o' obj = true).
Proof.
  intros Hwf. unfold search.
  destruct (named_pass W obj scope (Names scope) []) as [[r'|nts]| |]
    eqn:Hpass; simpl; [| |done..].
  - intros [= <-].
    apply named_pass_inl in Hpass
      as (name & o & ref & _ & Hlook & HT & Hfound).
    destruct (Hwf name o Hlook) as [_ Hwfo].
    unfold wf_object in Hwfo. rewrite HT in Hwfo. unfold wf_named in Hwfo.
    apply andb_true_iff in Hwfo as [Hwfo HwfU].
    apply andb_true_iff in Hwfo as [Hd Hwfm].
    exists name, o. rewrite HT.
    destruct Hfound as [Hms|HU].
    + unfold declared_methods in Hms.
      apply members_found in Hms as (m & rest & Hin & -> & Hrest).
      2:{ apply Forall_forall. intros ? _ ? ?. apply find_found. }
      exists (EStr (Id W m) :: rest). split; [done|]. split; [done|].
      split; [done|]. intros Hok.
      apply Forall_cons in Hok as [Hid Hok]. apply elem_ok_Id in Hid.
      rewrite findObject_Named_method by apply eqb_not_op, Id_not_op.
      rewrite (first_with_Name _ _ _ Hd Hin Hid).
      destruct Hrest as [[-> Hsame]|[Hne Hdec]]; [by exists m|].
      destruct rest; [done|]. apply Hdec; [|done]. by eapply wf_members.
    + apply find_found in HU as (rest & -> & Hne & Hdec).
      exists (EStr opUnderlying :: rest). split; [done|]. split; [done|].
      split; [done|]. intros Hok. apply Forall_cons in Hok as [_ Hok].
      rewrite findObject_Named_underlying. by apply Hdec.
  - intros (o & Hin & Hfind)%nontypes_pass_Ok.
    destruct (named_pass_inr _ _ _ _ Hpass o Hin)
      as [?%elem_of_nil|(name & Hlook & HT)]; [done|].
    destruct (Hwf name o Hlook) as [Hname Hwfo].
    apply find_found in Hfind as (rest & -> & Hne & Hdec).
    exists name, o, rest. rewrite Hname. split; [done|]. split; [done|].
    split; [done|]. intros Hok. apply Hdec; [|done].
    unfold wf_object in Hwfo. by destruct (TypeOf o).
Qed.

End roundtrip_top.

Section roundtrip.
Import types objectpath spec.

(** X1.  The round trip of object paths: when the encoder gives a path
    for an object, the elements of the path can be read back (its
    identifiers are identifiers to [parse], which excludes the qualified
    identifiers of unexported fields and methods) and the scope of the
    package is well formed (every object stands under its own name, and
    the fields of a struct and the methods of an interface or of a named
    type have distinct identifiers), then [Of] prints the path and
    [FindObject] decodes the printed path, in the package of the object,
    to that object. *)
Theorem FindObject_inverts_Of W obj p path :
  Pkg obj = Some p →
  wf_scope W p →
  pathOf W obj = Ok path →
  Forall (λ x, elem_ok x = true) path →
  ∃ s, Of W obj = Ok s
       ∧ ∃ o', FindObject W p s = Ok o' ∧ same o' obj = true.
Proof.
  intros Hpkg Hwf Hpath Hok. unfold Of. rewrite Hpath.
  exists (gostrings.Join (print_elem <$> path) "."). unfold FindObject.
  assert (∃ name o rest,
            path = EStr name :: rest
            ∧ Lookup (Scope (package W p)) name = Some o
            ∧ ((rest = [] ∧ same o obj = true)
               ∨ (rest ≠ []
                  ∧ ∃ o', findObject W rest (TypeOf o) = Ok o'
                          ∧ same o' obj = true)))
    as (name & o & rest & -> & Hlook & Hrest).
  { unfold pathOf in Hpath. rewrite Hpkg in Hpath.
    destruct (Lookup (Scope (package W p)) (Name obj)) as [o|] eqn:Hlook.
    - destruct (same o obj) eqn:Hsame.
      + injection Hpath as <-. exists (Name obj), o, [].
        split; [done|]. split; [done|]. by left.
      + assert (search W obj (Scope (package W p)) = Ok path) as Hsearch.
        { destruct (obj_kind obj); try done; by destruct (negb _). }
        apply search_decodes in Hsearch
          as (name & o0 & rest & -> & Hne & Hlook0 & Hdec); [|done].
        apply Forall_cons in Hok as [_ Hok].
        exists name, o0, rest. split; [done|]. split; [done|]. right. auto.
    - assert (search W obj (Scope (package W p)) = Ok path) as Hsearch.
      { destruct (obj_kind obj); try done; by destruct (negb _). }
      apply search_decodes in Hsearch
        as (name & o0 & rest & -> & Hne & Hlook0 & Hdec); [|done].
      apply Forall_cons in Hok as [_ Hok].
      exists name, o0, rest. split; [done|]. split; [done|]. right. auto. }
  assert (parse (gostrings.Join (print_elem <$> EStr name :: rest) ".")
          = Ok (EStr name :: rest)) as ->.
  { unfold parse. rewrite Split_dot_Join.
    - by apply parse_words_print.
    - done.
    - apply Forall_fmap. eapply Forall_impl; [done|]. apply elem_ok_no_dot. }
  split; [done|]. cbn [mbind outcome_bind].
  rewrite Hlook.
  destruct Hrest as [[-> Hsame]|[Hne (o' & Hfind & Hsame)]].
  - by exists o.
  - exists o'. by destruct rest.
Qed.

End roundtrip.

Lemma wf_scope_src : spec.wf_scope examples.src_world 0.
Proof.
  unfold spec.wf_scope. simpl.
  repeat (apply map_Forall_insert_2; [by vm_compute|]).
  apply map_Forall_empty.
Qed.

Lemma FindObject_inverts_Of_witness :
  ∃ s, objectpath.Of examples.src_world examples.M_X = Ok s
       ∧ ∃ o', objectpath.FindObject examples.src_world 0 s = Ok o'
               ∧ types.same o' examples.M_X = true.
Proof.
  apply (FindObject_inverts_Of examples.src_world examples.M_X 0
           [objectpath.EStr "Foo"; objectpath.EStr "!underlying";
            objectpath.EStr "Method"; objectpath.EStr "!results";
            objectpath.EInt 1; objectpath.EStr "!results";
            objectpath.EInt 0; objectpath.EStr "X"]).
  - reflexivity.
  - apply wf_scope_src.
  - vm_compute. reflexivity.
  - repeat constructor.
Defined.

(** ** The outcomes of the encoder and of the decoder *)

Section decoder_facts.
Import types objectpath spec.

(** X3.  The encoder is total: for every object, [Of] returns a path or
    an error; it does not panic (the names that [scope.Names()] lists
    are all found by [scope.Lookup]). *)
Theorem Of_returns_path_or_error W obj :
  is_Ok (Of W obj) ∨ is_Err (Of W obj).
Proof.
  pose proof (Of_no_panic W obj) as Hnp.
  destruct (Of W obj) as [s|e|msg]; [left|right|]; try by eexists.
  destruct Hnp. by eexists.
Qed.

Lemma parse_words_result words :
  match parse_words words with
  | Ok path => length path = length words
  | Err e => ∃ word, e = ErrInvalidIdent word
  | Panic _ => False
  end.
Proof.
  induction words as [|word words IH]; [done|].
  rewrite parse_words_cons.
  destruct (gostrings.Atoi word) as [n|].
  - destruct (parse_words words); simpl; [by f_equal|done..].
  - destruct (is_op word).
    + destruct (parse_words words); simpl; [by f_equal|done..].
    + destruct (validIdent word); simpl; [|by eexists].
      destruct (parse_words words); simpl; [by f_equal|done..].
Qed.

Lemma parse_result p :
  match parse p with
  | Ok path => path ≠ []
  | Err e => ∃ word, e = ErrInvalidIdent word
  | Panic _ => False
  end.
Proof.
  unfold parse, gostrings.Split_dot.
  destruct (gostrings.split_go p) as [word words].
  pose proof (parse_words_result (word :: words)) as H.
  destruct (parse_words (word :: words)) as [path| |]; [|done..].
  by destruct path.
Qed.

Lemma findObject_not_empty_path W path T :
  findObject W path T ≠ Err ErrEmptyPath.
Proof.
  revert T. induction path as [|x rest IH]; intros T.
  - induction T; first [exact IHT | simpl; done].
  - assert (∀ m : Object,
              match rest with
              | [] => Ok m
              | _ :: _ => findObject W rest (TypeOf m)
              end ≠ Err ErrEmptyPath) as Hlast.
    { intros m. destruct rest; [done|apply IH]. }
    induction T; try exact IHT; simpl.
    + done.
    + destruct x as [name|n]; [|done].
      destruct (String.eqb _ _); [apply IH|].
      destruct (first_with _ _); [apply Hlast|done].
    + repeat case_decide; try apply IH. done.
    + destruct x as [name|n]; [|done].
      repeat (destruct (String.eqb _ _)); try apply IH. done.
    + destruct x as [id|n]; [|done].
      destruct (first_with _ _); [apply Hlast|done].
    + destruct x as [s|index]; [done|].
      destruct (index >=? _); [done|].
      destruct (index <? 0); [done|].
      destruct (vars !! Z.to_nat index); [apply IH|done].
    + destruct x as [id|n]; [|done].
      destruct (first_with _ _); [apply Hlast|done].
Qed.

(** X5.  [parse] never returns an empty path, so the error "empty path"
    of [FindObject] cannot occur: the empty string is refused by
    [parse], as a word that is not an identifier. *)
Theorem FindObject_never_reports_empty_path W pkg p :
  (∀ path, parse p = Ok path → path ≠ [])
  ∧ FindObject W pkg p ≠ Err ErrEmptyPath
  ∧ FindObject W pkg "" = Err (ErrInvalidIdent "").
Proof.
  pose proof (parse_result p) as Hp. split; [|split; [|done]].
  - intros path Hparse. by rewrite Hparse in Hp.
  - unfold FindObject. destruct (parse p) as [path|e|msg]; simpl.
    + destruct path as [|[name|n] rest]; [done| |done].
      destruct (Lookup _ _); [|done].
      destruct rest; [done|apply findObject_not_empty_path].
    + destruct Hp as [word ->]. done.
    + done.
Qed.

(** X4.  The decoder panics only on integers: if [FindObject] panics,
    the path has been parsed and it starts with an integer or holds a
    negative one.  On every other input [FindObject] returns an object
    or an error. *)
Theorem FindObject_panics_only_on_integers W pkg p :
  is_Panic (FindObject W pkg p) →
  ∃ path, parse p = Ok path
          ∧ ((∃ n rest, path = EInt n :: rest) ∨ Exists negative path).
Proof.
  intros Hpanic. pose proof (parse_result p) as Hp.
  destruct (parse p) as [path|e|msg] eqn:Hparse.
  - exists path. split; [done|].
    destruct path as [|[name|n] rest]; [done| |left; by eexists _, _].
    right.
    assert (∀ x, Decision (not_negative x)) as Hdec.
    { intros [s|n]; simpl; apply _. }
    destruct (decide (Forall not_negative (EStr name :: rest)))
      as [Hall|Hsome].
    + by destruct (FindObject_no_panic W pkg p _ Hparse I Hall).
    + apply not_Forall_Exists in Hsome; [|done].
      eapply Exists_impl; [done|]. intros [s|n]; simpl; [tauto|lia].
  - unfold FindObject in Hpanic. rewrite Hparse in Hpanic.
    by destruct Hpanic.
  - done.
Qed.

End decoder_facts.

Lemma FindObject_panics_only_on_integers_witness :
  ∃ path, objectpath.parse "I.F.!results.-1" = Ok path
          ∧ ((∃ n rest, path = objectpath.EInt n :: rest)
             ∨ Exists spec.negative path).
Proof.
  apply (FindObject_panics_only_on_integers examples.src_world 0).
  eexists. vm_compute. reflexivity.
Defined.

(** ** Reading the facts of an action *)

Section getter_facts.
Import types checker.

Lemma lemmaIndex_Ok a lemma i :
  lemmaIndex a lemma = Ok i →
  analysis.LemmaTypes a !! i = Some (analysis.lemma_type lemma).
Proof.
  unfold lemmaIndex.
  destruct (list_find _ _) as [[j lt]|] eqn:Hfind; [|done].
  intros [= <-]. by apply list_find_Some in Hfind as (Hj & -> & _).
Qed.

Lemma lemmaIndex_type a lemma lemma' :
  analysis.lemma_type lemma = analysis.lemma_type lemma' →
  lemmaIndex a lemma = lemmaIndex a lemma'.
Proof. unfold lemmaIndex. by intros ->. Qed.

Lemma setObjLemma_Ok o lemma act act' :
  setObjLemma o lemma act = (Ok (), act') →
  ∃ i m, lemmaIndex (act_a act) lemma = Ok i
         ∧ act_objLemmas act !! i = Some m
         ∧ act' = with_objLemmas act
                    (<[i := <[obj_addr o := (o, lemma)]> m]> (act_objLemmas act)).
Proof.
  unfold setObjLemma, the_unit, get, put, lift, when, Panicf, index.
  unfold mbind, M_bind, mret, M_ret. simpl.
  destruct (act_unit act) as [u|]; simpl; [|done].
  destruct (analysis.unit_SetObjectLemma u); simpl; [|done].
  case_bool_decide; simpl; [|done].
  destruct (lemmaIndex _ _) as [i| |]; simpl; [|done..].
  destruct (act_objLemmas act !! i) as [m|] eqn:Hm; simpl; [|done].
  intros [= <-]. by exists i, m.
Qed.

Lemma setPkgLemma_Ok lemma act act' :
  setPkgLemma lemma act = (Ok (), act') →
  ∃ i m u, lemmaIndex (act_a act) lemma = Ok i
           ∧ act_pkgLemmas act !! i = Some m
           ∧ act_unit act = Some u
           ∧ act' = with_pkgLemmas act
                      (<[i := <[analysis.unit_Pkg u := lemma]> m]>
                         (act_pkgLemmas act)).
Proof.
  unfold setPkgLemma, the_unit, get, put, lift, when, Panicf, index.
  unfold mbind, M_bind, mret, M_ret. simpl.
  destruct (act_unit act) as [u|] eqn:Hu; simpl; [|done].
  destruct (analysis.unit_SetPackageLemma u); simpl; [|done].
  destruct (lemmaIndex _ _) as [i| |]; simpl; [|done..].
  destruct (act_pkgLemmas act !! i) as [m|] eqn:Hm; simpl; [|done].
  rewrite Hu. simpl. intros [= <-]. by exists i, m, u.
Qed.

(** X6.  Facts of objects can be read back: once [SetObjectLemma] has
    stored a fact for an object, [ObjectLemma] for that object and a
    pointer of the type of the fact returns [true] and copies that fact;
    for any other object, or a pointer of another type, it answers as
    it did before the call. *)
Theorem objLemma_after_setObjLemma o lemma act act' :
  setObjLemma o lemma act = (Ok (), act') →
  (∀ ptr, analysis.lemma_type ptr = analysis.lemma_type lemma →
          objLemma act' (Some o) ptr = Ok (Some lemma))
  ∧ (∀ o' ptr,
       obj_addr o' ≠ obj_addr o
       ∨ analysis.lemma_type ptr ≠ analysis.lemma_type lemma →
       objLemma act' (Some o') ptr = objLemma act (Some o') ptr).
Proof.
  intros (i & m & Hi & Hm & ->)%setObjLemma_Ok.
  assert (i < length (act_objLemmas act))%nat as Hlt
    by by eapply lookup_lt_Some.
  split.
  - intros ptr Hty. unfold objLemma.
    replace (act_a (with_objLemmas act _)) with (act_a act) by by destruct act.
    rewrite (lemmaIndex_type _ ptr lemma Hty), Hi. simpl. unfold index.
    replace (act_objLemmas (with_objLemmas act
               (<[i := <[obj_addr o := (o, lemma)]> m]> (act_objLemmas act))))
      with (<[i := <[obj_addr o := (o, lemma)]> m]> (act_objLemmas act))
      by by destruct act.
    rewrite list_lookup_insert_eq by done. simpl.
    rewrite lookup_insert_eq. unfold analysis.set_ptr.
    by rewrite decide_True.
  - intros o' ptr Hother. unfold objLemma.
    replace (act_a (with_objLemmas act _)) with (act_a act) by by destruct act.
    destruct (lemmaIndex (act_a act) ptr) as [j| |] eqn:Hj; simpl; [|done..].
    unfold index.
    replace (act_objLemmas (with_objLemmas act
               (<[i := <[obj_addr o := (o, lemma)]> m]> (act_objLemmas act))))
      with (<[i := <[obj_addr o := (o, lemma)]> m]> (act_objLemmas act))
      by by destruct act.
    destruct (decide (j = i)) as [->|Hne].
    + rewrite list_lookup_insert_eq by done. rewrite Hm. simpl.
      destruct Hother as [Haddr|Hty].
      * by rewrite lookup_insert_ne.
      * apply lemmaIndex_Ok in Hi, Hj. congruence.
    + by rewrite list_lookup_insert_ne.
Qed.

(** X7.  Facts of packages can be read back: once [SetPackageLemma] has
    stored a fact, [PackageLemma] for the package of the unit and a
    pointer of the type of the fact returns [true] and copies that fact;
    for any other package, or a pointer of another type, it answers as
    it did before the call. *)
Theorem pkgLemma_after_setPkgLemma lemma act act' :
  setPkgLemma lemma act = (Ok (), act') →
  ∃ u, act_unit act = Some u
  ∧ (∀ ptr, analysis.lemma_type ptr = analysis.lemma_type lemma →
            pkgLemma act' (Some (analysis.unit_Pkg u)) ptr = Ok (Some lemma))
  ∧ (∀ pkg ptr,
       pkg ≠ analysis.unit_Pkg u
       ∨ analysis.lemma_type ptr ≠ analysis.lemma_type lemma →
       pkgLemma act' (Some pkg) ptr = pkgLemma act (Some pkg) ptr).
Proof.
  intros (i & m & u & Hi & Hm & Hu & ->)%setPkgLemma_Ok.
  exists u. split; [done|].
  assert (i < length (act_pkgLemmas act))%nat as Hlt
    by by eapply lookup_lt_Some.
  split.
  - intros ptr Hty. unfold pkgLemma.
    replace (act_a (with_pkgLemmas act _)) with (act_a act) by by destruct act.
    rewrite (lemmaIndex_type _ ptr lemma Hty), Hi. simpl. unfold index.
    replace (act_pkgLemmas (with_pkgLemmas act
               (<[i := <[analysis.unit_Pkg u := lemma]> m]> (act_pkgLemmas act))))
      with (<[i := <[analysis.unit_Pkg u := lemma]> m]> (act_pkgLemmas act))
      by by destruct act.
    rewrite list_lookup_insert_eq by done. simpl.
    rewrite lookup_insert_eq. unfold analysis.set_ptr.
    by rewrite decide_True.
  - intros pkg ptr Hother. unfold pkgLemma.
    replace (act_a (with_pkgLemmas act _)) with (act_a act) by by destruct act.
    destruct (lemmaIndex (act_a act) ptr) as [j| |] eqn:Hj; simpl; [|done..].
    unfold index.
    replace (act_pkgLemmas (with_pkgLemmas act
               (<[i := <[analysis.unit_Pkg u := lemma]> m]> (act_pkgLemmas act))))
      with (<[i := <[analysis.unit_Pkg u := lemma]> m]> (act_pkgLemmas act))
      by by destruct act.
    destruct (decide (j = i)) as [->|Hne].
    + rewrite list_lookup_insert_eq by done. rewrite Hm. simpl.
      destruct Hother as [Haddr|Hty].
      * by rewrite lookup_insert_ne.
      * apply lemmaIndex_Ok in Hi, Hj. congruence.
    + by rewrite list_lookup_insert_ne.
Qed.

End getter_facts.

(** ** What executing an action leaves *)

Section run_facts.
Import types checker spec.
Context (Debug : string) (gob : analysis.Lemma → option analysis.Lemma).



Lemma setObjLemma_frame o lemma act r act' :
  setObjLemma o lemma act = (r, act') → frame act' = frame act.
Proof.
  unfold setObjLemma, the_unit, get, put, lift, when, Panicf, index.
  unfold mbind, M_bind, mret, M_ret. simpl.
  destruct (act_unit act) as [u|]; simpl; [|by intros [= _ <-]].
  destruct (analysis.unit_SetObjectLemma u); simpl; [|by intros [= _ <-]].
  case_bool_decide; simpl; [|by intros [= _ <-]].
  destruct (lemmaIndex _ _) as [i| |]; simpl; [|by intros [= _ <-]..].
  destruct (act_objLemmas act !! i) as [m|]; simpl; [|by intros [= _ <-]].
  intros [= _ <-]. by destruct act.
Qed.

Lemma setPkgLemma_frame lemma act r act' :
  setPkgLemma lemma act = (r, act') → frame act' = frame act.
Proof.
  unfold setPkgLemma, the_unit, get, put, lift, when, Panicf, index.
  unfold mbind, M_bind, mret, M_ret. simpl.
  destruct (act_unit act) as [u|] eqn:Hu; simpl; [|by intros [= _ <-]].
  destruct (analysis.unit_SetPackageLemma u); simpl; [|by intros [= _ <-]].
  destruct (lemmaIndex _ _) as [i| |]; simpl; [|by intros [= _ <-]..].
  destruct (act_pkgLemmas act !! i) as [m|]; simpl; [|by intros [= _ <-]].
  rewrite Hu. simpl. intros [= _ <-]. by destruct act.
Qed.

Lemma run_calls_frame calls act r act' :
  run_calls calls act = (r, act') → frame act' = frame act.
Proof.
  revert act. induction calls as [|c calls IH]; intros act; simpl.
  - by intros [= _ <-].
  - unfold mbind, M_bind.
    destruct (call_setter c act) as [[[]| |] act1] eqn:Hc.
    + intros Hrest. apply IH in Hrest. rewrite Hrest.
      destruct c; simpl in Hc;
        [by eapply setObjLemma_frame|by eapply setPkgLemma_frame].
    + intros [= _ <-].
      destruct c; simpl in Hc;
        [by eapply setObjLemma_frame|by eapply setPkgLemma_frame].
    + intros [= _ <-].
      destruct c; simpl in Hc;
        [by eapply setObjLemma_frame|by eapply setPkgLemma_frame].
Qed.

Lemma inherit_obj_frame dep i act e act' :
  inherit_obj Debug gob dep i act e = Ok act' → frame act' = frame act.
Proof.
  destruct e as [a [o lemma]]. unfold inherit_obj.
  destruct (negb _); [by intros [= <-]|].
  destruct (serialized _ _ _); simpl; [|done..].
  destruct (index _ _); simpl; [|done..].
  intros [= <-]. by destruct act.
Qed.

Lemma inherit_pkg_frame i act e act' :
  inherit_pkg Debug gob i act e = Ok act' → frame act' = frame act.
Proof.
  destruct e as [p lemma]. unfold inherit_pkg.
  destruct (serialized _ _ _); simpl; [|done..].
  destruct (index _ _); simpl; [|done..].
  intros [= <-]. by destruct act.
Qed.

Lemma inheritLemmas_frame act dep act' :
  inheritLemmas Debug gob act dep = Ok act' → frame act' = frame act.
Proof.
  unfold inheritLemmas. intros Hfold.
  eapply (foldM_preserves _ (λ b, frame b = frame act)); [|exact Hfold|done].
  intros b i b' Hstep Hb. rewrite <-Hb. clear Hb Hfold.
  unfold inherit_index in Hstep.
  destruct (index (act_objLemmas dep) i) as [objs| |]; simpl in Hstep;
    [|done..].
  destruct (foldM (inherit_obj Debug gob dep i) b (map_to_list objs))
    as [b1| |] eqn:Hobjs; simpl in Hstep; [|done..].
  destruct (index (act_pkgLemmas dep) i) as [pkgs| |]; simpl in Hstep;
    [|done..].
  transitivity (frame b1).
  - eapply (foldM_preserves _ (λ b', frame b' = frame b1));
      [|exact Hstep|done].
    intros ???? <-. by eapply inherit_pkg_frame.
  - eapply (foldM_preserves _ (λ b', frame b' = frame b));
      [|exact Hobjs|done].
    intros ???? <-. by eapply inherit_obj_frame.
Qed.

Lemma plumb_frame l st st' :
  foldM (plumb Debug gob) st l = Ok st' → frame st'.2 = frame st.2.
Proof.
  intros Hfold.
  eapply (foldM_preserves _ (λ b, frame b.2 = frame st.2));
    [|exact Hfold|done].
  intros [inputs act] dep [inputs' act'] Hstep <-. simpl in *.
  unfold plumb in Hstep. case_bool_decide.
  - destruct (act_unit dep); [|done]. by injection Hstep as _ <-.
  - case_bool_decide; [|by injection Hstep as _ <-].
    destruct (inheritLemmas _ _ _ _) as [act1| |] eqn:Hinh; [|done..].
    simpl in Hstep. injection Hstep as _ <-. by eapply inheritLemmas_frame.
Qed.

(** What [execOnce] makes of an action none of whose dependencies has
    failed. *)
Lemma execOnce_after_deps_Ok act act' :
  failed_deps (act_deps act) = [] →
  execOnce_after_deps Debug gob act = Ok act' →
  ∃ u inputs view,
    act_unit act' = Some u
    ∧ (∃ act1,
         foldM (plumb Debug gob)
               (∅, with_pkgLemmas
                     (with_objLemmas act
                        (replicate (length (analysis.LemmaTypes (act_a act))) ∅))
                     (replicate (length (analysis.LemmaTypes (act_a act))) ∅))
               (act_deps act)
         = Ok (inputs, act1))
    ∧ (act_once act', act_a act', act_pkg act', act_isroot act', act_deps act')
      = (act_once act, act_a act, act_pkg act, act_isroot act, act_deps act)
    ∧ analysis.unit_SetObjectLemma u = false
    ∧ analysis.unit_SetPackageLemma u = false
    ∧ analysis.unit_Analysis u = act_a act
    ∧ analysis.unit_Pkg u = packages.Types (act_pkg act)
    ∧ analysis.unit_Inputs u = inputs
    ∧ if packages.IllTyped (act_pkg act)
         && negb (analysis.RunDespiteErrors (act_a act))
      then act_runs act' = act_runs act
           ∧ act_err act' = Some "analysis skipped due to errors in package"
      else let r := analysis.Run (act_a act) view in
           act_runs act' = S (act_runs act)
           ∧ analysis.view_Pkg view = packages.Types (act_pkg act)
           ∧ analysis.view_Inputs view = inputs
           ∧ analysis.unit_Output u = analysis.run_Output r
           ∧ analysis.unit_Findings u = analysis.run_Findings r
           ∧ act_err act'
             = match analysis.run_err r with
               | Some e => Some e
               | None =>
                   if bool_decide (output_type (analysis.run_Output r)
                                   = analysis.OutputType (act_a act))
                   then None
                   else Some "internal error: analysis produced Output of undeclared type"
               end.
Proof.
  intros Hfailed. unfold execOnce_after_deps. rewrite Hfailed.
  rewrite bool_decide_eq_false_2 by (by intros []).
  destruct (foldM _ _ _) as [[inputs act1]| |] eqn:Hplumb; [|done..].
  pose proof (plumb_frame _ _ _ Hplumb) as Hact1. simpl in Hact1.
  assert (frame act1 = frame act) as Hact1'
    by (rewrite Hact1; by destruct act).
  clear Hact1. rename Hact1' into Hact1. simpl.
  assert (∃ act1',
            foldM (plumb Debug gob)
              (∅, with_pkgLemmas
                    (with_objLemmas act
                       (replicate (length (analysis.LemmaTypes (act_a act))) ∅))
                    (replicate (length (analysis.LemmaTypes (act_a act))) ∅))
              (act_deps act) = Ok (inputs, act1')) as Hplumbed.
  { exists act1. rewrite <-Hplumb. by destruct act. }
  clear Hplumb.
  destruct act as [o a p un r d ol pl i e n].
  destruct act1 as [o1 a1 p1 un1 r1 d1 ol1 pl1 i1 e1 n1].
  injection Hact1 as -> -> -> -> -> -> -> -> ->. simpl.
  destruct (packages.IllTyped p && negb (analysis.RunDespiteErrors a)).
  - simpl. intros [= <-].
    eexists _, inputs,
      {| analysis.view_Pkg := 0%nat; analysis.view_Inputs := inputs;
         analysis.view_objLemmas := []; analysis.view_pkgLemmas := [] |}.
    simpl. done.
  - unfold run_analysis.
    destruct (run_calls _ _) as [[[]| |] act2] eqn:Hcalls; [|done..].
    apply run_calls_frame in Hcalls. simpl.
    intros [= <-].
    eexists _, inputs, _.
    destruct act2 as [o2 a2 p2 un2 r2 d2 ol2 pl2 i2 e2 n2].
    injection Hcalls as -> -> -> -> -> -> -> -> ->.
    simpl. repeat split; done.
Qed.

Lemma execAll_length l l' :
  execAll Debug gob l = Ok l' → length l' = length l.
Proof.
  revert l'. induction l as [|d l IH]; intros l'; simpl.
  - by intros [= <-].
  - destruct (exec Debug gob d); simpl; [|done..].
    destruct (execAll Debug gob l); simpl; [|done..].
    intros [= <-]. simpl. f_equal. by apply IH.
Qed.

(** X8.  An action is executed once: executing an action leaves it
    marked as done, so that a further [exec] changes nothing, and
    [Run] has been invoked at most once more than before. *)
Theorem exec_at_most_once act act' :
  exec Debug gob act = Ok act' →
  exec Debug gob act' = Ok act'
  ∧ (act_runs act' = act_runs act ∨ act_runs act' = S (act_runs act)).
Proof.
  intros Hexec. rewrite exec_unfold in Hexec.
  destruct (act_once act) eqn:Honce.
  - injection Hexec as <-. rewrite exec_unfold, Honce. by split; [|left].
  - destruct (execAll Debug gob (act_deps act)) as [deps| |]; [|done..].
    simpl in Hexec.
    assert (act_once act' = true
            ∧ (act_runs act' = act_runs act
               ∨ act_runs act' = S (act_runs act))) as [Hdone Hruns].
    { destruct (decide (failed_deps deps = [])) as [Hnone|Hsome].
      - apply execOnce_after_deps_Ok in Hexec as
            (u & inputs & view & _ & _ & Hsame & _ & _ & _ & _ & _ & Hrun);
          [|by destruct act].
        split; [destruct act; simpl in *; congruence|].
        destruct (_ && _).
        + left. destruct Hrun as [-> _]. by destruct act.
        + right. destruct Hrun as [-> _]. by destruct act.
      - unfold execOnce_after_deps in Hexec.
        replace (act_deps (with_deps (with_once act true) deps)) with deps
          in Hexec by by destruct act.
        rewrite bool_decide_eq_true_2 in Hexec by done.
        injection Hexec as <-. split; [|left]; by destruct act. }
    split; [|done]. by rewrite exec_unfold, Hdone.
Qed.

(** X9.  A package with type errors is not analysed: when the package
    of an action is ill-typed and its analysis has not asked to run
    despite errors, executing the action does not invoke [Run] and the
    action ends with an error, which reads "analysis skipped due to
    errors in package" unless a dependency has failed. *)
Theorem ill_typed_package_is_skipped act act' :
  act_once act = false →
  packages.IllTyped (act_pkg act) = true →
  analysis.RunDespiteErrors (act_a act) = false →
  exec Debug gob act = Ok act' →
  act_runs act' = act_runs act
  ∧ act_err act' ≠ None
  ∧ (Forall (λ dep, act_err dep = None) (act_deps act') →
     act_err act' = Some "analysis skipped due to errors in package").
Proof.
  intros Honce Hill Hdespite Hexec.
  rewrite exec_unfold, Honce in Hexec.
  destruct (execAll Debug gob (act_deps act)) as [deps| |]; [|done..].
  simpl in Hexec.
  destruct (decide (failed_deps deps = [])) as [Hnone|Hsome].
  - apply execOnce_after_deps_Ok in Hexec as
        (u & inputs & view & _ & _ & Hsame & _ & _ & _ & _ & _ & Hrun);
      [|by destruct act].
    replace (act_pkg (with_deps (with_once act true) deps))
      with (act_pkg act) in Hrun by by destruct act.
    replace (act_a (with_deps (with_once act true) deps))
      with (act_a act) in Hrun by by destruct act.
    rewrite Hill, Hdespite in Hrun. destruct Hrun as [-> ->].
    split; [by destruct act|]. done.
  - unfold execOnce_after_deps in Hexec.
    replace (act_deps (with_deps (with_once act true) deps)) with deps
      in Hexec by by destruct act.
    rewrite bool_decide_eq_true_2 in Hexec by done.
    injection Hexec as <-.
    split; [by destruct act|]. split; [by destruct act|].
    intros Hall. destruct Hsome.
    replace (act_deps (with_err (with_deps (with_once act true) deps) _))
      with deps in Hall by by destruct act.
    rewrite failed_deps_filter.
    induction Hall as [|dep deps' Hd _ IH]; [done|].
    rewrite filter_cons, decide_False by (by rewrite Hd; intros []).
    done.
Qed.

(** X10.  An action that has been executed without error has a unit, the
    setters of the unit are disabled, and its [Output] has the type
    that the analysis declares. *)
Theorem successful_action_has_declared_output act act' :
  act_once act = false →
  exec Debug gob act = Ok act' →
  act_err act' = None →
  ∃ u, act_unit act' = Some u
       ∧ analysis.unit_SetObjectLemma u = false
       ∧ analysis.unit_SetPackageLemma u = false
       ∧ output_type (analysis.unit_Output u)
         = analysis.OutputType (act_a act)
       ∧ act_runs act' = S (act_runs act)
       ∧ Forall (λ dep, act_err dep = None) (act_deps act').
Proof.
  intros Honce Hexec Herr.
  rewrite exec_unfold, Honce in Hexec.
  destruct (execAll Debug gob (act_deps act)) as [deps| |]; [|done..].
  simpl in Hexec.
  destruct (decide (failed_deps deps = [])) as [Hnone|Hsome].
  - apply execOnce_after_deps_Ok in Hexec as
        (u & inputs & view & Hu & _ & Hsame & Hso & Hsp & _ & _ & _ & Hrun);
      [|by destruct act].
    replace (act_pkg (with_deps (with_once act true) deps))
      with (act_pkg act) in Hrun by by destruct act.
    replace (act_a (with_deps (with_once act true) deps))
      with (act_a act) in Hrun by by destruct act.
    replace (act_runs (with_deps (with_once act true) deps))
      with (act_runs act) in Hrun by by destruct act.
    exists u. split; [done|]. split; [done|]. split; [done|].
    destruct (_ && _).
    + destruct Hrun as [_ Hrun]. congruence.
    + simpl in Hrun. destruct Hrun as (Hruns & _ & _ & Hout & _ & Herr').
      rewrite Herr in Herr'.
      destruct (analysis.run_err _); [done|].
      case_bool_decide as Hty; [|done].
      split; [by rewrite Hout|]. split; [done|].
      replace (act_deps act') with deps
        by (destruct act; simpl in *; congruence).
      clear -Hnone. rewrite failed_deps_filter in Hnone.
      induction deps as [|dep deps IH]; [done|].
      rewrite filter_cons in Hnone.
      destruct (decide (act_err dep ≠ None)) as [Hd|Hd]; [done|].
      constructor; [|by apply IH].
      by destruct (act_err dep); [destruct Hd|].
  - unfold execOnce_after_deps in Hexec.
    replace (act_deps (with_deps (with_once act true) deps)) with deps
      in Hexec by by destruct act.
    rewrite bool_decide_eq_true_2 in Hexec by done.
    injection Hexec as <-. by destruct act.
Qed.

Lemma execOnce_after_deps_deps act act' :
  execOnce_after_deps Debug gob act = Ok act' →
  act_deps act' = act_deps act.
Proof.
  intros Hexec.
  destruct (decide (failed_deps (act_deps act) = [])) as [Hnone|Hsome].
  - apply execOnce_after_deps_Ok in Hexec
      as (u & inputs & view & _ & _ & Hsame & _); [|done]. congruence.
  - unfold execOnce_after_deps in Hexec.
    rewrite bool_decide_eq_true_2 in Hexec by done.
    injection Hexec as <-. by destruct act.
Qed.

Lemma plumb_inputs l : ∀ st st',
  foldM (plumb Debug gob) st l = Ok st' →
  ∀ k,
    (∃ dep du, dep ∈ l
               ∧ packages.addr (act_pkg dep) = packages.addr (act_pkg st.2)
               ∧ analysis.addr (act_a dep) = k
               ∧ act_unit dep = Some du
               ∧ st'.1 !! k = Some (analysis.unit_Output du))
    ∨ ((∀ dep, dep ∈ l →
               packages.addr (act_pkg dep) = packages.addr (act_pkg st.2) →
               analysis.addr (act_a dep) ≠ k)
       ∧ st'.1 !! k = st.1 !! k).
Proof.
  induction l as [|dep l IH]; intros st st' Hfold k; simpl in Hfold.
  - injection Hfold as <-. right. split; [|done]. by intros ? ?%elem_of_nil.
  - destruct (plumb Debug gob st dep) as [st1| |] eqn:Hstep; [|done..].
    simpl in Hfold.
    assert (act_pkg st1.2 = act_pkg st.2) as Hpkg.
    { pose proof (plumb_frame [dep] st st1) as Hframe. simpl in Hframe.
      rewrite Hstep in Hframe. specialize (Hframe eq_refl).
      unfold frame in Hframe. congruence. }
    destruct (IH st1 st' Hfold k)
      as [(dep' & du & Hin & Hsame & Hk & Hdu & Hlook)|[Hnone Hlook]].
    { left. exists dep', du. split; [by apply list_elem_of_further|].
      by rewrite <-Hpkg. }
    destruct st as [inputs act]. unfold plumb in Hstep. simpl in *.
    case_bool_decide as Hhor.
    + destruct (act_unit dep) as [du|] eqn:Hdu; [|done].
      injection Hstep as <-. simpl in *.
      destruct (decide (analysis.addr (act_a dep) = k)) as [Hk|Hk].
      * left. exists dep, du. split; [apply list_elem_of_here|].
        split; [done|]. split; [done|]. split; [done|].
        by rewrite Hlook, Hk, lookup_insert_eq.
      * right. split.
        -- intros dep' [->|Hin]%elem_of_cons; [done|].
           intros Hs. apply Hnone; [done|congruence].
        -- by rewrite Hlook, lookup_insert_ne.
    + right. split.
      * intros dep' [->|Hin]%elem_of_cons; [done|].
        intros Hs. apply Hnone; [done|congruence].
      * rewrite Hlook. case_bool_decide.
        -- destruct (inheritLemmas _ _ _ _); [|done..]. simpl in Hstep.
           by injection Hstep as <-.
        -- by injection Hstep as <-.
Qed.

(** X11.  The outputs of the required analyses reach the unit: when an
    action has been executed and none of its dependencies has failed,
    the [Inputs] of its unit hold, for every dependency on the same
    package (a required analysis), the [Output] of the unit of a
    dependency with that analysis on that package. *)
Theorem inputs_hold_outputs_of_required act act' :
  act_once act = false →
  exec Debug gob act = Ok act' →
  Forall (λ dep, act_err dep = None) (act_deps act') →
  ∃ u, act_unit act' = Some u
       ∧ ∀ dep, dep ∈ act_deps act' →
                packages.addr (act_pkg dep) = packages.addr (act_pkg act') →
                ∃ dep' du,
                  dep' ∈ act_deps act'
                  ∧ packages.addr (act_pkg dep')
                    = packages.addr (act_pkg act')
                  ∧ analysis.addr (act_a dep') = analysis.addr (act_a dep)
                  ∧ act_unit dep' = Some du
                  ∧ analysis.unit_Inputs u !! analysis.addr (act_a dep)
                    = Some (analysis.unit_Output du).
Proof.
  intros Honce Hexec Hall.
  rewrite exec_unfold, Honce in Hexec.
  destruct (execAll Debug gob (act_deps act)) as [deps| |]; [|done..].
  simpl in Hexec.
  assert (act_deps act' = deps) as Hdeps.
  { apply execOnce_after_deps_deps in Hexec. rewrite Hexec.
    by destruct act. }
  rewrite Hdeps in *.
  assert (failed_deps deps = []) as Hnone.
  { rewrite failed_deps_filter. clear -Hall.
    induction Hall as [|dep deps' Hd _ IH]; [done|].
    rewrite filter_cons, decide_False by (by rewrite Hd; intros []).
    done. }
  apply execOnce_after_deps_Ok in Hexec
    as (u & inputs & view & Hu & [act1 Hplumb] & Hsame & _ & _ & _ & _
        & Hinputs & _); [|by destruct act].
  exists u. split; [done|]. intros dep Hin Hhor.
  replace (act_deps (with_deps (with_once act true) deps)) with deps
    in Hplumb by by destruct act.
  assert (act_pkg act' = act_pkg act) as Hpkg
    by (destruct act; simpl in *; congruence).
  destruct (plumb_inputs _ _ _ Hplumb (analysis.addr (act_a dep)))
    as [(dep' & du & Hin' & Hsame' & Hk & Hdu & Hlook)|[Hnone' _]]; simpl in *.
  - exists dep', du. split; [done|].
    split; [rewrite Hsame', Hpkg; by destruct act|].
    split; [done|]. split; [done|]. by rewrite Hinputs.
  - destruct (Hnone' dep Hin); [|done].
    rewrite Hhor, Hpkg. by destruct act.
Qed.

End run_facts.

(** ** Inheritance of package facts *)

Section inherit_pkg_facts.
Import types checker spec.
Context (Debug : string) (gob : analysis.Lemma → option analysis.Lemma).

Lemma pkg_fact_insert act i m pkg v j pkg' :
  act_pkgLemmas act !! i = Some m →
  pkg_fact (with_pkgLemmas act (<[i := <[pkg := v]> m]> (act_pkgLemmas act)))
           j pkg'
  = if bool_decide (j = i) && bool_decide (pkg' = pkg)
    then Some v else pkg_fact act j pkg'.
Proof.
  intros Hi. unfold pkg_fact.
  assert (act_pkgLemmas (with_pkgLemmas act
            (<[i := <[pkg := v]> m]> (act_pkgLemmas act)))
          = <[i := <[pkg := v]> m]> (act_pkgLemmas act)) as ->
    by (by destruct act).
  destruct (decide (j = i)) as [->|Hji].
  - rewrite bool_decide_eq_true_2 by done.
    rewrite list_lookup_insert_eq by (by eapply lookup_lt_Some). simpl.
    destruct (decide (pkg' = pkg)) as [->|Hne].
    + rewrite bool_decide_eq_true_2 by done. apply lookup_insert_eq.
    + rewrite bool_decide_eq_false_2 by done. simpl.
      rewrite lookup_insert_ne by done. by rewrite Hi.
  - rewrite bool_decide_eq_false_2 by done. simpl.
    by rewrite list_lookup_insert_ne.
Qed.

Lemma inherit_pkg_observe i act e act' :
  inherit_pkg Debug gob i act e = Ok act' →
  ∀ k, pkg_fact act' k.1 k.2
       = inherit_pkg_upd Debug gob i e k (pkg_fact act k.1 k.2).
Proof.
  destruct e as [p lemma]. unfold inherit_pkg, inherit_pkg_upd. simpl.
  intros Hstep [j pkg]. simpl.
  destruct (serialized Debug gob lemma) as [new| |]; [|done..].
  simpl in Hstep. unfold index in Hstep.
  destruct (act_pkgLemmas act !! i) as [m|] eqn:Hi; [|done].
  simpl in Hstep. injection Hstep as <-.
  by rewrite (pkg_fact_insert _ _ _ _ _ _ _ Hi).
Qed.

Lemma inherit_pkg_serialized i act p lemma act' :
  inherit_pkg Debug gob i act (p, lemma) = Ok act' →
  is_Ok (serialized Debug gob lemma).
Proof.
  unfold inherit_pkg.
  destruct (serialized Debug gob lemma); [by eexists|done..].
Qed.

Lemma inherit_obj_pkgLemmas dep i act e act' :
  inherit_obj Debug gob dep i act e = Ok act' →
  act_pkgLemmas act' = act_pkgLemmas act.
Proof.
  destruct e as [a [o lemma]]. unfold inherit_obj.
  destruct (negb _); [by intros [= <-]|].
  destruct (serialized _ _ _); simpl; [|done..].
  destruct (index _ _); simpl; [|done..].
  intros [= <-]. by destruct act.
Qed.

Lemma inherit_pkg_entries i (es : list (nat * analysis.Lemma)) pkg old :
  NoDup es.*1 →
  foldl (λ v e, inherit_pkg_upd Debug gob i e (i, pkg) v) old es
  = match list_to_map (M := gmap nat _) es !! pkg with
    | Some f => inherit_pkg_upd Debug gob i (pkg, f) (i, pkg) old
    | None => old
    end.
Proof.
  revert old. induction es as [|[a f] es IH]; intros old Hnd; [done|].
  apply NoDup_cons in Hnd as [Hnotin Hnd]. simpl in *.
  rewrite IH by done. destruct (decide (pkg = a)) as [->|Hne].
  - rewrite lookup_insert_eq.
    rewrite (not_elem_of_list_to_map_1 _ a) by done. done.
  - rewrite lookup_insert_ne by done.
    assert (inherit_pkg_upd Debug gob i (a, f) (i, pkg) old = old) as ->;
      [|done].
    unfold inherit_pkg_upd. simpl.
    rewrite (bool_decide_eq_false_2 (pkg = a)) by done.
    by rewrite andb_false_r.
Qed.

Lemma inherit_pkg_other_index i (es : list (nat * analysis.Lemma))
    j pkg old :
  j ≠ i →
  foldl (λ v e, inherit_pkg_upd Debug gob i e (j, pkg) v) old es = old.
Proof.
  intros Hne. induction es as [|e es IH]; [done|]. simpl.
  assert (inherit_pkg_upd Debug gob i e (j, pkg) old = old) as ->; [|done].
  unfold inherit_pkg_upd. simpl.
  by rewrite (bool_decide_eq_false_2 (j = i)) by done.
Qed.

(** What [inheritLemmas] makes of the package facts of one index. *)
Lemma inherit_index_pkg_step dep act i act' :
  inherit_index Debug gob dep act i = Ok act' →
  ∃ m, act_pkgLemmas dep !! i = Some m
       ∧ (∀ p lemma, m !! p = Some lemma →
                     is_Ok (serialized Debug gob lemma))
       ∧ ∀ j pkg,
           pkg_fact act' j pkg
           = if bool_decide (j = i) then
               match m !! pkg with
               | Some f => inherit_pkg_upd Debug gob i (pkg, f) (i, pkg)
                                           (pkg_fact act j pkg)
               | None => pkg_fact act j pkg
               end
             else pkg_fact act j pkg.
Proof.
  unfold inherit_index, index.
  destruct (act_objLemmas dep !! i) as [om|] eqn:Hom; [|done]. simpl.
  destruct (foldM (inherit_obj Debug gob dep i) act (map_to_list om))
    as [act1| |] eqn:Hobjs; [|done..]. simpl.
  destruct (act_pkgLemmas dep !! i) as [m|]; [|done]. simpl.
  intros Hpkgs. exists m. split; [done|]. split.
  { intros p lemma Hin.
    apply elem_of_map_to_list in Hin.
    destruct (foldM_steps _ _ _ _ _ Hpkgs Hin) as (b0 & b1 & Hstep).
    by eapply inherit_pkg_serialized. }
  intros j pkg.
  assert (pkg_fact act1 j pkg = pkg_fact act j pkg) as <-.
  { assert (act_pkgLemmas act1 = act_pkgLemmas act) as Hsame.
    { apply (foldM_preserves (inherit_obj Debug gob dep i)
               (λ b, act_pkgLemmas b = act_pkgLemmas act))
        with (l := map_to_list om) (b := act); [|done..].
      intros b x b' Hstep <-. by eapply inherit_obj_pkgLemmas. }
    unfold pkg_fact. by rewrite Hsame. }
  pose proof (foldM_observe (inherit_pkg Debug gob i)
                (λ b k, pkg_fact b k.1 k.2) (inherit_pkg_upd Debug gob i)
                (inherit_pkg_observe i) _ _ _ Hpkgs (j, pkg)) as Hobs.
  simpl in Hobs. rewrite Hobs.
  case_bool_decide as Hj.
  - subst j. rewrite inherit_pkg_entries.
    + by rewrite list_to_map_to_list.
    + apply NoDup_fst_map_to_list.
  - by apply inherit_pkg_other_index.
Qed.

(** The loop of [inheritLemmas] over the indices, for package facts. *)
Lemma inherit_indices_pkg dep l act act' :
  NoDup l →
  foldM (inherit_index Debug gob dep) act l = Ok act' →
  ∀ i pkg,
    (i ∈ l →
     ∃ m, act_pkgLemmas dep !! i = Some m
          ∧ (∀ p lemma, m !! p = Some lemma →
                        is_Ok (serialized Debug gob lemma))
          ∧ pkg_fact act' i pkg
            = match m !! pkg with
              | Some f => inherit_pkg_upd Debug gob i (pkg, f) (i, pkg)
                                          (pkg_fact act i pkg)
              | None => pkg_fact act i pkg
              end)
    ∧ (i ∉ l → pkg_fact act' i pkg = pkg_fact act i pkg).
Proof.
  revert act.
  induction l as [|i0 l IH]; intros act Hnd Hfold i pkg; simpl in Hfold.
  - injection Hfold as <-. split; [by intros ?%elem_of_nil|done].
  - destruct (inherit_index Debug gob dep act i0) as [act1| |] eqn:Hstep;
      [|done..]. simpl in Hfold.
    apply NoDup_cons in Hnd as [Hnotin Hnd].
    destruct (inherit_index_pkg_step dep act i0 act1 Hstep)
      as (m0 & Hm0 & Hok0 & Hlook).
    destruct (IH act1 Hnd Hfold i pkg) as [IHin IHout].
    split.
    + intros [->|Hin]%elem_of_cons.
      * exists m0. split; [done|]. split; [done|].
        rewrite IHout by done. rewrite Hlook.
        by rewrite bool_decide_eq_true_2.
      * destruct (IHin Hin) as (m & Hm & Hok & Hres).
        exists m. split; [done|]. split; [done|].
        rewrite Hres, Hlook.
        rewrite bool_decide_eq_false_2; [done|]. by intros ->.
    + intros Hout. apply not_elem_of_cons in Hout as [Hne Hout].
      rewrite IHout by done. rewrite Hlook.
      by rewrite bool_decide_eq_false_2.
Qed.

(** X12.  Package facts cross every package boundary: when an action
    inherits the facts of a dependency, every package fact of the
    dependency is copied (after the optional round trip through gob),
    whatever package it describes; where the dependency has no fact,
    the action keeps what it had. *)
Theorem inheritLemmas_copies_package_facts act dep act' :
  inheritLemmas Debug gob act dep = Ok act' →
  ∀ i pkg,
    (i < length (analysis.LemmaTypes (act_a dep)))%nat →
    match pkg_fact dep i pkg with
    | Some lemma => ∃ new, serialized Debug gob lemma = Ok new
                           ∧ pkg_fact act' i pkg = Some new
    | None => pkg_fact act' i pkg = pkg_fact act i pkg
    end.
Proof.
  intros Hinh i pkg Hi. unfold inheritLemmas in Hinh.
  destruct (inherit_indices_pkg dep _ act act' (NoDup_seq _ _) Hinh i pkg)
    as [Hin _].
  destruct Hin as (m & Hm & Hok & Hres).
  { apply elem_of_seq. lia. }
  unfold pkg_fact at 1. rewrite Hm. simpl.
  destruct (m !! pkg) as [lemma|] eqn:Hf; [|done].
  rewrite Hres. unfold inherit_pkg_upd. simpl.
  destruct (Hok pkg lemma Hf) as [new Hnew].
  exists new. split; [done|].
  rewrite !bool_decide_eq_true_2 by done. simpl. by rewrite Hnew.
Qed.

End inherit_pkg_facts.

(** ** The fact store of the compile-protocol driver *)

Section store_facts.
Import types objectpath doctor checker spec.
Context (W : World).

(** X14.  The fact store of the driver can be read back: once [setObj]
    has stored a fact for an object, [getObj] for that object and a
    pointer of the type of the fact returns [true] and copies that fact;
    for an object at another address, or a pointer of another type, it
    answers as before, and so does [getPkg] for every package. *)
Theorem getObj_after_setObj ls o lemma ls' :
  setObj ls o lemma = Ok ls' →
  (∀ ptr, analysis.lemma_type ptr = analysis.lemma_type lemma →
          getObj ls' (Some o) ptr = Ok (Some lemma))
  ∧ (∀ o' ptr,
       obj_addr o' ≠ obj_addr o
       ∨ analysis.lemma_type ptr ≠ analysis.lemma_type lemma →
       getObj ls' (Some o') ptr = getObj ls (Some o') ptr)
  ∧ (∀ p ptr, getPkg W ls' (Some p) ptr = getPkg W ls (Some p) ptr).
Proof.
  unfold setObj. destruct (negb _); [done|]. intros [= <-]. split; [|split].
  - intros ptr Hty. unfold getObj, store, key_id. simpl. rewrite Hty.
    rewrite lookup_insert_eq. unfold analysis.set_ptr. by rewrite decide_True.
  - intros o' ptr Hother. unfold getObj, store, key_id. simpl.
    rewrite lookup_insert_ne; [done|]. intros [= ? ?]. destruct Hother; done.
  - intros p ptr. unfold getPkg, store, key_id. simpl.
    rewrite lookup_insert_ne; [done|]. intros [= ? ?].
Qed.

(** X15.  A package fact is stored under the path of the package of the
    store: after [setPkg], [getPkg] for any package with that path and
    a pointer of the type of the fact returns [true] and copies the
    fact; for a package with another path, or a pointer of another
    type, it answers as before. *)
Theorem getPkg_after_setPkg ls lemma :
  (∀ p ptr, Path (package W p) = Path (package W (pkg ls)) →
            analysis.lemma_type ptr = analysis.lemma_type lemma →
            getPkg W (setPkg W ls lemma) (Some p) ptr = Ok (Some lemma))
  ∧ (∀ p ptr,
       Path (package W p) ≠ Path (package W (pkg ls))
       ∨ analysis.lemma_type ptr ≠ analysis.lemma_type lemma →
       getPkg W (setPkg W ls lemma) (Some p) ptr = getPkg W ls (Some p) ptr).
Proof.
  split.
  - intros p ptr Hpath Hty. unfold getPkg, setPkg, store, key_id. simpl.
    rewrite Hpath, Hty, lookup_insert_eq. unfold analysis.set_ptr.
    by rewrite decide_True.
  - intros p ptr Hother. unfold getPkg, setPkg, store, key_id. simpl.
    rewrite lookup_insert_ne; [done|]. intros [= ? ?]. destruct Hother; done.
Qed.

(** X16.  The setters of the driver check the type of the fact and the
    owner of the object, and nothing else: a call succeeds exactly when
    the type of the fact is declared by the analysis and, for an object
    fact, the object belongs to the package under analysis; every other
    call panics.  (Unlike the setters of the checker they stay enabled
    once [Run] has returned.) *)
Theorem unit_set_contract a c ls :
  (is_Ok (unit_set W a c ls) ↔ allowed a ls c)
  ∧ (is_Panic (unit_set W a c ls) ↔ ¬ allowed a ls c).
Proof.
  unfold unit_set, checkLemma, setObj, allowed.
  assert (∀ A (x : A), is_Ok (Ok (E := string) x)) as HOk by (by eexists).
  assert (∀ A msg, is_Panic (Panic (E := string) (A := A) msg)) as HPanic
    by (by eexists).
  assert (∀ A (x : A), ¬ is_Panic (Ok (E := string) x)) as HnP
    by (by intros ?? [? ?]).
  assert (∀ A msg, ¬ is_Ok (Panic (E := string) (A := A) msg)) as HnO
    by (by intros ?? [? ?]).
  destruct c as [o lemma|lemma]; simpl;
    repeat (case_bool_decide; simpl); split; split; intros H';
    try done; try (by destruct H'); try (by apply HOk);
    try (by apply HPanic); try (by destruct (HnP _ _ H'));
    try (by destruct (HnO _ _ H')); tauto.
Qed.

End store_facts.

Section import_facts.
Import types objectpath doctor checker spec.
Context (W : World).
Context (ReadFile : string → option string).
Context (gob_decode : string → option (list gobLemma)).

(** X17.  The facts of the imports are visible to the analyses: after
    [readLemmas], and after any setter calls of the analyses, a package
    fact found in the fact file of a direct import can be got for every
    package of the recorded path, and an object fact whose path resolves
    in the import can be got for the object it resolves to. *)
Theorem imported_facts_are_visible inputFiles pkg_ ls calls ls' imp l ptr :
  readLemmas W ReadFile gob_decode inputFiles pkg_ = Ok ls →
  run_analyses W calls ls = Ok ls' →
  read_from_import W ReadFile gob_decode inputFiles pkg_ imp l →
  analysis.lemma_type ptr = analysis.lemma_type (Lemma_ l) →
  (PkgPath l ≠ "" →
   ∀ p, Path (package W p) = PkgPath l →
        ∃ v, getPkg W ls' (Some p) ptr = Ok (Some v))
  ∧ (PkgPath l = "" →
     ∀ o, FindObject W imp (Object l) = Ok o →
          ∃ v, getObj ls' (Some o) ptr = Ok (Some v)).
Proof.
  intros Hread Hrun Hl Hty.
  assert (∀ id, record_id W imp l = Some id →
                ∃ k v, m ls' !! id = Some (k, v)
                       ∧ analysis.lemma_type v = id.2) as Hstored.
  { intros id Hid.
    destruct (readLemmas_stores _ _ _ _ _ _ _ _ _ Hread Hl Hid) as [Hwk0 Hin0].
    destruct (run_analyses_keeps _ _ _ _ Hrun) as [Hwk Hmono].
    destruct (Hmono id Hin0) as [[k v] Hkv]. exists k, v. split; [done|].
    destruct (Hwk Hwk0 id k v Hkv) as [<- <-]. done. }
  split.
  - intros Hpkg p Hpath.
    destruct (Hstored (None, PkgPath l, analysis.lemma_type (Lemma_ l)))
      as (k & v & Hkv & Hv).
    { unfold record_id. by destruct (String.eqb_spec (PkgPath l) ""). }
    exists v. unfold getPkg, key_id. simpl. rewrite Hpath, Hty, Hkv.
    unfold analysis.set_ptr. simpl in Hv. rewrite decide_True by congruence. done.
  - intros Hpkg o Ho.
    destruct (Hstored (Some (obj_addr o), "", analysis.lemma_type (Lemma_ l)))
      as (k & v & Hkv & Hv).
    { unfold record_id. rewrite Hpkg, Ho. done. }
    exists v. unfold getObj, key_id. simpl. rewrite Hty, Hkv.
    unfold analysis.set_ptr. simpl in Hv. rewrite decide_True by congruence. done.
Qed.

End import_facts.

(** ** The order of the fact file and the errors of the reader *)

Section order_facts.
Import types objectpath doctor spec.

(** X21.  The comparison that [writeLemmas] hands to [sort.Slice] is a
    strict weak ordering, as [sort.Slice] asks: it is irreflexive,
    asymmetric and transitive, and so is the relation of two records
    that it orders in neither direction. *)
Theorem less_is_strict_weak_order :
  (∀ x, less x x = false)
  ∧ (∀ x y, less x y = true → less y x = false)
  ∧ (∀ x y z, less x y = true → less y z = true → less x z = true)
  ∧ (∀ x y z, less x y = false → less y z = false → less x z = false).
Proof.
  split; [|split; [|split]].
  - intros x. destruct (less x x) eqn:Hxx; [|done].
    pose proof (less_asym _ _ Hxx). congruence.
  - apply less_asym.
  - intros x y z Hxy Hyz. destruct (less x z) eqn:Hxz; [done|].
    pose proof (less_asym _ _ Hyz) as Hzy.
    pose proof (less_negtrans _ _ _ Hxz Hzy). congruence.
  - apply less_negtrans.
Qed.

(** X19.  The fact file is sorted: for every store and every order of
    visiting it, [writeLemmas] ends normally and the records it writes
    ascend by object path and, among the records of one object path, by
    the name of the fact type. *)
Theorem writeLemmas_orders_records W visit :
  ∃ out, writeLemmas W visit = Ok out
         ∧ StronglySorted by_object_then_type out.
Proof.
  destruct (writeLemmas_Permutation W visit) as (out & Hout & _).
  exists out. split; [done|].
  pose proof (writeLemmas_ascending W visit out Hout) as Hasc.
  unfold ascending in Hasc. clear Hout.
  induction Hasc as [|x l Hl IH Hx]; [constructor|].
  constructor; [done|].
  eapply Forall_impl; [exact Hx|]. intros y Hyx.
  apply less_false in Hyx as [Hle Hty]. split; [done|].
  intros Heq. by apply Hty.
Qed.

End order_facts.

Section read_errors.
Import types objectpath doctor spec.
Context (W : World).
Context (ReadFile : string → option string).
Context (gob_decode : string → option (list gobLemma)).

(** A loop ends with the error of one of its steps. *)
Lemma foldM_Err {E A B} (f : B → A → outcome E B) l b e :
  foldM f b l = Err e → ∃ x b0, x ∈ l ∧ f b0 x = Err e.
Proof.
  revert b. induction l as [|y l IH]; intros b; simpl; [done|].
  destruct (f b y) as [b1|e1|msg] eqn:Hf; simpl.
  - intros (x & b0 & Hin & Hx)%IH. exists x, b0.
    split; [by apply list_elem_of_further|done].
  - intros [= ->]. exists y, b. split; [apply list_elem_of_here|done].
  - done.
Qed.

Lemma read_record_no_error imp m l e : read_record W imp m l ≠ Err e.
Proof.
  unfold read_record. destruct (negb _); [done|].
  by destruct (FindObject W imp (Object l)).
Qed.


End read_errors.

(** ** Which analyses use facts *)

Section analysis_graph_facts.
Import analysis spec.

(** Induction on an analysis and on the analyses it requires. *)
Lemma Analysis_nested_ind (P : Analysis → Prop) :
  (∀ a, Forall P (Requires a) → P a) → ∀ a, P a.
Proof.
  intros H.
  refine (fix IH (a : Analysis) : P a :=
            match a with
            | mkAnalysis addr name reqs lts ot rde run =>
                H (mkAnalysis addr name reqs lts ot rde run)
                  ((fix all (l : list Analysis) : Forall P l :=
                      match l with
                      | [] => ListDef.Forall_nil _
                      | r :: l' => ListDef.Forall_cons _ _ _ (IH r) (all l')
                      end) reqs)
            end).
Qed.

Lemma sum_list_append l1 l2 :
  sum_list (l1 ++ l2) = (sum_list l1 + sum_list l2)%nat.
Proof. induction l1 as [|n l1 IH]; simpl; [done|]. rewrite IH. lia. Qed.

Lemma size_unfold a : size a = S (sum_list (size <$> Requires a)).
Proof. by destruct a. Qed.

Lemma usesLemmas_unfold a :
  usesLemmas a
  = bool_decide (LemmaTypes a ≠ []) || existsb usesLemmas (Requires a).
Proof. by destruct a. Qed.

Lemma required_unfold a :
  required a = a :: concat (required <$> Requires a).
Proof. by destruct a. Qed.

Lemma required_self a : a ∈ required a.
Proof. rewrite required_unfold. apply list_elem_of_here. Qed.

Lemma elem_of_concat_fmap {A B} (f : A → list B) l y :
  y ∈ concat (f <$> l) ↔ ∃ x, x ∈ l ∧ y ∈ f x.
Proof.
  induction l as [|x l IH]; simpl.
  - split; [by intros ?%elem_of_nil|by intros (? & ?%elem_of_nil & _)].
  - rewrite elem_of_app, IH. split.
    + intros [Hy|(x' & Hx' & Hy)].
      * exists x. split; [apply list_elem_of_here|done].
      * exists x'. split; [by apply list_elem_of_further|done].
    + intros (x' & [->|Hx']%elem_of_cons & Hy); [by left|].
      right. by exists x'.
Qed.

(** The analyses reached from [a] are closed under [Requires]. *)
Lemma required_closed a x r :
  x ∈ required a → r ∈ Requires x → r ∈ required a.
Proof.
  induction a as [a IH] using Analysis_nested_ind.
  rewrite required_unfold. intros [->|Hx]%elem_of_cons Hr.
  - apply list_elem_of_further, elem_of_concat_fmap. exists r.
    split; [done|apply required_self].
  - apply list_elem_of_further.
    apply elem_of_concat_fmap in Hx as (req & Hreq & Hx).
    apply elem_of_concat_fmap. exists req. split; [done|].
    rewrite Forall_forall in IH. by apply IH.
Qed.

Lemma reached_closed analyses x r :
  x ∈ concat (required <$> analyses) → r ∈ Requires x →
  r ∈ concat (required <$> analyses).
Proof.
  intros (a & Ha & Hx)%elem_of_concat_fmap Hr.
  apply elem_of_concat_fmap. exists a. split; [done|].
  by eapply required_closed.
Qed.

(** An analysis uses facts exactly when a fact type is declared by an
    analysis reached from it. *)
Lemma usesLemmas_required a :
  usesLemmas a = true ↔ ∃ x, x ∈ required a ∧ LemmaTypes x ≠ [].
Proof.
  induction a as [a IH] using Analysis_nested_ind.
  rewrite usesLemmas_unfold, required_unfold, orb_true_iff,
    bool_decide_eq_true, existsb_exists.
  rewrite Forall_forall in IH. split.
  - intros [Hlt|(r & Hr%list_elem_of_In & Huses)].
    + exists a. split; [apply list_elem_of_here|done].
    + apply IH in Huses as (x & Hx & Hlt); [|done]. exists x.
      split; [|done]. apply list_elem_of_further, elem_of_concat_fmap.
      by exists r.
  - intros (x & [->|Hx]%elem_of_cons & Hlt); [by left|]. right.
    apply elem_of_concat_fmap in Hx as (r & Hr & Hx). exists r.
    split; [by apply list_elem_of_In|]. apply IH; [done|]. by exists x.
Qed.

Lemma uses_reached analyses :
  existsb usesLemmas analyses = true
  ↔ ∃ x, x ∈ concat (required <$> analyses) ∧ LemmaTypes x ≠ [].
Proof.
  rewrite existsb_exists. split.
  - intros (a & Ha%list_elem_of_In & (x & Hx & Hlt)%usesLemmas_required).
    exists x. split; [|done]. apply elem_of_concat_fmap. by exists a.
  - intros (x & (a & Ha & Hx)%elem_of_concat_fmap & Hlt). exists a.
    split; [by apply list_elem_of_In|]. apply usesLemmas_required.
    by exists x.
Qed.

Lemma declares_length a :
  bool_decide (0 < length (LemmaTypes a))%nat = bool_decide (LemmaTypes a ≠ []).
Proof.
  apply bool_decide_ext. destruct (LemmaTypes a); simpl.
  - split; [lia|done].
  - split; [done|lia].
Qed.

End analysis_graph_facts.

Section needLemmas_facts.
Import analysis spec checker.
Context (analyses : list Analysis) (Haddr : by_address analyses).

Lemma seen_adds_nothing (seen : gset nat) q :
  (∀ x, x ∈ concat (required <$> analyses) → addr x ∈ seen →
        LemmaTypes x = []
        ∧ ∀ r, r ∈ Requires x → addr r ∈ seen ∨ r ∈ q) →
  ∀ x, x ∈ concat (required <$> analyses) → addr x ∈ seen →
       usesLemmas x = true → existsb usesLemmas q = true.
Proof.
  intros Hinv x. induction x as [x IH] using Analysis_nested_ind.
  intros HU Hseen Huses. destruct (Hinv x HU Hseen) as [Hlt Hreqs].
  rewrite usesLemmas_unfold, Hlt in Huses.
  rewrite bool_decide_eq_false_2 in Huses by (by intros []).
  simpl in Huses. apply existsb_exists in Huses as (r & Hr & Huses).
  apply list_elem_of_In in Hr. destruct (Hreqs r Hr) as [Hrseen|Hq].
  - rewrite Forall_forall in IH. apply (IH r); try done.
    by eapply reached_closed.
  - apply existsb_exists. exists r. by rewrite <-list_elem_of_In.
Qed.

(** The loop of [needLemmas] ends within its bound and finds a fact
    type exactly when an analysis of the queue uses facts. *)
Lemma needLemmas_loop_correct fuel : ∀ (seen : gset nat) q,
  (sum_list (size <$> q) ≤ fuel)%nat →
  (∀ x, x ∈ q → x ∈ concat (required <$> analyses)) →
  (∀ x, x ∈ concat (required <$> analyses) → addr x ∈ seen →
        LemmaTypes x = []
        ∧ ∀ r, r ∈ Requires x → addr r ∈ seen ∨ r ∈ q) →
  needLemmas_loop fuel seen q = Some (existsb usesLemmas q).
Proof.
  induction fuel as [|fuel IH]; intros seen q Hfuel HU Hinv.
  - destruct q as [|a q]; [done|]. simpl in Hfuel.
    rewrite size_unfold in Hfuel. lia.
  - destruct q as [|a q]; [done|]. simpl in Hfuel.
    rewrite size_unfold in Hfuel.
    change (list_fmap Analysis nat size q) with (size <$> q) in Hfuel.
    assert (a ∈ concat (required <$> analyses)) as Ha
      by apply HU, list_elem_of_here.
    cbn [needLemmas_loop existsb]. case_bool_decide as Hseen.
    + assert (∀ x, x ∈ concat (required <$> analyses) → addr x ∈ seen →
                   LemmaTypes x = []
                   ∧ ∀ r, r ∈ Requires x → addr r ∈ seen ∨ r ∈ q) as Hinv'.
      { intros x Hx Hxs. destruct (Hinv x Hx Hxs) as [Hlt Hreqs].
        split; [done|]. intros r Hr.
        destruct (Hreqs r Hr) as [?|[->|?]%elem_of_cons]; auto. }
      rewrite IH; [|lia| |done].
      2:{ intros x Hx. by apply HU, list_elem_of_further. }
      destruct (usesLemmas a) eqn:Huses; [|done]. simpl.
      f_equal. by eapply seen_adds_nothing.
    + rewrite declares_length, usesLemmas_unfold.
      case_bool_decide as Hlt; [done|]. simpl.
      rewrite IH.
      * by rewrite existsb_app, orb_comm.
      * rewrite fmap_app, sum_list_append. lia.
      * intros x [Hx|Hx]%elem_of_app.
        -- by apply HU, list_elem_of_further.
        -- by eapply reached_closed.
      * intros x Hx [Hxa%elem_of_singleton|Hxs]%elem_of_union.
        -- apply Haddr in Hxa; [|done..]. subst x.
           split; [by destruct (LemmaTypes a); [|destruct Hlt]|].
           intros r Hr. right. apply elem_of_app. by right.
        -- destruct (Hinv x Hx Hxs) as [Hlt' Hreqs]. split; [done|].
           intros r Hr. destruct (Hreqs r Hr) as [?|[->|?]%elem_of_cons].
           ++ left. apply elem_of_union. by right.
           ++ left. apply elem_of_union. left. by apply elem_of_singleton.
           ++ right. apply elem_of_app. by left.
Qed.

(** X13.  [needLemmas] ends and reports whether the analyses need facts:
    it returns [true] exactly when one of the given analyses, or an
    analysis that they require, directly or through other analyses,
    declares a fact type. *)
Theorem needLemmas_reachability :
  ∃ b, needLemmas analyses = Some b
       ∧ (b = true ↔ ∃ a, a ∈ concat (required <$> analyses)
                          ∧ LemmaTypes a ≠ []).
Proof.
  exists (existsb usesLemmas analyses). split; [|apply uses_reached].
  apply needLemmas_loop_correct.
  - done.
  - intros x Hx. apply elem_of_concat_fmap. exists x.
    split; [done|apply required_self].
  - intros x _ ?%elem_of_empty. done.
Qed.

End needLemmas_facts.

Section registerLemmas_facts.
Import analysis spec doctor.
Context (analyses : list Analysis) (Haddr : by_address analyses).

Lemma registerLemmas_unfold a actions :
  registerLemmas a actions =
    match actions !! addr a with
    | Some usesLemmas => (usesLemmas, actions)
    | None =>
        let st :=
          foldl (λ (st : bool * gmap nat bool) req,
                   let r := registerLemmas req st.2 in
                   (if r.1 then true else st.1, r.2))
                (bool_decide (0 < length (LemmaTypes a))%nat, actions)
                (Requires a) in
        (st.1, <[addr a := st.1]> st.2)
    end.
Proof. by destruct a. Qed.

(** [registerLemmas] answers whether the analysis uses facts, and the
    table it leaves holds that answer for every analysis entered. *)
Lemma registerLemmas_correct a : ∀ actions,
  a ∈ concat (required <$> analyses) →
  (∀ x u, x ∈ concat (required <$> analyses) →
          actions !! addr x = Some u → u = usesLemmas x) →
  (registerLemmas a actions).1 = usesLemmas a
  ∧ ∀ x u, x ∈ concat (required <$> analyses) →
           (registerLemmas a actions).2 !! addr x = Some u →
           u = usesLemmas x.
Proof.
  induction a as [a IH] using Analysis_nested_ind. intros actions Ha Hmemo.
  rewrite registerLemmas_unfold.
  destruct (actions !! addr a) as [u|] eqn:Hhit.
  { split; [by apply Hmemo|done]. }
  assert (∀ l st,
            (∀ r, r ∈ l → r ∈ Requires a) →
            (∀ x u, x ∈ concat (required <$> analyses) →
                    st.2 !! addr x = Some u → u = usesLemmas x) →
            let st' :=
              foldl (λ (st : bool * gmap nat bool) req,
                       let r := registerLemmas req st.2 in
                       (if r.1 then true else st.1, r.2)) st l in
            st'.1 = existsb usesLemmas l || st.1
            ∧ ∀ x u, x ∈ concat (required <$> analyses) →
                     st'.2 !! addr x = Some u → u = usesLemmas x) as Hloop.
  { induction l as [|r l IHl]; intros st Hl Hst; simpl; [done|].
    rewrite Forall_forall in IH.
    destruct (IH r (Hl r (list_elem_of_here _ _)) st.2) as [Hr Hmemo'];
      [|done|].
    { eapply reached_closed; [exact Ha|]. apply Hl, list_elem_of_here. }
    destruct (IHl (if (registerLemmas r st.2).1 then true else st.1,
                   (registerLemmas r st.2).2)) as [H1 H2]; simpl.
    - intros r' Hr'. by apply Hl, list_elem_of_further.
    - done.
    - simpl in H1, H2. split; [|done]. rewrite H1, Hr.
      destruct (usesLemmas r), (existsb usesLemmas l), st.1; done. }
  destruct (Hloop (Requires a)
              (bool_decide (0 < length (LemmaTypes a))%nat, actions))
    as [H1 H2]; [done|done|]. simpl in H1, H2. simpl.
  assert (∀ b, b = usesLemmas a →
               b = usesLemmas a
               ∧ ∀ x u, x ∈ concat (required <$> analyses) →
                        <[addr a := b]>
                          (foldl (λ (st : bool * gmap nat bool) req,
                                    let r := registerLemmas req st.2 in
                                    (if r.1 then true else st.1, r.2))
                                 (bool_decide (0 < length (LemmaTypes a))%nat,
                                  actions) (Requires a)).2 !! addr x = Some u →
                        u = usesLemmas x) as Hfinal.
  { intros b ->. split; [done|]. intros x u Hx.
    destruct (decide (addr x = addr a)) as [Heq|Hne].
    - rewrite Heq, lookup_insert_eq. intros [= <-]. f_equal.
      by apply Haddr.
    - rewrite lookup_insert_ne by done. by apply H2. }
  apply Hfinal. rewrite H1, declares_length, usesLemmas_unfold.
  apply orb_comm.
Qed.

(** X18.  In [VetxOnly] mode the driver runs exactly the analyses that
    use facts: the analyses kept are, in the given order, those that
    declare a fact type or require, directly or through other analyses,
    one that does; outside that mode all the analyses are kept. *)
Theorem filtered_keeps_users_of_facts VetxOnly :
  filtered VetxOnly analyses
  = filter (λ a, usesLemmas a = true ∨ VetxOnly = false) analyses.
Proof.
  unfold filtered.
  assert (∀ l (st : list Analysis * gmap nat bool),
            (∀ a, a ∈ l → a ∈ concat (required <$> analyses)) →
            (∀ x u, x ∈ concat (required <$> analyses) →
                    st.2 !! addr x = Some u → u = usesLemmas x) →
            (foldl (λ (st : list Analysis * gmap nat bool) a,
                      let r := registerLemmas a st.2 in
                      (if r.1 || negb VetxOnly then st.1 ++ [a] else st.1,
                       r.2)) st l).1
            = st.1 ++ filter (λ a, usesLemmas a = true ∨ VetxOnly = false) l)
    as Hloop.
  { induction l as [|a l IHl]; intros st Hl Hst; simpl.
    - by rewrite app_nil_r.
    - destruct (registerLemmas_correct a st.2) as [Ha Hmemo];
        [apply Hl, list_elem_of_here|done|].
      rewrite IHl; simpl.
      + rewrite Ha, filter_cons.
        destruct (usesLemmas a) eqn:Huses.
        * rewrite decide_True by by left. simpl. by rewrite <-app_assoc.
        * destruct VetxOnly.
          -- rewrite decide_False; [done|]. by intros [|].
          -- rewrite decide_True by by right. simpl.
             by rewrite <-app_assoc.
      + intros a' Ha'. by apply Hl, list_elem_of_further.
      + done. }
  rewrite Hloop; [done| |done].
  intros a Ha. apply elem_of_concat_fmap. exists a.
  split; [done|apply required_self].
Qed.

End registerLemmas_facts.

(** ** The properties above on the concrete programs *)

Lemma parse_print_witness :
  objectpath.parse
    (gostrings.Join
       (objectpath.print_elem
          <$> [objectpath.EStr "Foo"; objectpath.EStr "!underlying";
               objectpath.EInt 1]) ".")
  = Ok [objectpath.EStr "Foo"; objectpath.EStr "!underlying";
        objectpath.EInt 1].
Proof.
  apply parse_print.
  - discriminate.
  - repeat constructor.
Defined.

Lemma objLemma_after_setObjLemma_witness :
  (∀ ptr, analysis.lemma_type ptr = analysis.lemma_type examples.wrapper →
          checker.objLemma examples.facts_with_F (Some examples.a_F) ptr
          = Ok (Some examples.wrapper))
  ∧ (∀ o' ptr,
       types.obj_addr o' ≠ types.obj_addr examples.a_F
       ∨ analysis.lemma_type ptr ≠ analysis.lemma_type examples.wrapper →
       checker.objLemma examples.facts_with_F (Some o') ptr
       = checker.objLemma examples.facts_running (Some o') ptr).
Proof.
  apply objLemma_after_setObjLemma. vm_compute. reflexivity.
Defined.

Lemma pkgLemma_after_setPkgLemma_witness :
  ∃ u, checker.act_unit examples.facts_running = Some u
  ∧ (∀ ptr, analysis.lemma_type ptr = analysis.lemma_type examples.wrapper →
            checker.pkgLemma examples.facts_with_pkg
              (Some (analysis.unit_Pkg u)) ptr
            = Ok (Some examples.wrapper))
  ∧ (∀ pkg ptr,
       pkg ≠ analysis.unit_Pkg u
       ∨ analysis.lemma_type ptr ≠ analysis.lemma_type examples.wrapper →
       checker.pkgLemma examples.facts_with_pkg (Some pkg) ptr
       = checker.pkgLemma examples.facts_running (Some pkg) ptr).
Proof.
  apply pkgLemma_after_setPkgLemma. vm_compute. reflexivity.
Defined.

Lemma exec_at_most_once_witness :
  checker.exec "" examples.gob_id examples.facts_at_a = Ok examples.facts_at_a
  ∧ (checker.act_runs examples.facts_at_a
     = checker.act_runs (checker.mkAction examples.facts examples.pkg_a)
     ∨ checker.act_runs examples.facts_at_a
       = S (checker.act_runs
              (checker.mkAction examples.facts examples.pkg_a))).
Proof.
  apply exec_at_most_once. vm_compute. reflexivity.
Defined.

Lemma ill_typed_package_is_skipped_witness :
  checker.act_runs examples.Y_at_broken
  = checker.act_runs (checker.mkAction examples.Y examples.broken)
  ∧ checker.act_err examples.Y_at_broken ≠ None
  ∧ (Forall (λ dep, checker.act_err dep = None)
            (checker.act_deps examples.Y_at_broken) →
     checker.act_err examples.Y_at_broken
     = Some "analysis skipped due to errors in package").
Proof.
  apply (ill_typed_package_is_skipped "" examples.gob_id).
  - reflexivity.
  - reflexivity.
  - reflexivity.
  - vm_compute. reflexivity.
Defined.

Lemma successful_action_has_declared_output_witness :
  ∃ u, checker.act_unit examples.consume_at_P = Some u
       ∧ analysis.unit_SetObjectLemma u = false
       ∧ analysis.unit_SetPackageLemma u = false
       ∧ checker.output_type (analysis.unit_Output u)
         = analysis.OutputType
             (checker.act_a (checker.mkAction examples.consume examples.P))
       ∧ checker.act_runs examples.consume_at_P
         = S (checker.act_runs
                (checker.mkAction examples.consume examples.P))
       ∧ Forall (λ dep, checker.act_err dep = None)
                (checker.act_deps examples.consume_at_P).
Proof.
  apply (successful_action_has_declared_output "" examples.gob_id).
  - reflexivity.
  - vm_compute. reflexivity.
  - reflexivity.
Defined.

Lemma inputs_hold_outputs_of_required_witness :
  ∃ u, checker.act_unit examples.consume_at_P = Some u
       ∧ ∀ dep, dep ∈ checker.act_deps examples.consume_at_P →
                packages.addr (checker.act_pkg dep)
                = packages.addr (checker.act_pkg examples.consume_at_P) →
                ∃ dep' du,
                  dep' ∈ checker.act_deps examples.consume_at_P
                  ∧ packages.addr (checker.act_pkg dep')
                    = packages.addr (checker.act_pkg examples.consume_at_P)
                  ∧ analysis.addr (checker.act_a dep')
                    = analysis.addr (checker.act_a dep)
                  ∧ checker.act_unit dep' = Some du
                  ∧ analysis.unit_Inputs u
                      !! analysis.addr (checker.act_a dep)
                    = Some (analysis.unit_Output du).
Proof.
  apply (inputs_hold_outputs_of_required "" examples.gob_id
           (checker.mkAction examples.consume examples.P)).
  - reflexivity.
  - vm_compute. reflexivity.
  - repeat constructor.
Defined.

Lemma inheritLemmas_copies_package_facts_witness :
  match spec.pkg_fact examples.notes_at_a 0 1 with
  | Some lemma =>
      ∃ new, checker.serialized "" examples.gob_id lemma = Ok new
             ∧ spec.pkg_fact examples.notes_at_b_inherited 0 1 = Some new
  | None =>
      spec.pkg_fact examples.notes_at_b_inherited 0 1
      = spec.pkg_fact examples.notes_at_b 0 1
  end.
Proof.
  apply (inheritLemmas_copies_package_facts "" examples.gob_id
           examples.notes_at_b examples.notes_at_a).
  - vm_compute. reflexivity.
  - simpl. lia.
Defined.

Lemma by_address_examples :
  spec.by_address [examples.X_after_Y; examples.facts].
Proof.
  intros a b Ha Hb.
  change (concat (spec.required <$> [examples.X_after_Y; examples.facts]))
    with [examples.X_after_Y; examples.Y; examples.facts] in Ha, Hb.
  rewrite !elem_of_cons, elem_of_nil in Ha, Hb.
  destruct Ha as [->|[->|[->|[]]]]; destruct Hb as [->|[->|[->|[]]]];
    done.
Qed.

Lemma needLemmas_reachability_witness :
  ∃ b, checker.needLemmas [examples.X_after_Y; examples.facts] = Some b
       ∧ (b = true
          ↔ ∃ a, a ∈ concat (spec.required
                               <$> [examples.X_after_Y; examples.facts])
                 ∧ analysis.LemmaTypes a ≠ []).
Proof. apply needLemmas_reachability, by_address_examples. Defined.

Lemma filtered_keeps_users_of_facts_witness :
  doctor.filtered true [examples.X_after_Y; examples.facts]
  = filter (λ a, spec.usesLemmas a = true ∨ true = false)
           [examples.X_after_Y; examples.facts].
Proof. apply filtered_keeps_users_of_facts, by_address_examples. Defined.

Lemma getObj_after_setObj_witness :
  (∀ ptr, analysis.lemma_type ptr = analysis.lemma_type examples.wrapper →
          doctor.getObj examples.b_with_G (Some examples.b_G) ptr
          = Ok (Some examples.wrapper))
  ∧ (∀ o' ptr,
       types.obj_addr o' ≠ types.obj_addr examples.b_G
       ∨ analysis.lemma_type ptr ≠ analysis.lemma_type examples.wrapper →
       doctor.getObj examples.b_with_G (Some o') ptr
       = doctor.getObj examples.b_read (Some o') ptr)
  ∧ (∀ p ptr,
       doctor.getPkg examples.vetx_world examples.b_with_G (Some p) ptr
       = doctor.getPkg examples.vetx_world examples.b_read (Some p) ptr).
Proof.
  apply getObj_after_setObj. vm_compute. reflexivity.
Defined.

Lemma imported_facts_are_visible_witness :
  (doctor.PkgPath
     {| doctor.Object := "F"; doctor.PkgPath := "";
        doctor.Lemma_ := examples.wrapper |} ≠ "" →
   ∀ p, types.Path (types.package examples.vetx_world p)
        = doctor.PkgPath
            {| doctor.Object := "F"; doctor.PkgPath := "";
               doctor.Lemma_ := examples.wrapper |} →
        ∃ v, doctor.getPkg examples.vetx_world examples.b_lemmas (Some p)
               examples.wrapper = Ok (Some v))
  ∧ (doctor.PkgPath
       {| doctor.Object := "F"; doctor.PkgPath := "";
          doctor.Lemma_ := examples.wrapper |} = "" →
     ∀ o, objectpath.FindObject examples.vetx_world 1
            (doctor.Object
               {| doctor.Object := "F"; doctor.PkgPath := "";
                  doctor.Lemma_ := examples.wrapper |}) = Ok o →
          ∃ v, doctor.getObj examples.b_lemmas (Some o) examples.wrapper
               = Ok (Some v)).
Proof.
  apply (imported_facts_are_visible examples.vetx_world examples.ReadFile
           examples.gob_decode examples.vetx_files 2 examples.b_read
           examples.calls_on_b).
  - vm_compute. reflexivity.
  - vm_compute. reflexivity.
  - apply read_from_a. unfold examples.a_vetx.
    apply list_elem_of_further, list_elem_of_further, list_elem_of_here.
  - reflexivity.
Defined.

Lemma writeLemmas_deterministic_without_ties_witness :
  doctor.writeLemmas examples.vetx_world examples.visit_a
  = doctor.writeLemmas examples.vetx_world examples.visit_a'.
Proof.
  apply (writeLemmas_deterministic_without_ties examples.vetx_world
           examples.a_lemmas).
  - unfold doctor.visits. vm_compute. reflexivity.
  - unfold doctor.visits. vm_compute. apply perm_swap.
  - assert (omap (spec.surviving_record examples.vetx_world)
                 examples.visit_a = examples.a_vetx) as ->
      by (vm_compute; reflexivity).
    unfold examples.a_vetx. intros x y Hx Hy [Hxy Hyx].
    rewrite !elem_of_cons, elem_of_nil in Hx, Hy.
    destruct Hx as [->|[->|[->|[]]]]; destruct Hy as [->|[->|[->|[]]]];
      first [reflexivity | by vm_compute in Hxy | by vm_compute in Hyx].
Defined.

